(** * Disc-image content identification

    A shallow embedding of the cue-sheet tokenizer, the token scanner, the
    signature matcher, the ISO9660 boot-record resolver, the two serial
    scanners and the cue-sheet data-track locator, with the properties
    the specification states about them.

    Conventions of the embedding:
    - a byte ([char], [uint8_t]) is a [Z] in 0..255; a C object of n bytes
      is a [list Z] of length n;
    - a store or load outside an object is undefined behaviour in C; the
      embedding makes it visible as the outcome [Fault];
    - [int] arithmetic that can leave the 32-bit range is written with
      its two's-complement wrap-around ([wrap32]);
    - [errno] is threaded explicitly. *)

From Stdlib Require Import ZArith Lia String Ascii Bool.
From stdpp Require Import base numbers list.

Local Open Scope Z_scope.

(** ** Outcomes of running C code *)

Inductive outcome (A : Type) : Type :=
| Ret (a : A)        (* the code returns normally *)
| Fault              (* an access outside a C object *)
| OutOfFuel.         (* the iteration bound of the model was too small *)
Arguments Ret {A} a.
Arguments Fault {A}.
Arguments OutOfFuel {A}.

Definition obind {A B} (m : outcome A) (k : A -> outcome B) : outcome B :=
  match m with
  | Ret a => k a
  | Fault => Fault
  | OutOfFuel => OutOfFuel
  end.

Notation "'do' x <- m ;; k" := (obind m (fun x => k))
  (at level 10, x name, m at level 99, k at level 200).
Notation "'do' ' pat <- m ;; k" :=
  (obind m (fun x => match x with pat => k end))
  (at level 10, pat pattern, m at level 99, k at level 200).

(** ** Bytes, C objects and C strings *)

Fixpoint bytes (s : string) : list Z :=
  match s with
  | EmptyString => []
  | String a s' => Z.of_N (N_of_ascii a) :: bytes s'
  end.

(** [buf[i] = v] *)
Definition store (buf : list Z) (i : nat) (v : Z) : outcome (list Z) :=
  if (i <? length buf)%nat then Ret (<[i:=v]> buf) else Fault.

(** [buf[i]] *)
Definition load (buf : list Z) (i : nat) : outcome Z :=
  match buf !! i with
  | Some v => Ret v
  | None => Fault
  end.

(** Copy of [data] into [buf] from index 0, as a read of [length data]
    bytes into [buf] does. *)
Definition store_bytes (buf : list Z) (data : list Z) : outcome (list Z) :=
  if (length data <=? length buf)%nat
  then Ret (data ++ drop (length data) buf)
  else Fault.

(** The NUL-terminated string that starts at the head of [buf]; reading
    past the end of the object without meeting a NUL is a fault. *)
Fixpoint cstr (buf : list Z) : outcome (list Z) :=
  match buf with
  | [] => Fault
  | c :: r => if c =? 0 then Ret [] else do s <- cstr r ;; Ret (c :: s)
  end.

Definition bytes_eqb (a b : list Z) : bool :=
  bool_decide (a = b).

(** Modelled from the spec: [string_is_equal] of libretro-common
    (string/stdstring.h, not among the sources): case-sensitive equality
    of two NUL-terminated strings; the second one is a literal here. *)
Definition string_is_equal (buf : list Z) (lit : list Z) : outcome bool :=
  do s <- cstr buf ;; Ret (bytes_eqb s lit).

(** Modelled from the spec: [string_is_empty] of libretro-common. *)
Definition string_is_empty (buf : list Z) : outcome bool :=
  do c <- load buf 0 ;; Ret (c =? 0).

(** <ctype.h> in the C locale. *)
Definition isdigit (c : Z) : bool := (48 <=? c) && (c <=? 57).
Definition isupper (c : Z) : bool := (65 <=? c) && (c <=? 90).
Definition islower (c : Z) : bool := (97 <=? c) && (c <=? 122).
Definition isalnum (c : Z) : bool := isdigit c || isupper c || islower c.
Definition isspace (c : Z) : bool := (c =? 32) || ((9 <=? c) && (c <=? 13)).
Definition toupper (c : Z) : Z := if islower c then c - 32 else c.
Definition tolower (c : Z) : Z := if isupper c then c + 32 else c.

(** <errno.h>, Linux values. *)
Definition EINTR : Z := 4.
Definition EAGAIN : Z := 11.
Definition EINVAL : Z := 22.

(** Two's-complement [int] / [int32_t]. *)
Definition wrap32 (z : Z) : Z := (z + 2^31) mod 2^32 - 2^31.

Definition MAGIC_LEN : nat := 17.
Definition MAX_TOKEN_LEN : nat := 255.

(** ** Sequential streams: the tokenizer's view

    The tokenizer only ever reads forward, one byte per call.  A stream is
    therefore given by the outcomes of its successive one-byte reads; when
    they are used up every further read returns 0 (end of stream). *)

Inductive read1 : Type :=
| RByte (b : Z)      (* the read returns 1 and delivers [b] *)
| RFail (e : positive).
                     (* the read returns a negative value, errno = [e] *)

Definition of_bytes (l : list Z) : list read1 := map RByte l.

(** ** The tokenizer: get_token *)

Inductive action : Type :=
| Skip (in_string : bool)   (* [continue] *)
| Terminate                 (* terminate the token, return len *)
| Advance.                  (* fall out of the switch *)

(** The four white-space cases of the [switch]: space, tab, CR, LF. *)
Definition is_ws (c : Z) : bool :=
  (c =? 32) || (c =? 9) || (c =? 13) || (c =? 10).

(** A byte that is neither white space nor the double quote. *)
Definition plain (c : Z) : Prop := is_ws c = false /\ c <> 34.

(** The [switch] on the byte just read, in get_token. *)
Definition classify (b : Z) (len : nat) (in_string : bool) : action :=
  if is_ws b then
    if (len =? 0)%nat then Skip in_string
    else if negb in_string then Terminate
    else Advance
  else if b =? 34 then
    if (len =? 0)%nat then Skip true
    else Terminate
  else Advance.

(** The [while (1)] loop of get_token; [len] is also the offset of the
    cursor [c] in [token].  Result: return value, rest of the stream,
    token object, errno. *)
Fixpoint get_token_loop (fd : list read1) (token : list Z) (max_len len : nat)
    (in_string : bool) (errno : Z) : outcome (Z * list read1 * list Z * Z) :=
  match fd with
  | [] => Ret (0, [], token, errno)
  | RFail e :: fd' =>
      let errno := Z.pos e in
      if (errno =? EINTR) || (errno =? EAGAIN)
      then get_token_loop fd' token max_len len in_string errno
      else Ret (- errno, fd', token, errno)
  | RByte b :: fd' =>
      do token1 <- store token len b ;;
      match classify b len in_string with
      | Skip in_string' => get_token_loop fd' token1 max_len len in_string' errno
      | Terminate =>
          do token2 <- store token1 len 0 ;;
          Ret (Z.of_nat len, fd', token2, errno)
      | Advance =>
          if (S len =? max_len)%nat
          then do token2 <- store token1 (S len) 0 ;;
               Ret (Z.of_nat (S len), fd', token2, errno)
          else get_token_loop fd' token1 max_len (S len) in_string errno
      end
  end.

Definition get_token (fd : list read1) (token : list Z) (max_len : nat)
    (errno : Z) : outcome (Z * list read1 * list Z * Z) :=
  get_token_loop fd token max_len 0 false errno.

(** ** The token scanner: find_token *)

(** <string.h> [strncmp] of the object [a] against the literal [lit]
    (whose terminating NUL is the [hd 0] of the empty list). *)
Fixpoint strncmp (a lit : list Z) (n : nat) {struct n} : outcome Z :=
  match n with
  | O => Ret 0
  | S n' =>
      match a with
      | [] => Fault
      | c1 :: a' =>
          let c2 := hd 0 lit in
          if negb (c1 =? c2) then Ret (c1 - c2)
          else if c1 =? 0 then Ret 0
          else strncmp a' (tl lit) n'
      end
  end.

(** The [while (strncmp (...) != 0)] loop.  Result: return value, rest of
    the stream, errno. *)
Fixpoint find_token_loop (fuel : nat) (fd : list read1) (tmp_token : list Z)
    (token : list Z) (errno : Z) : outcome (Z * list read1 * Z) :=
  match fuel with
  | O => OutOfFuel
  | S fuel' =>
      do d <- strncmp tmp_token token (length token) ;;
      if d =? 0 then Ret (0, fd, errno)
      else
        do '(rv, fd1, tmp1, errno1) <-
           get_token fd tmp_token (length token) errno ;;
        if rv <=? 0 then Ret (-1, fd1, errno1)
        else find_token_loop fuel' fd1 tmp1 token errno1
  end.

(** [calloc_ok] tells whether the allocation of the working token
    succeeds; [calloc] hands out zeroed memory. *)
Definition find_token (calloc_ok : bool) (fd : list read1) (token : list Z)
    (errno : Z) : outcome (Z * list read1 * Z) :=
  if negb calloc_ok then Ret (-1, fd, errno)
  else find_token_loop (length fd + 2) fd
         (replicate (S (length token)) 0) token errno.

(** ** The cue-sheet data-track locator: find_first_data_track *)

(** <stdio.h> [sscanf] with the format [%02d:%02d:%02d]: each [%02d]
    skips white space and reads an optionally signed decimal integer of
    at most two characters.  A conversion that fails leaves errno as it
    is. *)
Inductive conv : Type :=
| Converted (v : Z) (rest : list Z)
| MatchFailure
| InputFailure.

Fixpoint skip_space (s : list Z) : list Z :=
  match s with
  | c :: r => if isspace c then skip_space r else s
  | [] => []
  end.

Definition scan_d2 (s : list Z) : conv :=
  match skip_space s with
  | [] => InputFailure
  | c :: r =>
      if (c =? 45) || (c =? 43) then
        match r with
        | d :: r' =>
            if isdigit d
            then Converted (if c =? 45 then - (d - 48) else d - 48) r'
            else MatchFailure
        | [] => MatchFailure
        end
      else if isdigit c then
        match r with
        | d :: r' =>
            if isdigit d then Converted ((c - 48) * 10 + (d - 48)) r'
            else Converted (c - 48) r
        | [] => Converted (c - 48) []
        end
      else MatchFailure
  end.

(** Return value of the call and the three [int]s; an [int] that was not
    assigned is indeterminate in C (0 here) and the caller never reads it. *)
Definition sscanf_msf (str : list Z) : Z * (Z * Z * Z) :=
  match scan_d2 str with
  | InputFailure => (-1, (0, 0, 0))
  | MatchFailure => (0, (0, 0, 0))
  | Converted m r1 =>
      match r1 with
      | 58 :: r1' =>
          match scan_d2 r1' with
          | Converted s r2 =>
              match r2 with
              | 58 :: r2' =>
                  match scan_d2 r2' with
                  | Converted f _ => (3, (m, s, f))
                  | _ => (2, (m, s, 0))
                  end
              | _ => (2, (m, s, 0))
              end
          | _ => (1, (m, 0, 0))
          end
      | _ => (1, (m, 0, 0))
      end
  end.

(** [((m * 60) * (s * 75) * f) * 25] on [int]. *)
Definition cue_offset (m s f : Z) : Z :=
  wrap32 (wrap32 (wrap32 (wrap32 (m * 60) * wrap32 (s * 75)) * f) * 25).

Inductive resource : Type := TmpToken | CueDir | Handle.
Inductive event : Type :=
| Acquire (r : resource)   (* malloc, intfstream_init *)
| Release (r : resource).  (* free, intfstream_close *)

Inductive open_result : Type :=
| OpenFail (e : Z)
| Opened (fd : list read1).

(** What the function meets outside itself.  The two [malloc] calls of
    the function are taken to succeed: their results are used
    unchecked. *)
Record cue_env : Type := {
  env_init : option Z;        (* [Some e]: intfstream_init fails, errno = e *)
  env_open : open_result;     (* what opening cue_path gives *)
  env_junk : list Z;          (* contents of the fresh 255-byte block *)
  env_calloc_ok : bool;       (* find_token's allocation *)
  env_errno : Z               (* errno on entry *)
}.

Record cue_result : Type := {
  cue_rv : Z;
  cue_offset_out : option Z;          (* [*offset], when assigned *)
  cue_track_path : option (list Z);   (* [track_path], when filled *)
  cue_errno : Z;
  cue_events : list event
}.

Definition FILE_lit : list Z := Eval vm_compute in bytes "FILE".
Definition TRACK_lit : list Z := Eval vm_compute in bytes "TRACK".
Definition AUDIO_lit : list Z := Eval vm_compute in bytes "AUDIO".
Definition INDEX_lit : list Z := Eval vm_compute in bytes "INDEX".

Section CueSheet.

(** Path helpers of libretro-common (file/file_path.c) and the constant
    PATH_MAX_LENGTH are not among the sources. *)
Variable PATH_MAX_LENGTH : nat.
Variable fill_pathname_basedir : list Z -> nat -> list Z.
Variable fill_pathname_join : list Z -> list Z -> nat -> list Z.

Variable cue_path : list Z.
Variable max_len : nat.

(** The [while (get_token (...) > 0)] loop, up to the [return]. *)
Fixpoint cue_loop (fuel : nat) (calloc_ok : bool) (fd : list read1)
    (tmp_token : list Z) (errno : Z) (track_path : option (list Z))
    (ev : list event) : outcome cue_result :=
  match fuel with
  | O => OutOfFuel
  | S fuel' =>
      do '(rv, fd, tmp_token, errno) <-
         get_token fd tmp_token MAX_TOKEN_LEN errno ;;
      if rv <=? 0 then
        (* rv = -EINVAL; clean: *)
        Ret {| cue_rv := - EINVAL; cue_offset_out := None;
               cue_track_path := track_path; cue_errno := errno;
               cue_events := ev ++ [Release TmpToken; Release Handle] |}
      else
        do is_file <- string_is_equal tmp_token FILE_lit ;;
        if is_file then
          let cue_dir := fill_pathname_basedir cue_path PATH_MAX_LENGTH in
          do '(_, fd, tmp_token, errno) <-
             get_token fd tmp_token MAX_TOKEN_LEN errno ;;
          do name <- cstr tmp_token ;;
          cue_loop fuel' calloc_ok fd tmp_token errno
            (Some (fill_pathname_join cue_dir name max_len))
            (ev ++ [Acquire CueDir; Release CueDir])
        else
          do is_track <- string_is_equal tmp_token TRACK_lit ;;
          if is_track then
            do '(_, fd, tmp_token, errno) <-
               get_token fd tmp_token MAX_TOKEN_LEN errno ;;
            do '(_, fd, tmp_token, errno) <-
               get_token fd tmp_token MAX_TOKEN_LEN errno ;;
            do is_audio <- string_is_equal tmp_token AUDIO_lit ;;
            if is_audio then
              cue_loop fuel' calloc_ok fd tmp_token errno track_path ev
            else
              do '(_, fd, errno) <- find_token calloc_ok fd INDEX_lit errno ;;
              do '(_, fd, tmp_token, errno) <-
                 get_token fd tmp_token MAX_TOKEN_LEN errno ;;
              do '(_, fd, tmp_token, errno) <-
                 get_token fd tmp_token MAX_TOKEN_LEN errno ;;
              do stamp <- cstr tmp_token ;;
              let '(n, (m, s, f)) := sscanf_msf stamp in
              if n <? 3 then
                (* goto error *)
                Ret {| cue_rv := - errno; cue_offset_out := None;
                       cue_track_path := track_path; cue_errno := errno;
                       cue_events :=
                         ev ++ [Release TmpToken; Release Handle] |}
              else
                (* rv = 0; goto clean *)
                Ret {| cue_rv := 0;
                       cue_offset_out := Some (cue_offset m s f);
                       cue_track_path := track_path; cue_errno := errno;
                       cue_events :=
                         ev ++ [Release TmpToken; Release Handle] |}
          else
            cue_loop fuel' calloc_ok fd tmp_token errno track_path ev
  end.

Definition find_first_data_track (env : cue_env) : outcome cue_result :=
  (* char *tmp_token = malloc (MAX_TOKEN_LEN) *)
  let ev := [Acquire TmpToken] in
  let tmp_token := env_junk env in
  match env_init env with
  | Some e =>
      (* return -errno *)
      Ret {| cue_rv := - e; cue_offset_out := None; cue_track_path := None;
             cue_errno := e; cue_events := ev |}
  | None =>
      let ev := ev ++ [Acquire Handle] in
      match env_open env with
      | OpenFail e =>
          (* goto error *)
          Ret {| cue_rv := - e; cue_offset_out := None;
                 cue_track_path := None; cue_errno := e;
                 cue_events := ev ++ [Release TmpToken; Release Handle] |}
      | Opened fd =>
          do tmp_token <- store tmp_token 0 0 ;;
          cue_loop (S (length fd)) (env_calloc_ok env) fd tmp_token
            (env_errno env) None ev
      end
  end.

End CueSheet.

(** A resource is held at the end of a trace when it was acquired more
    often than released. *)
Definition resource_eqb (a b : resource) : bool :=
  match a, b with
  | TmpToken, TmpToken | CueDir, CueDir | Handle, Handle => true
  | _, _ => false
  end.

Fixpoint held (r : resource) (ev : list event) : Z :=
  match ev with
  | [] => 0
  | Acquire r' :: ev' => (if resource_eqb r r' then 1 else 0) + held r ev'
  | Release r' :: ev' => (if resource_eqb r r' then -1 else 0) + held r ev'
  end.

(** ** Random-access streams: the detectors' view

    The stream interface of libretro-common (streams/interface_stream.c)
    is not among the sources; its contract is the one of the
    specification: seek, tell, and a read that returns the number of
    bytes read or a negative value.  The detectors seek to an absolute
    position before every read.  The stream is a stable, re-readable
    source: what a read of [n] bytes at position [p] delivers is a
    function of [p] and [n].  The positions the code seeks to are
    recorded. *)

Inductive rd_result : Type :=
| RdFail (e : Z)            (* negative return value, errno = [e] *)
| RdData (bs : list Z).     (* the bytes available at the position *)

Record intfstream : Type := {
  st_read_at : Z -> nat -> rd_result;
  st_size : Z;
  st_pos : Z;
  st_seeks : list Z
}.

Inductive whence : Type := SEEK_SET | SEEK_CUR | SEEK_END.

(** Modelled from the spec: [intfstream_seek], the seek of the stream
    contract, absolute, relative or from the end. *)
Definition intfstream_seek (fd : intfstream) (offset : Z) (w : whence)
    : intfstream :=
  let p := match w with
           | SEEK_SET => offset
           | SEEK_CUR => st_pos fd + offset
           | SEEK_END => st_size fd + offset
           end in
  {| st_read_at := st_read_at fd; st_size := st_size fd;
     st_pos := p; st_seeks := st_seeks fd ++ [p] |}.

(** Modelled from the spec: [intfstream_tell], the position. *)
Definition intfstream_tell (fd : intfstream) : Z := st_pos fd.

(** Modelled from the spec: [intfstream_read (fd, buf, n)], a read of up
    to [n] bytes into [buf] that returns their number, or a negative value
    with errno set; a read past the end delivers fewer bytes or none.
    Result: return value, stream, [buf], errno. *)
Definition intfstream_read (fd : intfstream) (buf : list Z) (n : nat)
    (errno : Z) : outcome (Z * intfstream * list Z * Z) :=
  match st_read_at fd (st_pos fd) n with
  | RdFail e => Ret (-1, fd, buf, e)
  | RdData bs =>
      let data := take n bs in
      do buf' <- store_bytes buf data ;;
      Ret (Z.of_nat (length data),
           {| st_read_at := st_read_at fd; st_size := st_size fd;
              st_pos := st_pos fd + Z.of_nat (length data);
              st_seeks := st_seeks fd |},
           buf', errno)
  end.

(** A plain file holding [content], opened and positioned at 0. *)
Definition file_stream (content : list Z) : intfstream :=
  {| st_read_at := fun p n =>
       if p <? 0 then RdFail EINVAL
       else RdData (take n (drop (Z.to_nat p) content));
     st_size := Z.of_nat (length content);
     st_pos := 0;
     st_seeks := [] |}.

(** ** The signature matcher: detect_system *)

Record magic_entry : Type := {
  me_offset : Z;
  me_system_name : option string;     (* [None] is NULL *)
  me_magic : list Z
}.

Definition rule_ps1 : magic_entry :=
  {| me_offset := 0; me_system_name := Some "ps1"%string;
     me_magic := [0;255;255;255;255;255;255;255;255;255;255;0;0;2;0;2;0] |}.
Definition rule_pcecd : magic_entry :=
  {| me_offset := 0x838840; me_system_name := Some "pcecd"%string;
     me_magic := [0x82;0xb1;0x82;0xcc;0x83;0x76;0x83;0x8d;0x83;0x4f;0x83;
                  0x89;0x83;0x80;0x82;0xcc;0x92] |}.
Definition rule_scd : magic_entry :=
  {| me_offset := 0; me_system_name := Some "scd"%string;
     me_magic := [0;255;255;255;255;255;255;255;255;255;255;0;0;2;0;1;0x53] |}.
Definition rule_end : magic_entry :=
  {| me_offset := 0; me_system_name := None; me_magic := [] |}.

Definition MAGIC_NUMBERS : list magic_entry :=
  [rule_ps1; rule_pcecd; rule_scd; rule_end].

(** Modelled from the spec: [string_is_equal_fast] of libretro-common
    (string/stdstring.h, not among the sources): an exact byte-for-byte
    comparison of the first [n] bytes. *)
Definition string_is_equal_fast (a b : list Z) (n : nat) : outcome bool :=
  if ((n <=? length a) && (n <=? length b))%nat
  then Ret (bytes_eqb (take n a) (take n b))
  else Fault.

Definition PSP_GAME_lit : list Z := Eval vm_compute in bytes "PSP GAME".

(** The code after the [for] loop: the PSP GAME probe. *)
Definition detect_system_fallback (fd : intfstream) (magic : list Z)
    (errno : Z) : outcome (Z * option string * intfstream * Z) :=
  let fd := intfstream_seek fd 0x8008 SEEK_SET in
  do '(n, fd, magic, errno) <- intfstream_read fd magic 8 errno ;;
  if 0 <? n then
    do magic <- store magic 8 0 ;;
    do empty <- string_is_empty magic ;;
    if empty then Ret (- EINVAL, None, fd, errno)
    else
      do eq <- string_is_equal magic PSP_GAME_lit ;;
      if eq then Ret (0, Some "psp"%string, fd, errno)
      else Ret (- EINVAL, None, fd, errno)
  else Ret (- EINVAL, None, fd, errno).

(** The [for] loop over the table, from entry [i] on ([tbl] is the rest
    of the array).  Result: return value, [*system_name] when assigned,
    stream, errno. *)
Fixpoint detect_system_loop (tbl : list magic_entry) (fd : intfstream)
    (magic : list Z) (errno : Z)
    : outcome (Z * option string * intfstream * Z) :=
  match tbl with
  | [] => Fault                       (* past the end of the array *)
  | e :: tbl' =>
      match me_system_name e with
      | None => detect_system_fallback fd magic errno
      | Some name =>
          let fd := intfstream_seek fd (me_offset e) SEEK_SET in
          do '(n, fd, magic, errno) <- intfstream_read fd magic MAGIC_LEN errno ;;
          if n <? Z.of_nat MAGIC_LEN then Ret (- errno, None, fd, errno)
          else
            do eq <- string_is_equal_fast (me_magic e) magic MAGIC_LEN ;;
            if eq then Ret (0, Some name, fd, errno)
            else detect_system_loop tbl' fd magic errno
      end
  end.

(** [magic] is the initial (indeterminate) content of the local array. *)
Definition detect_system_with (tbl : list magic_entry) (fd : intfstream)
    (magic : list Z) (errno : Z) :=
  detect_system_loop tbl fd magic errno.

Definition detect_system := detect_system_with MAGIC_NUMBERS.

(** ** The serial scanners *)

Definition PSP_PREFIXES : list (list Z) := Eval vm_compute in
  map bytes
    [ "ULES-"; "ULUS-"; "ULJS-"; "ULEM-"; "ULUM-"; "ULJM-";
      "UCES-"; "UCUS-"; "UCJS-"; "UCAS-";
      "NPEH-"; "NPUH-"; "NPJH-";
      "NPEG-"; "NPUG-"; "NPJG-"; "NPHG-";
      "NPEZ-"; "NPUZ-"; "NPJZ-" ]%string.

(** The disjunction of string_is_equal tests. *)
Definition psp_prefix_test (game_id : list Z) : outcome bool :=
  do s <- cstr game_id ;; Ret (existsb (bytes_eqb s) PSP_PREFIXES).

(** The [for (pos = ...; pos < 100000; pos++)] loop with [n] iterations
    left.  Result: rv, stream, [game_id], errno. *)
Fixpoint psp_loop (n : nat) (pos : Z) (fd : intfstream) (game_id : list Z)
    (errno : Z) : outcome (bool * intfstream * list Z * Z) :=
  match n with
  | O => Ret (false, fd, game_id, errno)
  | S n' =>
      let fd := intfstream_seek fd pos SEEK_SET in
      do '(r, fd, game_id, errno) <- intfstream_read fd game_id 5 errno ;;
      if 0 <? r then
        do game_id <- store game_id 5 0 ;;
        do hit <- psp_prefix_test game_id ;;
        if hit then
          let fd := intfstream_seek fd pos SEEK_SET in
          do '(r, fd, game_id, errno) <- intfstream_read fd game_id 10 errno ;;
          if 0 <? r then
            do game_id <- store game_id 10 0 ;;
            Ret (true, fd, game_id, errno)
          else Ret (false, fd, game_id, errno)
        else psp_loop n' (pos + 1) fd game_id errno
      else Ret (false, fd, game_id, errno)
  end.

Definition detect_psp_game (fd : intfstream) (game_id : list Z) (errno : Z) :=
  psp_loop (Z.to_nat 100000) 0 fd game_id errno.

(** The test on one character: A-Z, 0-9, - *)
Definition serial_char (c : Z) : bool :=
  (c =? 45) || ((48 <=? c) && (c <=? 57)) || ((65 <=? c) && (c <=? 90)).

(** The inner [for (i = ...; i < 15; i++)] loop with [n] iterations left;
    returns numberOfAscii. *)
Fixpoint count_ascii (n : nat) (i : nat) (game_id : list Z)
    (numberOfAscii : nat) : outcome nat :=
  match n with
  | O => Ret numberOfAscii
  | S n' =>
      do c <- load game_id i ;;
      if serial_char c then count_ascii n' (S i) game_id (S numberOfAscii)
      else Ret numberOfAscii
  end.

(** One iteration of the outer loop; the flag tells whether it ends in
    the [break] with a serial found. *)
Definition serial_probe (pos : Z) (fd : intfstream) (game_id : list Z)
    (errno : Z) : outcome (bool * intfstream * list Z * Z) :=
  let fd := intfstream_seek fd pos SEEK_SET in
  do '(r, fd, game_id, errno) <- intfstream_read fd game_id 15 errno ;;
  if 0 <? r then
    do game_id <- store game_id 15 0 ;;
    do numberOfAscii <- count_ascii 15 0 game_id 0 ;;
    if ((3 <? numberOfAscii) && (numberOfAscii <? 9))%nat then
      do game_id <- store game_id numberOfAscii 0 ;;
      Ret (true, fd, game_id, errno)
    else Ret (false, fd, game_id, errno)
  else Ret (false, fd, game_id, errno).

Fixpoint serial_loop (n : nat) (pos : Z) (fd : intfstream) (game_id : list Z)
    (errno : Z) : outcome (bool * intfstream * list Z * Z) :=
  match n with
  | O => Ret (false, fd, game_id, errno)
  | S n' =>
      do '(found, fd, game_id, errno) <- serial_probe pos fd game_id errno ;;
      if found then Ret (true, fd, game_id, errno)
      else serial_loop n' (pos + 1) fd game_id errno
  end.

Definition detect_serial_ascii_game (fd : intfstream) (game_id : list Z)
    (errno : Z) :=
  serial_loop (Z.to_nat 10000) 0 fd game_id errno.

(** ** The ISO9660 boot-record resolver: detect_ps1_game_sub *)

(** <strings.h> [strncasecmp] of the object [a] against a literal. *)
Fixpoint strncasecmp (a lit : list Z) (n : nat) {struct n} : outcome Z :=
  match n with
  | O => Ret 0
  | S n' =>
      match a with
      | [] => Fault
      | c1 :: a' =>
          let d := tolower c1 - tolower (hd 0 lit) in
          if negb (d =? 0) then Ret d
          else if c1 =? 0 then Ret 0
          else strncasecmp a' (tl lit) n'
      end
  end.

Definition SYSTEM_CNF_lit : list Z := Eval vm_compute in bytes "SYSTEM.CNF;1".
Definition boot_lit : list Z := Eval vm_compute in bytes "boot".

(** The object representation of MODETEST_VAL: 0xffffff00 stored
    little-endian, 0x00ffffff stored big-endian. *)
Definition MODETEST_VAL : list Z := [0; 255; 255; 255].

(** [b2 | (b3 << 8) | (b4 << 16)] *)
Definition cd_sector_of (b2 b3 b4 : Z) : Z :=
  Z.lor (Z.lor b2 (Z.shiftl b3 8)) (Z.shiftl b4 16).

(** The 24-bit number at [buffer + tmp + 2]. *)
Definition read_cd_sector (buffer : list Z) (tmp : nat) : outcome Z :=
  do b2 <- load buffer (tmp + 2) ;;
  do b3 <- load buffer (tmp + 3) ;;
  do b4 <- load buffer (tmp + 4) ;;
  Ret (cd_sector_of b2 b3 b4).

(** is_mode1, decided from the stream length and the probe at 0. *)
Definition probe_mode1 (fp : intfstream) (sub_channel_mixed : bool)
    (errno : Z) : outcome (bool * intfstream * Z) :=
  let fp := intfstream_seek fp 0 SEEK_END in
  if sub_channel_mixed then Ret (false, fp, errno)
  else if Z.land (intfstream_tell fp) 0x7FF =? 0 then
    let fp := intfstream_seek fp 0 SEEK_SET in
    do '(_, fp, mode_test, errno) <- intfstream_read fp [0; 0; 0; 0] 4 errno ;;
    Ret (negb (bytes_eqb mode_test MODETEST_VAL), fp, errno)
  else Ret (false, fp, errno).

Definition skip_of (is_mode1 : bool) : Z := if is_mode1 then 0 else 24.
Definition frame_size_of (sub_channel_mixed is_mode1 : bool) : Z :=
  if sub_channel_mixed then 2448 else if is_mode1 then 2048 else 2352.

Definition WINDOW : nat := 4096.

(** The walk over the directory records.  [None] is [goto error]; [Some tmp]
    is the cursor when the loop is left. *)
Fixpoint dir_scan (fuel : nat) (buffer : list Z) (tmp : nat)
    : outcome (option nat) :=
  match fuel with
  | O => OutOfFuel
  | S fuel' =>
      if (tmp <? WINDOW)%nat then
        do len <- load buffer tmp ;;
        if len =? 0 then Ret None
        else
          do d <- strncasecmp (drop (tmp + 33) buffer) SYSTEM_CNF_lit 12 ;;
          if d =? 0 then Ret (Some tmp)
          else dir_scan fuel' buffer (tmp + Z.to_nat len)
      else Ret (Some tmp)
  end.

(** The [while] loop that advances [tmp] to the NUL or to the first
    place where [strncasecmp (tmp, boot, 4)] is 0; a cursor into the
    buffer is the part of the buffer from it on. *)
Fixpoint find_boot (tmp : list Z) : outcome (list Z) :=
  match tmp with
  | [] => Fault
  | c :: r =>
      if c =? 0 then Ret tmp
      else
        do d <- strncasecmp tmp boot_lit 4 ;;
        if d =? 0 then Ret tmp else find_boot r
  end.

(** The loop to the end of the line, keeping the position after the last
    backslash or colon. *)
Fixpoint scan_line (tmp boot_file : list Z) : outcome (list Z) :=
  match tmp with
  | [] => Fault
  | c :: r =>
      if (c =? 0) || (c =? 10) then Ret boot_file
      else scan_line r (if (c =? 92) || (c =? 58) then r else boot_file)
  end.

(** The store of [toupper] of the next character through [game_id++],
    [k] times. *)
Fixpoint copy_upper (k : nat) (tmp game_id : list Z) (g : nat)
    : outcome (list Z * list Z * nat) :=
  match k with
  | O => Ret (tmp, game_id, g)
  | S k' =>
      match tmp with
      | [] => Fault
      | c :: r =>
          do game_id <- store game_id g (toupper c) ;;
          copy_upper k' r game_id (S g)
      end
  end.

(** The [while] loop over the alphanumeric characters. *)
Fixpoint copy_alnum (tmp game_id : list Z) (g : nat)
    : outcome (list Z * nat) :=
  match tmp with
  | [] => Fault
  | c :: r =>
      if isalnum c then
        do game_id <- store game_id g c ;;
        match r with
        | [] => Fault
        | c' :: r' =>
            if c' =? 46 then copy_alnum r' game_id (S g)
            else copy_alnum r game_id (S g)
        end
      else Ret (game_id, g)
  end.

(** From [boot_file] to the identifier. *)
Definition build_game_id (boot_file game_id : list Z) : outcome (list Z) :=
  do '(tmp, game_id, g) <- copy_upper 4 boot_file game_id 0 ;;
  do game_id <- store game_id g 45 ;;
  do c <- load tmp 0 ;;
  let tmp := if isalnum c then tmp else drop 1 tmp in
  do '(game_id, g) <- copy_alnum tmp game_id (S g) ;;
  store game_id g 0.

(** [buffer] is the initial (indeterminate) content of the local array of
    2048 * 2 bytes.  Result: return value, stream, [game_id], errno. *)
Definition detect_ps1_game_sub (fp : intfstream) (game_id : list Z)
    (sub_channel_mixed : bool) (buffer : list Z) (errno : Z)
    : outcome (Z * intfstream * list Z * Z) :=
  do buffer <- store buffer 0 0 ;;
  do '(is_mode1, fp, errno) <- probe_mode1 fp sub_channel_mixed errno ;;
  let skip := skip_of is_mode1 in
  let frame_size := frame_size_of sub_channel_mixed is_mode1 in
  let fp := intfstream_seek fp (156 + skip + 16 * frame_size) SEEK_SET in
  do '(_, fp, buffer, errno) <- intfstream_read fp buffer 6 errno ;;
  do cd_sector <- read_cd_sector buffer 0 ;;
  let fp := intfstream_seek fp (wrap32 (skip + wrap32 (cd_sector * frame_size)))
              SEEK_SET in
  do '(_, fp, buffer, errno) <- intfstream_read fp buffer WINDOW errno ;;
  do found <- dir_scan (S WINDOW) buffer 0 ;;
  match found with
  | None => Ret (0, fp, game_id, errno)
  | Some tmp =>
      if (WINDOW <=? tmp)%nat then Ret (0, fp, game_id, errno)
      else
        do cd_sector <- read_cd_sector buffer tmp ;;
        let fp := intfstream_seek fp
                    (wrap32 (skip + wrap32 (cd_sector * frame_size)))
                    SEEK_SET in
        do '(_, fp, buffer, errno) <- intfstream_read fp buffer 256 errno ;;
        do buffer <- store buffer 256 0 ;;
        do tmp <- find_boot buffer ;;
        do c <- load tmp 0 ;;
        if c =? 0 then Ret (0, fp, game_id, errno)
        else
          do boot_file <- scan_line tmp tmp ;;
          do game_id <- build_game_id boot_file game_id ;;
          Ret (1, fp, game_id, errno)
  end.

Definition detect_ps1_game (fd : intfstream) (game_id : list Z)
    (buffer1 buffer2 : list Z) (errno : Z)
    : outcome (Z * intfstream * list Z * Z) :=
  do '(rv, fd, game_id, errno) <-
     detect_ps1_game_sub fd game_id false buffer1 errno ;;
  if negb (rv =? 0) then Ret (1, fd, game_id, errno)
  else detect_ps1_game_sub fd game_id true buffer2 errno.

(** ** Cue sheets, to state what the locator does on them *)

(** A token of a cue sheet as it stands in the text: white space, the
    token, the white-space byte that ends it. *)
Record word : Type := {
  lead : list Z;
  body : list Z;
  delim : Z
}.

Definition render1 (t : word) : list Z := lead t ++ body t ++ [delim t].

Fixpoint render (ts : list word) : list Z :=
  match ts with
  | [] => []
  | t :: ts' => render1 t ++ render ts'
  end.

Record wf_word (t : word) : Prop := {
  wf_lead : Forall (fun c => is_ws c = true) (lead t);
  wf_body_ne : body t <> [];
  wf_body_plain : Forall plain (body t);
  wf_body_nz : Forall (fun c => c <> 0) (body t);
  wf_body_len : (length (body t) < MAX_TOKEN_LEN)%nat;
  wf_delim : is_ws (delim t) = true
}.

(** A token the main loop of the locator passes over. *)
Definition passed_over (t : word) : Prop :=
  wf_word t /\ body t <> FILE_lit /\ body t <> TRACK_lit.

Definition two_digits (n : Z) : list Z := [48 + n / 10; 48 + n mod 10].

(** The text MM:SS:FF. *)
Definition msf_text (m s f : Z) : list Z :=
  two_digits m ++ 58 :: two_digits s ++ 58 :: two_digits f.

(** A cue sheet with a FILE entry, an AUDIO track and a track of another
    type with its INDEX line:
<<
    FILE "name" ...  TRACK nn AUDIO ...  TRACK nn type INDEX nn stamp ...
>>
*)
Record cue_sheet : Type := {
  cs_file : word;                 (* FILE *)
  cs_name_lead : list Z;
  cs_name_first : Z;              (* the quoted file name: first byte, *)
  cs_name_rest : list Z;          (* the other bytes *)
  cs_after_file : list word;      (* the file type, ... *)
  cs_track1 : word;               (* TRACK *)
  cs_track1_no : word;
  cs_track1_type : word;          (* AUDIO *)
  cs_after_audio : list word;     (* INDEX 01 00:00:00, ... *)
  cs_track2 : word;               (* TRACK *)
  cs_track2_no : word;
  cs_track2_type : word;          (* MODE2/2352, ... *)
  cs_index_lead : list Z;         (* INDEX follows the track type *)
  cs_index_no : word;
  cs_stamp : word;
  cs_trailer : list Z
}.

Definition cs_name (cs : cue_sheet) : list Z :=
  cs_name_first cs :: cs_name_rest cs.

Definition data_track_text (cs : cue_sheet) : list Z :=
  render [cs_track2 cs; cs_track2_no cs; cs_track2_type cs]
  ++ cs_index_lead cs ++ INDEX_lit
  ++ render [cs_index_no cs; cs_stamp cs] ++ cs_trailer cs.

Definition cue_text (cs : cue_sheet) : list Z :=
  render1 (cs_file cs)
  ++ (cs_name_lead cs ++ 34 :: cs_name cs ++ [34])
  ++ render (cs_after_file cs)
  ++ render [cs_track1 cs; cs_track1_no cs; cs_track1_type cs]
  ++ render (cs_after_audio cs)
  ++ data_track_text cs.

Record wf_data_track (cs : cue_sheet) : Prop := {
  wf_track2 : wf_word (cs_track2 cs);
  wf_track2_kw : body (cs_track2 cs) = TRACK_lit;
  wf_track2_no : wf_word (cs_track2_no cs);
  wf_track2_type : wf_word (cs_track2_type cs);
  wf_track2_data : body (cs_track2_type cs) <> AUDIO_lit;
  wf_index_lead : Forall (fun c => is_ws c = true) (cs_index_lead cs);
  wf_index_no : wf_word (cs_index_no cs);
  wf_stamp : wf_word (cs_stamp cs)
}.

Record wf_cue_sheet (cs : cue_sheet) : Prop := {
  wf_file : wf_word (cs_file cs);
  wf_file_kw : body (cs_file cs) = FILE_lit;
  wf_name_lead : Forall (fun c => is_ws c = true) (cs_name_lead cs);
  wf_name_first : plain (cs_name_first cs);
  wf_name_rest : Forall (fun c => c <> 34) (cs_name_rest cs);
  wf_name_nz : Forall (fun c => c <> 0) (cs_name cs);
  wf_name_len : (length (cs_name cs) < MAX_TOKEN_LEN)%nat;
  wf_after_file : Forall passed_over (cs_after_file cs);
  wf_track1 : wf_word (cs_track1 cs);
  wf_track1_kw : body (cs_track1 cs) = TRACK_lit;
  wf_track1_no : wf_word (cs_track1_no cs);
  wf_track1_type : wf_word (cs_track1_type cs);
  wf_track1_audio : body (cs_track1_type cs) = AUDIO_lit;
  wf_after_audio : Forall passed_over (cs_after_audio cs);
  wf_data : wf_data_track cs
}.

(** The outcome of the locator at the first track that is not AUDIO. *)
Definition data_track_result (stamp : list Z) (e : Z) (tp : option (list Z))
    (ev : list event) : cue_result :=
  let '(n, (m, s, f)) := sscanf_msf stamp in
  {| cue_rv := if n <? 3 then - e else 0;
     cue_offset_out := if n <? 3 then None else Some (cue_offset m s f);
     cue_track_path := tp; cue_errno := e;
     cue_events := ev ++ [Release TmpToken; Release Handle] |}.

(** ** A concrete cue sheet *)

Definition mk_word (l : list Z) (b : string) (d : Z) : word :=
  {| lead := l; body := bytes b; delim := d |}.

(** The text
<<
FILE "game.bin" BINARY
  TRACK 01 AUDIO
    INDEX 01 00:00:00
  TRACK 02 MODE2/2352
    INDEX 01 <stamp>
>>
*)
Definition example_cue (stamp : string) : cue_sheet :=
  {| cs_file := mk_word [] "FILE" 32;
     cs_name_lead := [];
     cs_name_first := 103;
     cs_name_rest := bytes "ame.bin";
     cs_after_file := [mk_word [32] "BINARY" 10];
     cs_track1 := mk_word [32; 32] "TRACK" 32;
     cs_track1_no := mk_word [] "01" 32;
     cs_track1_type := mk_word [] "AUDIO" 10;
     cs_after_audio :=
       [mk_word [32; 32; 32; 32] "INDEX" 32; mk_word [] "01" 32;
        mk_word [] "00:00:00" 10];
     cs_track2 := mk_word [32; 32] "TRACK" 32;
     cs_track2_no := mk_word [] "02" 32;
     cs_track2_type := mk_word [] "MODE2/2352" 10;
     cs_index_lead := [32; 32; 32; 32];
     cs_index_no := mk_word [32] "01" 32;
     cs_stamp := mk_word [] stamp 10;
     cs_trailer := [] |}.

Definition example_env (text : list Z) (errno : Z) : cue_env :=
  {| env_init := None; env_open := Opened (of_bytes text);
     env_junk := replicate MAX_TOKEN_LEN 0; env_calloc_ok := true;
     env_errno := errno |}.

(** Stand-ins for the path helpers. *)
Definition example_basedir (path : list Z) (size : nat) : list Z :=
  take size (bytes "roms/").
Definition example_join (dir path : list Z) (size : nat) : list Z :=
  take size (dir ++ path).

(** ** Notions used to state what the detectors do *)

(** The pattern of the rule is what the stream delivers at its offset. *)
Definition rule_matches (fd : intfstream) (e : magic_entry) : Prop :=
  me_system_name e <> None /\
  exists bs, st_read_at fd (me_offset e) MAGIC_LEN = RdData bs /\
             take MAGIC_LEN bs = me_magic e.

(** A rule proper: it has a name and a pattern of MAGIC_LEN bytes. *)
Definition named (e : magic_entry) : Prop :=
  me_system_name e <> None /\ length (me_magic e) = MAGIC_LEN.

(** Two sparse images for the signature matcher: one that carries the
    patterns of ps1 and of pcecd, one that is blank. *)
Definition example_both_stream : intfstream :=
  {| st_read_at := fun p n =>
       if p =? 0 then RdData (take n (me_magic rule_ps1))
       else if p =? 0x838840 then RdData (take n (me_magic rule_pcecd))
       else RdData [];
     st_size := 0x838851; st_pos := 0; st_seeks := [] |}.

Definition example_blank_stream : intfstream :=
  {| st_read_at := fun p n => RdData (replicate n 0);
     st_size := 0x838851; st_pos := 0; st_seeks := [] |}.

(** The bytes of the file from offset [p] on. *)
Definition bytes_at (content : list Z) (p : Z) : list Z :=
  drop (Z.to_nat p) content.

(** A listed publisher prefix stands at offset [p]. *)
Definition psp_prefix_at (content : list Z) (p : Z) : Prop :=
  take 5 (bytes_at content p) ∈ PSP_PREFIXES.

(** The outcome of a read of [n] bytes at [pos] is not positive. *)
Definition read_gives_nothing (fd : intfstream) (pos : Z) (n : nat) : Prop :=
  (exists e, st_read_at fd pos n = RdFail e) \/
  (exists bs, st_read_at fd pos n = RdData bs /\ take n bs = []).


(** The length of the maximal leading run of serial characters. *)
Fixpoint serial_run (l : list Z) : nat :=
  match l with
  | c :: r => if serial_char c then S (serial_run r) else O
  | [] => O
  end.

(** At offset [p] the file has a run of more than 3 and fewer than 9
    serial characters. *)
Definition serial_at (content : list Z) (p : Z) : Prop :=
  (3 < serial_run (bytes_at content p) < 9)%nat.

(** The serial at offset [p]. *)
Definition serial_of (content : list Z) (p : Z) : list Z :=
  take (serial_run (bytes_at content p)) (bytes_at content p).

Definition scan_rv (o : outcome (bool * intfstream * list Z * Z))
    : option bool :=
  match o with
  | Ret (rv, _, _, _) => Some rv
  | _ => None
  end.

(** ** Notions used to state what the boot-record resolver does *)

(** The mode the resolver decides on: Mode 1 when the stream length is a
    multiple of 2048 and its first four bytes are not 00 FF FF FF. *)
Definition is_mode1_of (fp : intfstream) (sub_channel_mixed : bool) : bool :=
  if sub_channel_mixed then false
  else if Z.land (st_size fp) 0x7FF =? 0 then
    match st_read_at fp 0 4 with
    | RdFail _ => true
    | RdData bs =>
        negb (bytes_eqb (take 4 bs ++ drop (length (take 4 bs)) [0; 0; 0; 0])
                MODETEST_VAL)
    end
  else false.

(** Where sector [sector] starts in the stream. *)
Definition sector_offset (fp : intfstream) (sub_channel_mixed : bool)
    (sector : Z) : Z :=
  let is_mode1 := is_mode1_of fp sub_channel_mixed in
  wrap32 (skip_of is_mode1
          + wrap32 (sector * frame_size_of sub_channel_mixed is_mode1)).

(** Where the root directory record of the volume descriptor starts. *)
Definition root_record_offset (fp : intfstream) (sub_channel_mixed : bool)
    : Z :=
  let is_mode1 := is_mode1_of fp sub_channel_mixed in
  156 + skip_of is_mode1 + 16 * frame_size_of sub_channel_mixed is_mode1.

(** The 12 bytes of the name field of the record at [tmp]. *)
Definition name_field (W : list Z) (tmp : nat) : list Z :=
  take 12 (drop (tmp + 33) W).

Definition names_system_cnf (W : list Z) (tmp : nat) : Prop :=
  map tolower (name_field W tmp) = map tolower SYSTEM_CNF_lit.

(** From the record at [tmp], the records of the window [W] lead to the
    record at [off], which is the first one named SYSTEM.CNF;1. *)
Inductive dir_walk (W : list Z) : nat -> nat -> Prop :=
| dir_walk_found (tmp : nat) (len : Z) :
    W !! tmp = Some len -> len <> 0 ->
    names_system_cnf W tmp ->
    dir_walk W tmp tmp
| dir_walk_next (tmp : nat) (len : Z) (off : nat) :
    W !! tmp = Some len -> 0 < len ->
    length (name_field W tmp) = 12%nat ->
    ~ names_system_cnf W tmp ->
    dir_walk W (tmp + Z.to_nat len) off ->
    dir_walk W tmp off.

(** The sector number stored in the record at [tmp]. *)
Definition record_sector (W : list Z) (tmp : nat) : Z :=
  cd_sector_of (nth (tmp + 2) W 0) (nth (tmp + 3) W 0) (nth (tmp + 4) W 0).

(** The text starts with boot, in any case. *)
Definition boot_at (l : list Z) : Prop :=
  map tolower (take 4 l) = boot_lit.

(** No backslash and no colon before the end of the line. *)
Fixpoint no_sep_before_eol (l : list Z) : bool :=
  match l with
  | [] => true
  | c :: r =>
      if (c =? 0) || (c =? 10) then true
      else if (c =? 92) || (c =? 58) then false
      else no_sep_before_eol r
  end.

Definition boot_path_lit : list Z :=
  Eval vm_compute in bytes "cdrom:\SLES_123.45;1".
Definition name_lit : list Z := Eval vm_compute in bytes "SLES_123.45;1".
Definition SLES_id_lit : list Z := Eval vm_compute in bytes "SLES-12345".

(** The contents of SYSTEM.CNF: some text without boot, then a line that
    starts with boot and names cdrom:\SLES_123.45;1. *)
Record boot_line_in (cnf pre kw mid tail : list Z) : Prop := {
  bl_split : cnf = pre ++ kw ++ mid ++ boot_path_lit ++ tail;
  bl_pre_nz : Forall (fun c => c <> 0) pre;
  bl_pre_no_boot :
    forall i : nat, (i < length pre)%nat -> ~ boot_at (drop i cnf);
  bl_kw : map tolower kw = boot_lit;
  bl_mid : Forall (fun c => c <> 0 /\ c <> 10) mid;
  bl_tail : no_sep_before_eol tail = true
}.

(** A stream for the serial scanner: ten characters and then bytes that
    are not serial characters, 10020 bytes in all. *)
Definition example_serial_image : list Z :=
  bytes "AB-1234XYZ" ++ replicate (Z.to_nat 10010) 200.

(** ** A synthetic ISO9660 image in 2048-byte sectors *)

Definition sector (l : list Z) : list Z :=
  l ++ replicate (2048 - length l) 0.

(** A directory record: length, extent (little-endian in bytes 2..5), and
    the name from byte 33 on. *)
Definition dir_record (lba : Z) (name : list Z) : list Z :=
  [33 + Z.of_nat (length name); 0; lba; 0; 0; 0]
  ++ replicate 26 0 ++ [Z.of_nat (length name)] ++ name.

Definition example_root_dir : list Z :=
  dir_record 18 [0] ++ dir_record 18 [1] ++ dir_record 20 SYSTEM_CNF_lit.

Definition example_cnf_text : list Z :=
  bytes "BOOT = cdrom:\SLES_123.45;1" ++ [13; 10]
  ++ bytes "TCB = 4" ++ [13; 10].

(** Sectors 0..15 are blank, sector 16 is the volume descriptor with the
    root directory record at byte 156, the root directory is in sector
    18, SYSTEM.CNF in sector 20. *)
Definition example_iso : list Z :=
  replicate (Z.to_nat (16 * 2048)) 0
  ++ sector (replicate 156 0 ++ dir_record 18 [0])
  ++ sector []
  ++ sector example_root_dir
  ++ sector []
  ++ sector example_cnf_text.

(** ** Notions used to state what the tokenizer and the token scanner do
    on a stream *)

(** A read that fails with EINTR or EAGAIN: get_token calls again. *)
Definition transient (r : read1) : bool :=
  match r with
  | RFail e => (Z.pos e =? EINTR) || (Z.pos e =? EAGAIN)
  | RByte _ => false
  end.

(** The stream without its interrupted reads. *)
Fixpoint without_transient (fd : list read1) : list read1 :=
  match fd with
  | [] => []
  | r :: fd' =>
      if transient r then without_transient fd'
      else r :: without_transient fd'
  end.

(** What a call of get_token gives apart from errno, the stream taken
    without its interrupted reads. *)
Definition token_view (o : outcome (Z * list read1 * list Z * Z))
    : outcome (Z * list read1 * list Z) :=
  match o with
  | Ret (rv, fd, token, _) => Ret (rv, without_transient fd, token)
  | Fault => Fault
  | OutOfFuel => OutOfFuel
  end.

(** The strings a caller gets that calls get_token while the call returns
    a positive value, as the main loop of find_first_data_track does. *)
Fixpoint token_seq_loop (fuel : nat) (fd : list read1) (token : list Z)
    (max_len : nat) (errno : Z) : outcome (list (list Z)) :=
  match fuel with
  | O => OutOfFuel
  | S fuel' =>
      do '(rv, fd, token, errno) <- get_token fd token max_len errno ;;
      if rv <=? 0 then Ret []
      else
        do s <- cstr token ;;
        do ss <- token_seq_loop fuel' fd token max_len errno ;;
        Ret (s :: ss)
  end.

Definition token_seq (fd : list read1) (token : list Z) (max_len : nat)
    (errno : Z) : outcome (list (list Z)) :=
  token_seq_loop (S (length fd)) fd token max_len errno.

(** The pieces of [n] bytes a word is cut into by calls of get_token with
    capacity [n]; the last piece can be shorter. *)
Fixpoint chunks (fuel n : nat) (l : list Z) : list (list Z) :=
  match fuel with
  | O => []
  | S fuel' =>
      match l with
      | [] => []
      | _ :: _ => take n l :: chunks fuel' n (drop n l)
      end
  end.

Definition cut_tokens (n : nat) (l : list Z) : list (list Z) :=
  chunks (length l) n l.

(** ** Cue sheets as sequences of entries *)

(** What the main loop of the locator passes in one turn: a token that is
    neither FILE nor TRACK, a FILE entry with its quoted name, or a track
    of type AUDIO. *)
Inductive cue_item : Type :=
| OtherWord (t : word)
| FileEntry (kw : word) (name_lead : list Z) (name_first : Z)
    (name_rest : list Z)
| AudioTrack (kw no type : word).

Definition item_text (i : cue_item) : list Z :=
  match i with
  | OtherWord t => render1 t
  | FileEntry kw sp c q => render1 kw ++ (sp ++ 34 :: (c :: q) ++ [34])
  | AudioTrack t tn ta => render [t; tn; ta]
  end.

Fixpoint items_text (l : list cue_item) : list Z :=
  match l with
  | [] => []
  | i :: l' => item_text i ++ items_text l'
  end.

Definition wf_item (i : cue_item) : Prop :=
  match i with
  | OtherWord t => passed_over t
  | FileEntry kw sp c q =>
      wf_word kw /\ body kw = FILE_lit /\
      Forall (fun x => is_ws x = true) sp /\
      plain c /\
      Forall (fun x => x <> 34) q /\
      Forall (fun x => x <> 0) (c :: q) /\
      (length (c :: q) < MAX_TOKEN_LEN)%nat
  | AudioTrack t tn ta =>
      wf_word t /\ body t = TRACK_lit /\ wf_word tn /\
      wf_word ta /\ body ta = AUDIO_lit
  end.

(** The name of the last FILE entry, if there is one. *)
Fixpoint last_file (l : list cue_item) : option (list Z) :=
  match l with
  | [] => None
  | i :: l' =>
      match last_file l' with
      | Some name => Some name
      | None =>
          match i with
          | FileEntry _ _ c q => Some (c :: q)
          | _ => None
          end
      end
  end.

(** The cue_dir blocks of the FILE entries: each is allocated and freed. *)
Fixpoint file_events (l : list cue_item) : list event :=
  match l with
  | [] => []
  | FileEntry _ _ _ _ :: l' =>
      Acquire CueDir :: Release CueDir :: file_events l'
  | _ :: l' => file_events l'
  end.

(** A cue sheet with two FILE entries and an audio track before its data
    track:
<<
FILE "intro.wav" WAVE
  TRACK 01 AUDIO
    INDEX 01 00:00:00
FILE "game.bin" BINARY
>>
*)
Definition example_items : list cue_item :=
  [ FileEntry (mk_word [] "FILE" 32) [] 105 (bytes "ntro.wav");
    OtherWord (mk_word [32] "WAVE" 10);
    AudioTrack (mk_word [32; 32] "TRACK" 32) (mk_word [] "01" 32)
      (mk_word [] "AUDIO" 10);
    OtherWord (mk_word [32; 32; 32; 32] "INDEX" 32);
    OtherWord (mk_word [] "01" 32);
    OtherWord (mk_word [] "00:00:00" 10);
    FileEntry (mk_word [] "FILE" 32) [] 103 (bytes "ame.bin");
    OtherWord (mk_word [32] "BINARY" 10) ].

(** ** More streams for the signature matcher *)

(** A sparse image that carries the pattern of pcecd and is blank
    elsewhere. *)
Definition example_pcecd_stream : intfstream :=
  {| st_read_at := fun p n =>
       if p =? 0x838840 then RdData (take n (me_magic rule_pcecd))
       else RdData (replicate n 0);
     st_size := 0x838851; st_pos := 0; st_seeks := [] |}.

(** A sparse image that is blank at the offsets of the table and carries
    PSP GAME at 0x8008. *)
Definition example_psp_stream : intfstream :=
  {| st_read_at := fun p n =>
       if p =? 0x8008 then RdData (take n PSP_GAME_lit)
       else RdData (replicate n 0);
     st_size := 0x838851; st_pos := 0; st_seeks := [] |}.

(** ** More notions for the boot-record resolver *)

(** Every read of the stream fails, delivers nothing, or delivers NUL
    bytes: an empty or unreadable stream, a blank image. *)
Definition blank_stream (fp : intfstream) : Prop :=
  forall (p : Z) (n : nat),
    match st_read_at fp p n with
    | RdFail _ => True
    | RdData bs => Forall (fun c => c = 0) bs
    end.

(** From the record at [tmp], records of the window [W] that are not
    named SYSTEM.CNF;1 lead to the offset [off]. *)
Inductive dir_chain (W : list Z) : nat -> nat -> Prop :=
| dir_chain_here (tmp : nat) : dir_chain W tmp tmp
| dir_chain_next (tmp : nat) (len : Z) (off : nat) :
    W !! tmp = Some len -> 0 < len ->
    length (name_field W tmp) = 12%nat ->
    ~ names_system_cnf W tmp ->
    dir_chain W (tmp + Z.to_nat len) off ->
    dir_chain W tmp off.

(** ** More synthetic images in 2048-byte sectors *)

(** An image laid out as [example_iso], with the two sectors [dir] as the
    window of the root directory. *)
Definition image_with_root_dir (dir : list Z) : list Z :=
  replicate (Z.to_nat (16 * 2048)) 0
  ++ sector (replicate 156 0 ++ dir_record 18 [0])
  ++ sector []
  ++ take 4096 (dir ++ replicate 4096 0).

(** A root directory with the entries of the directory itself and of its
    parent only. *)
Definition example_bare_dir : list Z :=
  dir_record 18 [0] ++ dir_record 18 [1].

(** A root directory filled with records of 255 bytes: the seventeenth
    begins 16 bytes before the end of the window. *)
Definition example_long_dir : list Z :=
  concat (replicate 17 (255 :: replicate 254 65)).

(** ** Boot lines and serials in general *)

(** The stores of the bytes [x] through [game_id++], the first one at
    index [g]. *)
Definition write_at (game_id : list Z) (g : nat) (x : list Z)
    : outcome (list Z) :=
  if (g + length x <=? length game_id)%nat
  then Ret (take g game_id ++ x ++ drop (g + length x) game_id)
  else Fault.

(** A boot file name of the shape of a PlayStation serial, as it stands
    in the text: four characters, one character that is not
    alphanumeric, alphanumeric characters, a dot, more alphanumeric
    characters, and a character that is neither alphanumeric nor a dot
    (the semicolon of the version, say). *)
Record serial_name (file l4 : list Z) (s : Z) (d1 d2 : list Z) (e : Z)
    (t : list Z) : Prop := {
  sn_split : file = l4 ++ s :: d1 ++ 46 :: d2 ++ e :: t;
  sn_l4 : length l4 = 4%nat;
  sn_sep : isalnum s = false;
  sn_d1 : Forall (fun c => isalnum c = true) d1;
  sn_d1_ne : d1 <> [];
  sn_d2 : Forall (fun c => isalnum c = true) d2;
  sn_end : isalnum e = false;
  sn_end_dot : e <> 46
}.

(** The identifier made of such a name. *)
Definition serial_id (l4 d1 d2 : list Z) : list Z :=
  map toupper l4 ++ 45 :: d1 ++ d2.

(** The contents of SYSTEM.CNF: some text without boot, then a line that
    starts with boot and in which a backslash or a colon comes right
    before the file name [file], which runs to the end of the line
    without another one. *)
Record boot_line (cnf pre kw mid : list Z) (sep : Z) (file : list Z)
    : Prop := {
  bo_split : cnf = pre ++ kw ++ mid ++ sep :: file;
  bo_pre_nz : Forall (fun c => c <> 0) pre;
  bo_pre_no_boot :
    forall i : nat, (i < length pre)%nat -> ~ boot_at (drop i cnf);
  bo_kw : map tolower kw = boot_lit;
  bo_mid : Forall (fun c => c <> 0 /\ c <> 10) mid;
  bo_sep : sep = 92 \/ sep = 58;
  bo_file : no_sep_before_eol file = true
}.

(** The contents of SYSTEM.CNF of a disc whose boot line is a BOOT2 line
    with a device number. *)
Definition example_boot2_text : list Z :=
  bytes "BOOT2 = cdrom0:\SLUS_200.62;1" ++ [13; 10]
  ++ bytes "VER = 1.00" ++ [13; 10].

(** [example_iso] with this SYSTEM.CNF. *)
Definition example_boot2_iso : list Z :=
  replicate (Z.to_nat (16 * 2048)) 0
  ++ sector (replicate 156 0 ++ dir_record 18 [0])
  ++ sector []
  ++ sector example_root_dir
  ++ sector []
  ++ sector example_boot2_text.

(** A sector of 2448 bytes: 24 bytes before the 2048 bytes of data,
    error correction and sub-channel data after them. *)
Definition frame (l : list Z) : list Z :=
  replicate 24 0 ++ sector l ++ replicate 376 0.

(** The files of [example_boot2_iso] in sectors of 2448 bytes. *)
Definition example_subchannel_image : list Z :=
  concat (replicate 16 (frame []))
  ++ frame (replicate 156 0 ++ dir_record 18 [0])
  ++ frame []
  ++ frame example_root_dir
  ++ frame []
  ++ frame example_boot2_text.
(** ** More notions for the scanners and the resolver *)



(** What the resolver returned: the return value and [game_id]. *)
Definition resolver_view (o : outcome (Z * intfstream * list Z * Z))
    : option (Z * list Z) :=
  match o with
  | Ret (rv, _, game_id, _) => Some (rv, game_id)
  | _ => None
  end.

(** What the token scanner returned: the return value. *)
Definition find_token_rv (o : outcome (Z * list read1 * Z)) : outcome Z :=
  match o with
  | Ret (rv, _, _) => Ret rv
  | Fault => Fault
  | OutOfFuel => OutOfFuel
  end.

(** The contents of SYSTEM.CNF with the letters boot in an earlier line:
    the boot line of [example_cnf_text] is its second line. *)
Definition example_reboot_text : list Z :=
  bytes "REBOOT = 1" ++ [13; 10] ++ example_cnf_text.

(** [example_iso] with this SYSTEM.CNF. *)
Definition example_reboot_iso : list Z :=
  replicate (Z.to_nat (16 * 2048)) 0
  ++ sector (replicate 156 0 ++ dir_record 18 [0])
  ++ sector []
  ++ sector example_root_dir
  ++ sector []
  ++ sector example_reboot_text.

(** A root directory of two sectors: the first holds the entries of the
    directory itself and of its parent and is padded with NUL bytes, as
    records do not cross a sector boundary; the record of SYSTEM.CNF;1
    begins the second, at byte 2048 of the window.  The file is in
    sector 20, as in [example_iso]. *)
Definition example_two_sector_iso : list Z :=
  replicate (Z.to_nat (16 * 2048)) 0
  ++ sector (replicate 156 0 ++ dir_record 18 [0])
  ++ sector []
  ++ sector example_bare_dir
  ++ sector (dir_record 20 SYSTEM_CNF_lit)
  ++ sector example_cnf_text.

(** * Properties *)

(** One step through a computation that is known to return. *)
Ltac step_in H :=
  match type of H with
  | obind ?m _ = Ret _ =>
      let E := fresh "E" in
      destruct m as [?| |] eqn:E; cbn [obind] in H; [|discriminate|discriminate]
  | (let '(_, _) := ?x in _) = Ret _ => destruct x
  | (if ?b then _ else _) = Ret _ =>
      let E := fresh "E" in destruct b eqn:E
  end.

(** ** Memory and C strings *)

Lemma store_lt (buf : list Z) (i : nat) (v : Z) :
  (i < length buf)%nat -> store buf i v = Ret (<[i:=v]> buf).
Proof.
  intros H. unfold store.
  destruct (Nat.ltb_spec i (length buf)); [reflexivity | lia].
Qed.

Lemma store_ge (buf : list Z) (i : nat) (v : Z) :
  (length buf <= i)%nat -> store buf i v = Fault.
Proof.
  intros H. unfold store.
  destruct (Nat.ltb_spec i (length buf)); [lia | reflexivity].
Qed.

Lemma store_app (done free : list Z) (v : Z) :
  free <> [] ->
  store (done ++ free) (length done) v = Ret (done ++ v :: drop 1 free).
Proof.
  intros H. destruct free as [|x free]; [congruence|].
  rewrite store_lt by (rewrite length_app; simpl; lia).
  f_equal. rewrite insert_app_r_alt by lia.
  replace (length done - length done)%nat with 0%nat by lia. reflexivity.
Qed.

Lemma store_app_at (done free : list Z) (i : nat) (v : Z) :
  length done = i ->
  free <> [] ->
  store (done ++ free) i v = Ret (done ++ v :: drop 1 free).
Proof. intros <-. apply store_app. Qed.

Lemma store_inv (buf buf' : list Z) (i : nat) (v : Z) :
  store buf i v = Ret buf' ->
  (i < length buf)%nat /\ buf' = <[i:=v]> buf.
Proof.
  unfold store. destruct (Nat.ltb_spec i (length buf)); intros E.
  - inversion E. auto.
  - discriminate.
Qed.

Lemma cstr_app_nul (s rest : list Z) :
  Forall (fun c => c <> 0) s -> cstr (s ++ 0 :: rest) = Ret s.
Proof.
  induction 1 as [|c s Hc Hs IH]; simpl; [reflexivity|].
  destruct (Z.eqb_spec c 0); [contradiction|]. rewrite IH. reflexivity.
Qed.

(** With a NUL somewhere in the buffer, the string at its head is read
    without leaving the buffer. *)
Lemma cstr_head (l : list Z) :
  forall i : nat,
    l !! i = Some 0 ->
    exists s, cstr l = Ret s /\ (s = [] \/ exists t, s = hd 0 l :: t).
Proof.
  induction l as [|c l IH]; intros i Hi; [discriminate|].
  simpl. destruct (Z.eqb_spec c 0) as [-> | Hc].
  - exists []. auto.
  - destruct i as [|i]; [simpl in Hi; congruence|].
    destruct (IH i Hi) as (s & -> & _).
    exists (c :: s). split; [reflexivity|]. right. eauto.
Qed.

Lemma load_lookup (buf : list Z) (i : nat) (v : Z) :
  buf !! i = Some v -> load buf i = Ret v.
Proof. intros H. unfold load. rewrite H. reflexivity. Qed.

Lemma bytes_eqb_refl (s : list Z) : bytes_eqb s s = true.
Proof. unfold bytes_eqb. apply bool_decide_eq_true. reflexivity. Qed.

Lemma bytes_eqb_neq (s t : list Z) : s <> t -> bytes_eqb s t = false.
Proof. intros H. unfold bytes_eqb. apply bool_decide_eq_false. exact H. Qed.

(** ** The tokenizer *)

Lemma classify_plain c len ins : plain c -> classify c len ins = Advance.
Proof.
  intros [Hw Hq]. unfold classify. rewrite Hw.
  destruct (Z.eqb_spec c 34); [contradiction | reflexivity].
Qed.

Lemma classify_ws_start c ins : is_ws c = true -> classify c 0 ins = Skip ins.
Proof. intros Hw. unfold classify. rewrite Hw. reflexivity. Qed.

Lemma classify_ws_end c len :
  is_ws c = true -> classify c (S len) false = Terminate.
Proof. intros Hw. unfold classify. rewrite Hw. reflexivity. Qed.

Lemma classify_ws_quoted c len :
  is_ws c = true -> classify c (S len) true = Advance.
Proof. intros Hw. unfold classify. rewrite Hw. reflexivity. Qed.

Lemma classify_quote_end len ins : classify 34 (S len) ins = Terminate.
Proof. reflexivity. Qed.

Lemma classify_quote_start ins : classify 34 0 ins = Skip true.
Proof. reflexivity. Qed.

(** The loop on the characters of a token that is already begun
    ([done] holds what was stored so far), up to its terminator [d]. *)
Lemma get_token_loop_word (w : list Z) :
  forall (done free rest : list Z) (d : Z) (ins : bool) (errno : Z)
         (max_len : nat),
    done <> [] ->
    Forall (fun c => c <> 34 /\ (is_ws c = false \/ ins = true)) w ->
    (d = 34 \/ (is_ws d = true /\ ins = false)) ->
    (length done + length w < max_len)%nat ->
    (length w < length free)%nat ->
    get_token_loop (of_bytes (w ++ d :: rest)) (done ++ free) max_len
      (length done) ins errno
    = Ret (Z.of_nat (length done + length w), of_bytes rest,
           done ++ w ++ 0 :: drop (S (length w)) free, errno).
Proof.
  induction w as [|c w IH]; intros done free rest d ins errno max_len
    Hdone Hw Hd Hmax Hfree.
  - cbn [app of_bytes map get_token_loop length].
    assert (Hf : free <> []) by (destruct free; simpl in *; [lia | congruence]).
    rewrite store_app by exact Hf. cbn [obind].
    assert (Hlen : exists k, length done = S k).
    { destruct done; [congruence|]. simpl. eauto. }
    destruct Hlen as [k Hk].
    assert (Hc : classify d (length done) ins = Terminate).
    { rewrite Hk. destruct Hd as [-> | [Hws ->]].
      - apply classify_quote_end.
      - apply classify_ws_end, Hws. }
    rewrite Hc.
    rewrite (store_app done (d :: drop 1 free)) by congruence.
    cbn [obind]. rewrite Nat.add_0_r. reflexivity.
  - cbn [app of_bytes map get_token_loop length].
    assert (Hf : free <> []) by (destruct free; simpl in *; [lia | congruence]).
    rewrite store_app by exact Hf. cbn [obind].
    inversion Hw as [|? ? [Hq Hc] Hw']; subst.
    assert (Hcl : classify c (length done) ins = Advance).
    { unfold classify. destruct (is_ws c) eqn:Hws.
      - destruct Hc as [Hc | ->]; [discriminate|].
        destruct done; [congruence | reflexivity].
      - destruct (Z.eqb_spec c 34); [contradiction | reflexivity]. }
    rewrite Hcl.
    destruct (Nat.eqb_spec (S (length done)) max_len) as [E | _];
      [simpl in Hmax; lia|].
    replace (done ++ c :: drop 1 free) with ((done ++ [c]) ++ drop 1 free)
      by (rewrite <- app_assoc; reflexivity).
    replace (S (length done)) with (length (done ++ [c]))
      by (rewrite length_app; simpl; lia).
    fold (of_bytes (w ++ d :: rest)).
    rewrite IH.
    + rewrite length_app. simpl length.
      replace (length done + 1 + length w)%nat
        with (length done + S (length w))%nat by lia.
      rewrite <- app_assoc. simpl. rewrite drop_drop.
      replace (1 + S (length w))%nat with (S (S (length w))) by lia.
      reflexivity.
    + destruct done; simpl; congruence.
    + exact Hw'.
    + exact Hd.
    + rewrite length_app. simpl in *. lia.
    + rewrite length_drop. simpl in *. lia.
Qed.

(** The loop up to the capacity: the token is cut after [max_len] bytes
    and its terminator is stored at index [max_len]. *)
Lemma get_token_loop_cut (w : list Z) :
  forall (done free rest : list Z) (ins : bool) (errno : Z),
    w <> [] ->
    (done <> [] \/ exists c w', w = c :: w' /\ is_ws c = false) ->
    Forall (fun c => c <> 34 /\ (is_ws c = false \/ ins = true)) w ->
    get_token_loop (of_bytes (w ++ rest)) (done ++ free)
      (length done + length w) (length done) ins errno
    = if (length w <? length free)%nat
      then Ret (Z.of_nat (length done + length w), of_bytes rest,
                done ++ w ++ 0 :: drop (S (length w)) free, errno)
      else Fault.
Proof.
  induction w as [|c w IH]; intros done free rest ins errno Hne Hstart Hw;
    [congruence|].
  cbn [app of_bytes map get_token_loop length].
  inversion Hw as [|? ? [Hq Hc] Hw']; subst.
  destruct free as [|x free].
  { rewrite store_ge by (rewrite length_app; simpl; lia). reflexivity. }
  rewrite store_app by congruence. cbn [obind].
  assert (Hcl : classify c (length done) ins = Advance).
  { unfold classify. destruct (is_ws c) eqn:Hws.
    - destruct Hc as [Hc | ->]; [discriminate|].
      destruct Hstart as [Hd | (c0 & w0 & E & Hc0)].
      + destruct done; [congruence | reflexivity].
      + inversion E; subst. congruence.
    - destruct (Z.eqb_spec c 34); [contradiction | reflexivity]. }
  rewrite Hcl. simpl drop. rewrite drop_0.
  destruct w as [|c' w].
  - simpl length. rewrite Nat.add_1_r, Nat.eqb_refl.
    replace (done ++ c :: free) with ((done ++ [c]) ++ free)
      by (rewrite <- app_assoc; reflexivity).
    replace (S (length done)) with (length (done ++ [c]))
      by (rewrite length_app; simpl; lia).
    destruct free as [|y free].
    + rewrite store_ge by (rewrite app_nil_r; lia). reflexivity.
    + rewrite store_app by congruence. cbn [obind].
      simpl. rewrite <- app_assoc. simpl. rewrite drop_0.
      rewrite length_app. simpl. reflexivity.
  - destruct (Nat.eqb_spec (S (length done))
                (length done + S (length (c' :: w)))) as [E | _];
      [simpl in E; lia|].
    replace (done ++ c :: free) with ((done ++ [c]) ++ free)
      by (rewrite <- app_assoc; reflexivity).
    replace (S (length done)) with (length (done ++ [c]))
      by (rewrite length_app; simpl; lia).
    replace (length done + S (length (c' :: w)))%nat
      with (length (done ++ [c]) + length (c' :: w))%nat
      by (rewrite length_app; simpl; lia).
    fold (of_bytes ((c' :: w) ++ rest)).
    rewrite IH.
    + simpl length.
      destruct (Nat.ltb_spec (S (length w)) (length free));
        destruct (Nat.ltb_spec (S (S (length w))) (S (length free)));
        try lia; [|reflexivity].
      rewrite <- app_assoc. reflexivity.
    + congruence.
    + left. destruct done; simpl; congruence.
    + exact Hw'.
Qed.

(** Leading white space is read into the first byte of the token and
    skipped. *)
Lemma get_token_loop_skip (sp : list Z) :
  forall (fd : list read1) (t0 : Z) (tk : list Z) (max_len : nat)
         (ins : bool) (errno : Z),
    Forall (fun c => is_ws c = true) sp ->
    exists t0',
      get_token_loop (of_bytes sp ++ fd) (t0 :: tk) max_len 0 ins errno
      = get_token_loop fd (t0' :: tk) max_len 0 ins errno.
Proof.
  induction sp as [|c sp IH]; intros fd t0 tk max_len ins errno Hsp.
  - exists t0. reflexivity.
  - inversion Hsp; subst.
    cbn [app of_bytes map get_token_loop].
    rewrite store_lt by (simpl; lia). cbn [obind].
    rewrite classify_ws_start by assumption.
    simpl. apply IH. assumption.
Qed.

Lemma of_bytes_app (a b : list Z) : of_bytes (a ++ b) = of_bytes a ++ of_bytes b.
Proof. apply map_app. Qed.

(** A token cut at the capacity, after leading white space. *)
Lemma get_token_cut (sp w rest token : list Z) (errno : Z) :
  Forall (fun c => is_ws c = true) sp ->
  w <> [] ->
  Forall plain w ->
  get_token (of_bytes (sp ++ w ++ rest)) token (length w) errno
  = if (length w <? length token)%nat
    then Ret (Z.of_nat (length w), of_bytes rest,
              w ++ 0 :: drop (S (length w)) token, errno)
    else Fault.
Proof.
  intros Hsp Hne Hw. unfold get_token.
  destruct token as [|t0 tk].
  { destruct w as [|c w]; [congruence|].
    destruct sp as [|s sp]; simpl; reflexivity. }
  rewrite of_bytes_app.
  destruct (get_token_loop_skip sp (of_bytes (w ++ rest)) t0 tk (length w)
              false errno Hsp) as [t0' ->].
  pose proof (get_token_loop_cut w [] (t0' :: tk) rest false errno Hne) as H.
  simpl in H. rewrite H; clear H.
  - reflexivity.
  - right. destruct w as [|c w]; [congruence|].
    inversion Hw as [|? ? [Hc _] _]; subst. eauto.
  - eapply Forall_impl; [exact Hw|]. intros c [Hc Hq]. auto.
Qed.

(** A plain token that ends at a white-space byte. *)
Lemma get_token_plain (sp w rest token : list Z) (d : Z) (max_len : nat)
    (errno : Z) :
  Forall (fun c => is_ws c = true) sp ->
  w <> [] ->
  Forall plain w ->
  is_ws d = true ->
  (length w < max_len)%nat ->
  (length w < length token)%nat ->
  get_token (of_bytes (sp ++ w ++ d :: rest)) token max_len errno
  = Ret (Z.of_nat (length w), of_bytes rest,
         w ++ 0 :: drop (S (length w)) token, errno).
Proof.
  intros Hsp Hne Hw Hd Hmax Htok. unfold get_token.
  destruct token as [|t0 tk]; [simpl in Htok; lia|].
  destruct w as [|c w]; [congruence|].
  rewrite of_bytes_app.
  destruct (get_token_loop_skip sp (of_bytes ((c :: w) ++ d :: rest)) t0 tk
              max_len false errno Hsp) as [t0' ->].
  inversion Hw as [|? ? Hc Hw']; subst.
  cbn [app of_bytes map get_token_loop].
  rewrite store_lt by (simpl; lia). cbn [obind].
  rewrite classify_plain by exact Hc.
  destruct (Nat.eqb_spec 1 max_len) as [E | _]; [simpl in Hmax; lia|].
  pose proof (get_token_loop_word w [c] tk rest d false errno max_len) as H.
  simpl in H. simpl. unfold of_bytes in H. rewrite H; clear H.
  - reflexivity.
  - congruence.
  - eapply Forall_impl; [exact Hw'|]. intros x [Hx Hq]. auto.
  - right. auto.
  - simpl in Hmax. lia.
  - simpl in Htok. lia.
Qed.

(** A quoted token: white space inside the quotes is content. *)
Lemma get_token_quoted (sp rest token : list Z) (c : Z) (q : list Z)
    (max_len : nat) (errno : Z) :
  Forall (fun c => is_ws c = true) sp ->
  plain c ->
  Forall (fun x => x <> 34) q ->
  (S (length q) < max_len)%nat ->
  (S (length q) < length token)%nat ->
  get_token (of_bytes (sp ++ 34 :: (c :: q) ++ 34 :: rest)) token max_len errno
  = Ret (Z.of_nat (S (length q)), of_bytes rest,
         (c :: q) ++ 0 :: drop (S (S (length q))) token, errno).
Proof.
  intros Hsp Hc Hq Hmax Htok. unfold get_token.
  destruct token as [|t0 tk]; [simpl in Htok; lia|].
  rewrite of_bytes_app.
  destruct (get_token_loop_skip sp (of_bytes (34 :: (c :: q) ++ 34 :: rest))
              t0 tk max_len false errno Hsp) as [t0' ->].
  cbn [app of_bytes map get_token_loop].
  rewrite store_lt by (simpl; lia). cbn [obind].
  rewrite classify_quote_start.
  rewrite store_lt by (simpl; lia). cbn [obind].
  rewrite classify_plain by exact Hc.
  destruct (Nat.eqb_spec 1 max_len) as [E | _]; [lia|].
  pose proof (get_token_loop_word q [c] tk rest 34 true errno max_len) as H.
  simpl in H. simpl. unfold of_bytes in H. rewrite H; clear H.
  - reflexivity.
  - congruence.
  - eapply Forall_impl; [exact Hq|]. intros x Hx. auto.
  - left. reflexivity.
  - lia.
  - simpl in Htok. lia.
Qed.

(** What get_token guarantees when the destination holds more than
    [max_len] bytes: it returns, the value is at most [max_len], a
    positive value is the index of a terminator in the destination and
    means that the stream was advanced. *)
Lemma get_token_loop_safe (fd : list read1) :
  forall (token : list Z) (max_len len : nat) (ins : bool) (errno : Z),
    (len < max_len)%nat ->
    (max_len < length token)%nat ->
    exists rv fd' token' errno',
      get_token_loop fd token max_len len ins errno
        = Ret (rv, fd', token', errno') /\
      rv <= Z.of_nat max_len /\
      length token' = length token /\
      (exists pre, fd = pre ++ fd') /\
      (0 < rv -> token' !! Z.to_nat rv = Some 0 /\
                 (length fd' < length fd)%nat).
Proof.
  induction fd as [|r fd IH]; intros token max_len len ins errno Hlen Hcap.
  - exists 0, [], token, errno. simpl.
    repeat split; try lia. exists []. reflexivity.
  - destruct r as [b | e]; cbn [get_token_loop].
    + rewrite store_lt by lia. cbn [obind].
      destruct (classify b len ins) as [ins' | | ].
      * destruct (IH (<[len:=b]> token) max_len len ins' errno Hlen)
          as (rv & fd' & token' & errno' & E & Hrv & Hl & [pre Hp] & Hpos).
        { rewrite length_insert. exact Hcap. }
        exists rv, fd', token', errno'. rewrite E.
        rewrite length_insert in Hl.
        repeat split; auto.
        -- exists (RByte b :: pre). rewrite Hp. reflexivity.
        -- apply Hpos. assumption.
        -- simpl. apply Hpos in H. lia.
      * rewrite store_lt by (rewrite length_insert; lia). cbn [obind].
        eexists _, _, _, _. split; [reflexivity|].
        repeat split.
        -- lia.
        -- rewrite !length_insert. reflexivity.
        -- exists [RByte b]. reflexivity.
        -- rewrite Nat2Z.id. apply list_lookup_insert_eq.
           rewrite length_insert. lia.
        -- simpl. lia.
      * destruct (Nat.eqb_spec (S len) max_len) as [E | NE].
        -- rewrite store_lt by (rewrite length_insert; lia). cbn [obind].
           eexists _, _, _, _. split; [reflexivity|].
           repeat split.
           ++ lia.
           ++ rewrite !length_insert. reflexivity.
           ++ exists [RByte b]. reflexivity.
           ++ rewrite Nat2Z.id. apply list_lookup_insert_eq.
              rewrite length_insert. lia.
           ++ simpl. lia.
        -- destruct (IH (<[len:=b]> token) max_len (S len) ins errno)
             as (rv & fd' & token' & errno' & E & Hrv & Hl & [pre Hp] & Hpos).
           { lia. }
           { rewrite length_insert. exact Hcap. }
           exists rv, fd', token', errno'. rewrite E.
           rewrite length_insert in Hl.
           repeat split; auto.
           ++ exists (RByte b :: pre). rewrite Hp. reflexivity.
           ++ apply Hpos. assumption.
           ++ simpl. apply Hpos in H. lia.
    + cbv zeta. destruct ((Z.pos e =? EINTR) || (Z.pos e =? EAGAIN)).
      * destruct (IH token max_len len ins (Z.pos e) Hlen Hcap)
          as (rv & fd' & token' & errno' & E & Hrv & Hl & [pre Hp] & Hpos).
        exists rv, fd', token', errno'. rewrite E.
        repeat split; auto.
        -- exists (RFail e :: pre). rewrite Hp. reflexivity.
        -- apply Hpos. assumption.
        -- simpl. apply Hpos in H. lia.
      * exists (- Z.pos e), fd, token, (Z.pos e).
        split; [reflexivity|]. split; [lia|]. split; [reflexivity|].
        split; [exists [RFail e]; reflexivity | lia].
Qed.

Lemma get_token_safe (fd : list read1) (token : list Z) (max_len : nat)
    (errno : Z) :
  (0 < max_len)%nat ->
  (max_len < length token)%nat ->
  exists rv fd' token' errno',
    get_token fd token max_len errno = Ret (rv, fd', token', errno') /\
    rv <= Z.of_nat max_len /\
    length token' = length token /\
    (exists pre, fd = pre ++ fd') /\
    (0 < rv -> token' !! Z.to_nat rv = Some 0 /\
               (length fd' < length fd)%nat).
Proof. intros. apply get_token_loop_safe; assumption. Qed.

(** ** The token scanner *)

Lemma strncmp_total (lit : list Z) :
  forall (a : list Z) (n : nat),
    (n <= length a)%nat -> exists d, strncmp a lit n = Ret d.
Proof.
  intros a n. revert a lit.
  induction n as [|n IH]; intros a lit Hn; simpl.
  { exists 0. reflexivity. }
  destruct a as [|c1 a]; [simpl in Hn; lia|].
  destruct (negb (c1 =? hd 0 lit)); [eexists; reflexivity|].
  destruct (c1 =? 0); [eexists; reflexivity|].
  apply IH. simpl in Hn. lia.
Qed.

Lemma strncmp_0_take (lit : list Z) :
  forall a : list Z,
    Forall (fun c => c <> 0) lit ->
    strncmp a lit (length lit) = Ret 0 ->
    take (length lit) a = lit.
Proof.
  induction lit as [|c lit IH]; intros a Hnz H; [reflexivity|].
  inversion Hnz; subst.
  destruct a as [|c1 a]; simpl in H; [discriminate|].
  destruct (Z.eqb_spec c1 c) as [-> | NE]; simpl in H.
  - destruct (Z.eqb_spec c 0); [contradiction|].
    simpl. f_equal. apply IH; assumption.
  - inversion H. lia.
Qed.

Lemma strncmp_take_0 (lit : list Z) :
  forall rest : list Z, strncmp (lit ++ rest) lit (length lit) = Ret 0.
Proof.
  induction lit as [|c lit IH]; intros rest; simpl; [reflexivity|].
  rewrite Z.eqb_refl. simpl.
  destruct (c =? 0); [reflexivity | apply IH].
Qed.

(** The loop always returns when the fuel exceeds the stream length by 2,
    and a return value 0 comes from a match of the working token which,
    unless it is the initial one, get_token filled from a place of the
    stream. *)
Lemma find_token_loop_spec (token : list Z) (Htok : token <> []) :
  forall (fuel : nat) (fd : list read1) (tmp : list Z) (errno : Z),
    (length fd + 2 <= fuel)%nat ->
    length tmp = S (length token) ->
    exists rv fd' errno',
      find_token_loop fuel fd tmp token errno = Ret (rv, fd', errno') /\
      (rv = 0 \/ rv = -1) /\
      (rv = 0 ->
       strncmp tmp token (length token) = Ret 0 \/
       exists pre fd1 buf1 e1 r fd2 buf2 e2,
         fd = pre ++ fd1 /\
         get_token fd1 buf1 (length token) e1 = Ret (r, fd2, buf2, e2) /\
         length buf1 = S (length token) /\
         0 < r /\
         strncmp buf2 token (length token) = Ret 0).
Proof.
  induction fuel as [|fuel IH]; intros fd tmp errno Hfuel Hlen; [lia|].
  cbn [find_token_loop].
  destruct (strncmp_total token tmp (length token)) as [d Hd]; [lia|].
  rewrite Hd. cbn [obind].
  destruct (Z.eqb_spec d 0) as [-> | Hd0].
  { exists 0, fd, errno. split; [reflexivity|]. split; auto. }
  destruct (get_token_safe fd tmp (length token) errno)
    as (r & fd1 & tmp1 & e1 & E & Hr & Hl & [pre Hp] & Hpos).
  { destruct token; [congruence | simpl; lia]. }
  { lia. }
  rewrite E. cbn [obind].
  destruct (Z.leb_spec r 0) as [Hle | Hgt].
  { exists (-1), fd1, e1. split; [reflexivity|]. split; [auto | lia]. }
  destruct (Hpos Hgt) as [_ Hshort].
  destruct (IH fd1 tmp1 e1) as (rv & fd' & errno' & E' & Hrv & H0).
  { lia. }
  { congruence. }
  exists rv, fd', errno'. split; [exact E'|]. split; [exact Hrv|].
  intros Hz. right. destruct (H0 Hz) as [Hm | Hm].
  - exists [], fd, tmp, errno, r, fd1, tmp1, e1. auto.
  - destruct Hm as (pre' & fdx & buf1 & ex & r' & fd2 & buf2 & e2 & Hs & Hm).
    exists (pre ++ pre'), fdx, buf1, ex, r', fd2, buf2, e2.
    split; [|exact Hm]. rewrite Hp, Hs, app_assoc. reflexivity.
Qed.

(** When the working token matches, get_token returned the full length
    and the string it stored is the target. *)
Lemma matched_token_is_target (token : list Z) (fd1 : list read1)
    (buf1 : list Z) (e1 r : Z) (fd2 : list read1) (buf2 : list Z) (e2 : Z) :
  token <> [] ->
  Forall (fun c => c <> 0) token ->
  length buf1 = S (length token) ->
  get_token fd1 buf1 (length token) e1 = Ret (r, fd2, buf2, e2) ->
  0 < r ->
  strncmp buf2 token (length token) = Ret 0 ->
  r = Z.of_nat (length token) /\ cstr buf2 = Ret token.
Proof.
  intros Hne Hnz Hlen Hget Hr Hcmp.
  assert (Hn : (0 < length token)%nat) by (destruct token; [congruence | simpl; lia]).
  destruct (get_token_safe fd1 buf1 (length token) e1 Hn)
    as (r' & fd' & buf' & e' & E & Hle & Hl & _ & Hpos); [lia|].
  rewrite E in Hget. inversion Hget; subst r' fd' buf' e'. clear Hget.
  destruct (Hpos Hr) as [Hnul _].
  pose proof (strncmp_0_take token buf2 Hnz Hcmp) as Htake.
  assert (Hrn : Z.to_nat r = length token).
  { destruct (Nat.lt_ge_cases (Z.to_nat r) (length token)) as [Hlt | Hge];
      [|lia].
    exfalso.
    assert (Hin : token !! Z.to_nat r = Some 0).
    { rewrite <- Htake. rewrite lookup_take_lt by exact Hlt. exact Hnul. }
    rewrite Forall_forall in Hnz.
    apply (Hnz 0); [|reflexivity].
    eapply list_elem_of_lookup_2. exact Hin. }
  split; [lia|].
  rewrite Hrn in Hnul.
  rewrite <- (take_drop (length token) buf2), Htake.
  rewrite (drop_S _ _ _ Hnul).
  apply cstr_app_nul. exact Hnz.
Qed.

(** The string at the head of a buffer is followed by a NUL in it. *)
Lemma cstr_split (buf s : list Z) :
  cstr buf = Ret s -> exists rest, buf = s ++ 0 :: rest.
Proof.
  revert s. induction buf as [|c buf IH]; intros s H; [discriminate|].
  simpl in H. destruct (Z.eqb_spec c 0) as [-> | Hc].
  - inversion H; subst. exists buf. reflexivity.
  - destruct (cstr buf) as [s'| |] eqn:E; try discriminate.
    inversion H; subst. destruct (IH s' eq_refl) as [rest ->].
    exists rest. reflexivity.
Qed.

(** Successive calls of get_token with a buffer of more than max_len
    bytes always come to an end. *)
Lemma token_seq_loop_returns (max_len : nat) :
  (0 < max_len)%nat ->
  forall (fuel : nat) (fd : list read1) (token : list Z) (errno : Z),
    (length fd < fuel)%nat ->
    (max_len < length token)%nat ->
    exists toks, token_seq_loop fuel fd token max_len errno = Ret toks.
Proof.
  intros Hn. induction fuel as [|fuel IH]; intros fd token errno Hfuel Hlen;
    [lia|].
  cbn [token_seq_loop].
  destruct (get_token_safe fd token max_len errno Hn Hlen)
    as (r & fd1 & tok1 & e1 & E & _ & Hl & _ & Hpos).
  rewrite E. cbn [obind].
  destruct (Z.leb_spec r 0) as [Hle | Hgt]; [eexists; reflexivity|].
  destruct (Hpos Hgt) as [Hnul Hshort].
  destruct (cstr_head tok1 _ Hnul) as (s & Hs & _).
  rewrite Hs. cbn [obind].
  destruct (IH fd1 tok1 e1) as [toks Ht]; [lia | lia |].
  rewrite Ht. cbn [obind]. eexists; reflexivity.
Qed.

(** The loop of find_token against the strings that successive calls of
    get_token deliver: it ends with 0 at the first one that is the
    target, with -1 when there is none. *)
Lemma find_token_loop_seq (token : list Z) :
  token <> [] ->
  Forall (fun c => c <> 0) token ->
  forall (fuel : nat) (fd : list read1) (tmp : list Z) (errno : Z)
         (fuel2 : nat),
    (length fd + 2 <= fuel)%nat ->
    (length fd < fuel2)%nat ->
    length tmp = S (length token) ->
    strncmp tmp token (length token) <> Ret 0 ->
    exists toks rv fd' errno',
      token_seq_loop fuel2 fd tmp (length token) errno = Ret toks /\
      find_token_loop fuel fd tmp token errno = Ret (rv, fd', errno') /\
      rv = (if bool_decide (token ∈ toks) then 0 else -1).
Proof.
  intros Hne Hnz.
  assert (Hn : (0 < length token)%nat)
    by (destruct token; [congruence | simpl; lia]).
  induction fuel as [|fuel IH]; intros fd tmp errno fuel2 Hfuel Hfuel2 Hlen Hcmp;
    [lia|].
  destruct fuel2 as [|fuel2]; [lia|].
  cbn [find_token_loop token_seq_loop].
  destruct (strncmp_total token tmp (length token)) as [d Hd]; [lia|].
  rewrite Hd. cbn [obind].
  destruct (Z.eqb_spec d 0) as [-> | Hd0]; [congruence|].
  destruct (get_token_safe fd tmp (length token) errno Hn)
    as (r & fd1 & tmp1 & e1 & E & Hr & Hl & _ & Hpos); [lia|].
  rewrite E. cbn [obind].
  destruct (Z.leb_spec r 0) as [Hle | Hgt].
  { exists [], (-1), fd1, e1. split; [reflexivity|]. split; [reflexivity|].
    rewrite bool_decide_eq_false_2; [reflexivity | apply not_elem_of_nil]. }
  destruct (Hpos Hgt) as [Hnul Hshort].
  destruct (cstr_head tmp1 _ Hnul) as (s & Hs & _).
  rewrite Hs. cbn [obind].
  destruct (strncmp_total token tmp1 (length token)) as [d1 Hd1]; [lia|].
  destruct (Z.eq_dec d1 0) as [-> | Hd10].
  - (* the token just read is the target *)
    destruct (matched_token_is_target token fd tmp errno r fd1 tmp1 e1)
      as [_ Hstr]; try assumption.
    assert (s = token) by congruence. subst s.
    destruct (token_seq_loop_returns (length token) Hn fuel2 fd1 tmp1 e1)
      as [ss Hss]; [lia | lia |].
    rewrite Hss. cbn [obind].
    exists (token :: ss), 0, fd1, e1. split; [reflexivity|].
    split.
    + destruct fuel as [|fuel]; [lia|].
      cbn [find_token_loop]. rewrite Hd1. reflexivity.
    + rewrite bool_decide_eq_true_2; [reflexivity | left].
  - (* another token: the loop goes on *)
    assert (Hs' : s <> token).
    { intros ->. destruct (cstr_split _ _ Hs) as [rest Hrest].
      rewrite Hrest, strncmp_take_0 in Hd1. congruence. }
    destruct (IH fd1 tmp1 e1 fuel2) as (toks & rv & fd' & e' & Ht & Hf & Hrv);
      [lia | lia | congruence | congruence |].
    rewrite Ht. cbn [obind].
    exists (s :: toks), rv, fd', e'. split; [reflexivity|].
    split; [exact Hf|]. rewrite Hrv.
    destruct (decide (token ∈ toks)) as [Hin | Hin].
    + rewrite !bool_decide_eq_true_2; [reflexivity | right; exact Hin | exact Hin].
    + rewrite !bool_decide_eq_false_2; [reflexivity | | exact Hin].
      intros H. apply elem_of_cons in H as [H | H]; [congruence | contradiction].
Qed.

(** C9, as amended: find_token returns -1 when its allocation fails and
    0, without reading, when the target is empty.  Otherwise it reads the
    stream as get_token delivers it with capacity strlen (target) -- a
    longer stream token in pieces of strlen (target) bytes -- and returns
    0 when one of the strings so read is the target, -1 when the stream
    ends, or a read fails, before there is one. *)
Theorem find_token_matches_cut_token (fd : list read1) (token : list Z)
    (errno : Z) :
  find_token false fd token errno = Ret (-1, fd, errno) /\
  find_token true fd [] errno = Ret (0, fd, errno) /\
  (token <> [] ->
   Forall (fun c => c <> 0) token ->
   exists toks rv fd' errno',
     token_seq fd (replicate (S (length token)) 0) (length token) errno
       = Ret toks /\
     find_token true fd token errno = Ret (rv, fd', errno') /\
     rv = (if bool_decide (token ∈ toks) then 0 else -1)).
Proof.
  split; [reflexivity|]. split.
  { unfold find_token. rewrite Nat.add_comm. reflexivity. }
  intros Hne Hnz. unfold find_token, token_seq. cbn [negb].
  apply find_token_loop_seq; try assumption; try lia.
  - apply length_replicate.
  - destruct token as [|c token]; [congruence|].
    inversion Hnz; subst. cbn [replicate length strncmp hd].
    destruct (Z.eqb_spec 0 c); [congruence|]. cbn [negb].
    intros H. inversion H. lia.
Qed.

Lemma find_token_matches_cut_token_witness :
  token_seq (of_bytes (bytes "TRACK INDEX 01 ")) (replicate 6 0) 5 0
    = Ret [bytes "TRACK"; bytes "INDEX"; bytes "01"] /\
  find_token_rv (find_token true (of_bytes (bytes "TRACK INDEX 01 "))
                   INDEX_lit 0) = Ret 0 /\
  token_seq (of_bytes (bytes "xINDEX ")) (replicate 6 0) 5 0
    = Ret [bytes "xINDE"; bytes "X"] /\
  find_token_rv (find_token true (of_bytes (bytes "xINDEX ")) INDEX_lit 0)
    = Ret (-1).
Proof.
  destruct (find_token_matches_cut_token
              (of_bytes (bytes "TRACK INDEX 01 ")) INDEX_lit 0)
    as (_ & _ & H1).
  destruct H1 as (toks1 & rv1 & fd1 & e1 & Hs1 & Hf1 & Hrv1);
    [discriminate | repeat constructor; discriminate |].
  destruct (find_token_matches_cut_token
              (of_bytes (bytes "xINDEX ")) INDEX_lit 0)
    as (_ & _ & H2).
  destruct H2 as (toks2 & rv2 & fd2 & e2 & Hs2 & Hf2 & Hrv2);
    [discriminate | repeat constructor; discriminate |].
  assert (Ht1 : toks1 = [bytes "TRACK"; bytes "INDEX"; bytes "01"]).
  { vm_compute in Hs1. inversion Hs1. reflexivity. }
  assert (Ht2 : toks2 = [bytes "xINDE"; bytes "X"]).
  { vm_compute in Hs2. inversion Hs2. reflexivity. }
  subst toks1 toks2.
  split; [vm_compute; reflexivity|].
  split; [rewrite Hf1, Hrv1; vm_compute; reflexivity|].
  split; [vm_compute; reflexivity|].
  rewrite Hf2, Hrv2. vm_compute. reflexivity.
Defined.

(** C9, as stated, fails: the only token of the stream is INDEXES, and
    find_token reports INDEX found. *)
Lemma find_token_accepts_longer_token :
  get_token (of_bytes (bytes "INDEXES ")) (replicate 255 0) MAX_TOKEN_LEN 0
    = Ret (7, [], bytes "INDEXES" ++ replicate 248 0, 0) /\
  find_token true (of_bytes (bytes "INDEXES ")) INDEX_lit 0
    = Ret (0, of_bytes (bytes "ES "), 0).
Proof. split; vm_compute; reflexivity. Qed.

(** *** Termination of the loops over a token stream *)

Lemma store_fuel (buf : list Z) (i : nat) (v : Z) : store buf i v <> OutOfFuel.
Proof. unfold store. destruct (i <? length buf)%nat; discriminate. Qed.

Lemma cstr_fuel (buf : list Z) : cstr buf <> OutOfFuel.
Proof.
  induction buf as [|c buf IH]; simpl; [discriminate|].
  destruct (c =? 0); [discriminate|].
  destruct (cstr buf); [discriminate | discriminate | congruence].
Qed.

Lemma obind_fuel {A B} (m : outcome A) (k : A -> outcome B) :
  m <> OutOfFuel ->
  (forall a, m = Ret a -> k a <> OutOfFuel) ->
  obind m k <> OutOfFuel.
Proof.
  intros Hm Hk. destruct m as [a| |]; simpl; [auto | discriminate | congruence].
Qed.

Lemma string_is_equal_fuel (buf lit : list Z) :
  string_is_equal buf lit <> OutOfFuel.
Proof.
  unfold string_is_equal. apply obind_fuel; [apply cstr_fuel | discriminate].
Qed.

(** get_token needs no fuel, and it never gives bytes back to the stream;
    a positive return value means that it took at least one. *)
Lemma get_token_loop_shrinks (fd : list read1) :
  forall (token : list Z) (max_len len : nat) (ins : bool) (errno : Z),
    get_token_loop fd token max_len len ins errno <> OutOfFuel /\
    forall rv fd' token' errno',
      get_token_loop fd token max_len len ins errno
        = Ret (rv, fd', token', errno') ->
      (length fd' <= length fd)%nat /\
      (0 < rv -> (length fd' < length fd)%nat).
Proof.
  induction fd as [|r fd IH]; intros token max_len len ins errno.
  - split; [discriminate|]. intros rv fd' token' errno' H.
    inversion H; subst. simpl. lia.
  - destruct r as [b | e]; cbn [get_token_loop].
    + destruct (store token len b) as [token1| |] eqn:Es; cbn [obind];
        [|split; discriminate | exfalso; eapply store_fuel; exact Es].
      destruct (classify b len ins) as [ins' | | ].
      * destruct (IH token1 max_len len ins' errno) as [Hf Hs].
        split; [exact Hf|]. intros rv fd' token' errno' H.
        destruct (Hs _ _ _ _ H). simpl. lia.
      * destruct (store token1 len 0) as [token2| |] eqn:Es2; cbn [obind];
          [|split; discriminate | exfalso; eapply store_fuel; exact Es2].
        split; [discriminate|]. intros rv fd' token' errno' H.
        inversion H; subst. simpl. lia.
      * destruct (S len =? max_len)%nat.
        -- destruct (store token1 (S len) 0) as [token2| |] eqn:Es2;
             cbn [obind];
             [|split; discriminate | exfalso; eapply store_fuel; exact Es2].
           split; [discriminate|]. intros rv fd' token' errno' H.
           inversion H; subst. simpl. lia.
        -- destruct (IH token1 max_len (S len) ins errno) as [Hf Hs].
           split; [exact Hf|]. intros rv fd' token' errno' H.
           destruct (Hs _ _ _ _ H). simpl. lia.
    + cbv zeta. destruct ((Z.pos e =? EINTR) || (Z.pos e =? EAGAIN)).
      * destruct (IH token max_len len ins (Z.pos e)) as [Hf Hs].
        split; [exact Hf|]. intros rv fd' token' errno' H.
        destruct (Hs _ _ _ _ H). simpl. lia.
      * split; [discriminate|]. intros rv fd' token' errno' H.
        inversion H; subst. simpl. lia.
Qed.

Lemma get_token_fuel (fd : list read1) (token : list Z) (max_len : nat)
    (errno : Z) :
  get_token fd token max_len errno <> OutOfFuel.
Proof. apply get_token_loop_shrinks. Qed.

Lemma get_token_shrinks (fd : list read1) (token : list Z) (max_len : nat)
    (errno rv : Z) (fd' : list read1) (token' : list Z) (errno' : Z) :
  get_token fd token max_len errno = Ret (rv, fd', token', errno') ->
  (length fd' <= length fd)%nat /\ (0 < rv -> (length fd' < length fd)%nat).
Proof. apply get_token_loop_shrinks. Qed.

(** find_token returns for every stream and every target. *)
Lemma find_token_loop_returns (token : list Z) :
  forall (fuel : nat) (fd : list read1) (tmp : list Z) (errno : Z),
    (length fd + 2 <= fuel)%nat ->
    length tmp = S (length token) ->
    exists rv fd' errno',
      find_token_loop fuel fd tmp token errno = Ret (rv, fd', errno') /\
      (length fd' <= length fd)%nat.
Proof.
  induction fuel as [|fuel IH]; intros fd tmp errno Hfuel Hlen; [lia|].
  cbn [find_token_loop].
  destruct (strncmp_total token tmp (length token)) as [d Hd]; [lia|].
  rewrite Hd. cbn [obind].
  destruct (Z.eqb_spec d 0) as [-> | Hd0]; [eauto|].
  assert (Hn : (0 < length token)%nat).
  { destruct token; [|simpl; lia]. simpl in Hd. congruence. }
  destruct (get_token_safe fd tmp (length token) errno Hn)
    as (r & fd1 & tmp1 & e1 & E & _ & Hl & _ & Hpos); [lia|].
  rewrite E. cbn [obind].
  destruct (get_token_shrinks _ _ _ _ _ _ _ _ E) as [Hle Hlt].
  destruct (Z.leb_spec r 0) as [_ | Hgt]; [eauto|].
  destruct (IH fd1 tmp1 e1) as (rv & fd' & errno' & E' & Hle');
    [specialize (Hlt Hgt); lia | congruence |].
  exists rv, fd', errno'. split; [exact E' | lia].
Qed.

Lemma find_token_returns (calloc_ok : bool) (fd : list read1)
    (token : list Z) (errno : Z) :
  exists rv fd' errno',
    find_token calloc_ok fd token errno = Ret (rv, fd', errno') /\
    (length fd' <= length fd)%nat.
Proof.
  unfold find_token. destruct calloc_ok; cbn [negb]; [|eauto].
  apply find_token_loop_returns; [lia | apply length_replicate].
Qed.

(** ** The cue-sheet locator *)

Lemma get_token_word (t : word) (rest tmp : list Z) (e : Z) :
  wf_word t ->
  length tmp = MAX_TOKEN_LEN ->
  exists tmp',
    get_token (of_bytes (render1 t ++ rest)) tmp MAX_TOKEN_LEN e
      = Ret (Z.of_nat (length (body t)), of_bytes rest, tmp', e) /\
    length tmp' = MAX_TOKEN_LEN /\
    cstr tmp' = Ret (body t).
Proof.
  intros [Hl Hne Hp Hnz Hlen Hd] Htmp.
  exists (body t ++ 0 :: drop (S (length (body t))) tmp).
  split; [|split].
  - unfold render1. rewrite <- !app_assoc. simpl.
    apply get_token_plain; try assumption. lia.
  - rewrite length_app. simpl. rewrite length_drop. lia.
  - apply cstr_app_nul. exact Hnz.
Qed.

Lemma word_len_pos (t : word) :
  wf_word t -> (Z.of_nat (length (body t)) <=? 0) = false.
Proof.
  intros [_ Hne _ _ _ _]. apply Z.leb_gt.
  destruct (body t); [congruence | simpl; lia].
Qed.

Lemma string_is_equal_cstr (tmp s lit : list Z) :
  cstr tmp = Ret s -> string_is_equal tmp lit = Ret (bytes_eqb s lit).
Proof. intros H. unfold string_is_equal. rewrite H. reflexivity. Qed.

Lemma render_app (a b : list word) : render (a ++ b) = render a ++ render b.
Proof.
  induction a as [|t a IH]; simpl; [reflexivity|].
  rewrite IH, app_assoc. reflexivity.
Qed.

Section CueSheetFacts.

Variable PATH_MAX_LENGTH : nat.
Variable fill_pathname_basedir : list Z -> nat -> list Z.
Variable fill_pathname_join : list Z -> list Z -> nat -> list Z.
Variable cue_path : list Z.
Variable max_len : nat.

Local Notation "'loop'" :=
  (cue_loop PATH_MAX_LENGTH fill_pathname_basedir fill_pathname_join
     cue_path max_len).

(** A token that is neither FILE nor TRACK costs one iteration. *)
Lemma cue_loop_other (t : word) (fuel : nat) (c : bool) (rest tmp : list Z)
    (e : Z) (tp : option (list Z)) (ev : list event) :
  passed_over t ->
  length tmp = MAX_TOKEN_LEN ->
  exists tmp',
    length tmp' = MAX_TOKEN_LEN /\
    loop (S fuel) c (of_bytes (render1 t ++ rest)) tmp e tp ev
    = loop fuel c (of_bytes rest) tmp' e tp ev.
Proof.
  intros (Hwf & HF & HT) Htmp.
  destruct (get_token_word t rest tmp e Hwf Htmp) as (tmp' & Hget & Hl & Hs).
  exists tmp'. split; [exact Hl|].
  cbn [cue_loop]. rewrite Hget. cbn [obind].
  rewrite (word_len_pos t Hwf).
  rewrite (string_is_equal_cstr _ _ _ Hs). cbn [obind].
  rewrite (bytes_eqb_neq _ _ HF).
  rewrite (string_is_equal_cstr _ _ _ Hs). cbn [obind].
  rewrite (bytes_eqb_neq _ _ HT).
  reflexivity.
Qed.

Lemma cue_loop_others (ts : list word) :
  forall (fuel : nat) (c : bool) (rest tmp : list Z) (e : Z)
         (tp : option (list Z)) (ev : list event),
    Forall passed_over ts ->
    length tmp = MAX_TOKEN_LEN ->
    exists tmp',
      length tmp' = MAX_TOKEN_LEN /\
      loop (length ts + fuel) c (of_bytes (render ts ++ rest)) tmp e tp ev
      = loop fuel c (of_bytes rest) tmp' e tp ev.
Proof.
  induction ts as [|t ts IH]; intros fuel c rest tmp e tp ev Hts Htmp.
  - exists tmp. auto.
  - inversion Hts as [|? ? Ht Hts']; subst.
    simpl render. rewrite <- app_assoc.
    destruct (cue_loop_other t (length ts + fuel) c (render ts ++ rest) tmp e
                tp ev Ht Htmp) as (tmp1 & Hl1 & E1).
    destruct (IH fuel c rest tmp1 e tp ev Hts' Hl1) as (tmp2 & Hl2 & E2).
    exists tmp2. split; [exact Hl2|].
    simpl length. simpl Nat.add. rewrite E1. exact E2.
Qed.

(** FILE and the quoted name after it. *)
Lemma cue_loop_file (t : word) (sp : list Z) (c0 : Z) (q : list Z)
    (fuel : nat) (c : bool) (rest tmp : list Z) (e : Z)
    (tp : option (list Z)) (ev : list event) :
  wf_word t ->
  body t = FILE_lit ->
  Forall (fun c => is_ws c = true) sp ->
  plain c0 ->
  Forall (fun x => x <> 34) q ->
  Forall (fun x => x <> 0) (c0 :: q) ->
  (length (c0 :: q) < MAX_TOKEN_LEN)%nat ->
  length tmp = MAX_TOKEN_LEN ->
  exists tmp',
    length tmp' = MAX_TOKEN_LEN /\
    loop (S fuel) c
      (of_bytes (render1 t ++ (sp ++ 34 :: (c0 :: q) ++ [34]) ++ rest))
      tmp e tp ev
    = loop fuel c (of_bytes rest) tmp' e
        (Some (fill_pathname_join
                 (fill_pathname_basedir cue_path PATH_MAX_LENGTH)
                 (c0 :: q) max_len))
        (ev ++ [Acquire CueDir; Release CueDir]).
Proof.
  intros Hwf HF Hsp Hc0 Hq Hnz Hlen Htmp.
  destruct (get_token_word t ((sp ++ 34 :: (c0 :: q) ++ [34]) ++ rest) tmp e
              Hwf Htmp) as (tmp1 & Hget & Hl1 & Hs1).
  exists ((c0 :: q) ++ 0 :: drop (S (S (length q))) tmp1). split.
  { rewrite length_app. simpl in *. rewrite length_drop. lia. }
  cbn [cue_loop]. rewrite Hget. cbn [obind].
  rewrite (word_len_pos t Hwf).
  rewrite (string_is_equal_cstr _ _ _ Hs1). cbn [obind].
  rewrite HF, bytes_eqb_refl.
  replace ((sp ++ 34 :: (c0 :: q) ++ [34]) ++ rest)
    with (sp ++ 34 :: (c0 :: q) ++ 34 :: rest)
    by (rewrite <- !app_assoc; simpl; rewrite <- app_assoc; reflexivity).
  rewrite get_token_quoted; try assumption; try (simpl in *; lia).
  cbn [obind]. rewrite cstr_app_nul by exact Hnz. cbn [obind].
  reflexivity.
Qed.

(** TRACK nn AUDIO: the track is left without looking for its INDEX. *)
Lemma cue_loop_audio (t tn ta : word) (fuel : nat) (c : bool)
    (rest tmp : list Z) (e : Z) (tp : option (list Z)) (ev : list event) :
  wf_word t -> body t = TRACK_lit ->
  wf_word tn ->
  wf_word ta -> body ta = AUDIO_lit ->
  length tmp = MAX_TOKEN_LEN ->
  exists tmp',
    length tmp' = MAX_TOKEN_LEN /\
    loop (S fuel) c (of_bytes (render [t; tn; ta] ++ rest)) tmp e tp ev
    = loop fuel c (of_bytes rest) tmp' e tp ev.
Proof.
  intros Hwf HT Hn Ha HA Htmp.
  simpl render. rewrite app_nil_r, <- !app_assoc.
  destruct (get_token_word t (render1 tn ++ render1 ta ++ rest) tmp e Hwf Htmp)
    as (tmp1 & Hget1 & Hl1 & Hs1).
  destruct (get_token_word tn (render1 ta ++ rest) tmp1 e Hn Hl1)
    as (tmp2 & Hget2 & Hl2 & Hs2).
  destruct (get_token_word ta rest tmp2 e Ha Hl2)
    as (tmp3 & Hget3 & Hl3 & Hs3).
  exists tmp3. split; [exact Hl3|].
  cbn [cue_loop]. rewrite Hget1. cbn [obind].
  rewrite (word_len_pos t Hwf).
  rewrite (string_is_equal_cstr _ _ _ Hs1). cbn [obind].
  rewrite HT. change (bytes_eqb TRACK_lit FILE_lit) with false. cbv iota.
  rewrite (string_is_equal_cstr _ _ _ Hs1). cbn [obind].
  rewrite HT, bytes_eqb_refl.
  rewrite Hget2. cbn [obind]. rewrite Hget3. cbn [obind].
  rewrite (string_is_equal_cstr _ _ _ Hs3). cbn [obind].
  rewrite HA, bytes_eqb_refl. reflexivity.
Qed.

Lemma find_token_index (sp rest : list Z) (e : Z) :
  Forall (fun c => is_ws c = true) sp ->
  find_token true (of_bytes (sp ++ INDEX_lit ++ rest)) INDEX_lit e
  = Ret (0, of_bytes rest, e).
Proof.
  intros Hsp. unfold find_token. cbn [negb].
  rewrite Nat.add_comm. cbn [Nat.add find_token_loop].
  change (strncmp (replicate (S (length INDEX_lit)) 0) INDEX_lit
            (length INDEX_lit)) with (Ret (A:=Z) (-73)).
  cbn [obind]. change (-73 =? 0) with false. cbv iota.
  rewrite get_token_cut; [|exact Hsp|discriminate|].
  2:{ repeat constructor; discriminate. }
  rewrite length_replicate.
  destruct (Nat.ltb_spec (length INDEX_lit) (S (length INDEX_lit))); [|lia].
  cbn [obind].
  change (Z.of_nat (length INDEX_lit) <=? 0) with false. cbv iota.
  rewrite strncmp_take_0. reflexivity.
Qed.

Lemma cue_loop_data (cs : cue_sheet) (fuel : nat) (tmp : list Z) (e : Z)
    (tp : option (list Z)) (ev : list event) :
  wf_data_track cs ->
  length tmp = MAX_TOKEN_LEN ->
  loop (S fuel) true (of_bytes (data_track_text cs)) tmp e tp ev
  = Ret (data_track_result (body (cs_stamp cs)) e tp ev).
Proof.
  intros [Hwf HT Hn Hm HM Hsp Hi Hs] Htmp.
  unfold data_track_text. simpl render. rewrite !app_nil_r, <- !app_assoc.
  set (r5 := cs_trailer cs).
  set (r4 := render1 (cs_stamp cs) ++ r5).
  set (r3 := render1 (cs_index_no cs) ++ r4).
  set (r2 := cs_index_lead cs ++ INDEX_lit ++ r3).
  set (r1 := render1 (cs_track2_type cs) ++ r2).
  set (r0 := render1 (cs_track2_no cs) ++ r1).
  destruct (get_token_word (cs_track2 cs) r0 tmp e Hwf Htmp)
    as (tmp1 & Hget1 & Hl1 & Hs1).
  destruct (get_token_word (cs_track2_no cs) r1 tmp1 e Hn Hl1)
    as (tmp2 & Hget2 & Hl2 & Hs2).
  destruct (get_token_word (cs_track2_type cs) r2 tmp2 e Hm Hl2)
    as (tmp3 & Hget3 & Hl3 & Hs3).
  destruct (get_token_word (cs_index_no cs) r4 tmp3 e Hi Hl3)
    as (tmp4 & Hget4 & Hl4 & Hs4).
  destruct (get_token_word (cs_stamp cs) r5 tmp4 e Hs Hl4)
    as (tmp5 & Hget5 & Hl5 & Hs5).
  cbn [cue_loop]. rewrite Hget1. cbn [obind].
  rewrite (word_len_pos _ Hwf).
  rewrite (string_is_equal_cstr _ _ _ Hs1). cbn [obind].
  rewrite HT. change (bytes_eqb TRACK_lit FILE_lit) with false. cbv iota.
  rewrite (string_is_equal_cstr _ _ _ Hs1). cbn [obind].
  rewrite HT, bytes_eqb_refl.
  unfold r0. rewrite Hget2. cbn [obind].
  unfold r1. rewrite Hget3. cbn [obind].
  rewrite (string_is_equal_cstr _ _ _ Hs3). cbn [obind].
  rewrite (bytes_eqb_neq _ _ HM).
  unfold r2. rewrite find_token_index by exact Hsp. cbn [obind].
  unfold r3. rewrite Hget4. cbn [obind].
  unfold r4. rewrite Hget5. cbn [obind].
  rewrite Hs5. cbn [obind].
  unfold data_track_result.
  destruct (sscanf_msf (body (cs_stamp cs))) as [n [[m s] f]].
  destruct (n <? 3); reflexivity.
Qed.

Lemma digit_facts (a : Z) :
  48 <= a <= 57 ->
  isspace a = false /\ (a =? 45) || (a =? 43) = false /\ isdigit a = true.
Proof.
  intros Ha. unfold isspace, isdigit.
  destruct (Z.eqb_spec a 32), (Z.eqb_spec a 45), (Z.eqb_spec a 43),
    (Z.leb_spec 9 a), (Z.leb_spec a 13), (Z.leb_spec 48 a), (Z.leb_spec a 57);
    try lia; auto.
Qed.

Lemma scan_d2_two_digits (n : Z) (rest : list Z) :
  0 <= n < 100 -> scan_d2 (two_digits n ++ rest) = Converted n rest.
Proof.
  intros Hn. unfold two_digits. cbn [app].
  assert (Hq : 0 <= n / 10 <= 9).
  { split; [apply Z.div_pos; lia|].
    assert (n / 10 < 10) by (apply Z.div_lt_upper_bound; lia). lia. }
  assert (Hr : 0 <= n mod 10 < 10) by (apply Z.mod_pos_bound; lia).
  destruct (digit_facts (48 + n / 10)) as (Hs1 & Hg1 & Hd1); [lia|].
  destruct (digit_facts (48 + n mod 10)) as (_ & _ & Hd2); [lia|].
  unfold scan_d2. cbn [skip_space]. rewrite Hs1, Hg1, Hd1, Hd2.
  f_equal. pose proof (Z.div_mod n 10). lia.
Qed.

Lemma sscanf_msf_text (m s f : Z) :
  0 <= m < 100 -> 0 <= s < 100 -> 0 <= f < 100 ->
  sscanf_msf (msf_text m s f) = (3, (m, s, f)).
Proof.
  intros Hm Hs Hf. unfold sscanf_msf, msf_text.
  rewrite scan_d2_two_digits by exact Hm.
  rewrite scan_d2_two_digits by exact Hs.
  rewrite <- (app_nil_r (two_digits f)).
  rewrite scan_d2_two_digits by exact Hf.
  reflexivity.
Qed.

Lemma render_length (ts : list word) : (length ts <= length (render ts))%nat.
Proof.
  induction ts as [|t ts IH]; simpl; [lia|].
  unfold render1. rewrite !length_app. simpl. lia.
Qed.

Lemma held_app (r : resource) (a b : list event) :
  held r (a ++ b) = held r a + held r b.
Proof.
  induction a as [|[x|x] a IH]; simpl; [reflexivity| |]; rewrite IH; lia.
Qed.

(** Whenever the loop returns, it has released the token buffer and the
    handle, and every cue_dir block it allocated. *)
Lemma cue_loop_releases (fuel : nat) :
  forall (c : bool) (fd : list read1) (tmp : list Z) (e : Z)
         (tp : option (list Z)) (ev : list event) (res : cue_result),
    loop fuel c fd tmp e tp ev = Ret res ->
    held TmpToken (cue_events res) = held TmpToken ev - 1 /\
    held Handle (cue_events res) = held Handle ev - 1 /\
    held CueDir (cue_events res) = held CueDir ev.
Proof.
  induction fuel as [|fuel IH]; intros c fd tmp e tp ev res H;
    [discriminate|].
  cbn [cue_loop] in H.
  repeat step_in H;
    try (apply IH in H; rewrite ?held_app in H; simpl in H; lia);
    inversion H; subst res; cbn [cue_events];
    rewrite !held_app; simpl; lia.
Qed.

(** The fuel the function gives its loop is enough: each iteration that
    goes on has taken at least one byte from the stream. *)
Lemma cue_loop_fuel (fuel : nat) :
  forall (c : bool) (fd : list read1) (tmp : list Z) (e : Z)
         (tp : option (list Z)) (ev : list event),
    (length fd < fuel)%nat ->
    loop fuel c fd tmp e tp ev <> OutOfFuel.
Proof.
  induction fuel as [|fuel IH]; intros c fd tmp e tp ev Hfuel; [lia|].
  cbn [cue_loop].
  apply obind_fuel; [apply get_token_fuel|].
  intros [[[rv fd1] tmp1] e1] H1.
  destruct (get_token_shrinks _ _ _ _ _ _ _ _ H1) as [Hle1 Hlt1].
  destruct (Z.leb_spec rv 0) as [_ | Hrv]; [discriminate|].
  specialize (Hlt1 Hrv).
  apply obind_fuel; [apply string_is_equal_fuel|].
  intros is_file _. destruct is_file.
  { apply obind_fuel; [apply get_token_fuel|].
    intros [[[rv2 fd2] tmp2] e2] H2.
    destruct (get_token_shrinks _ _ _ _ _ _ _ _ H2) as [Hle2 _].
    apply obind_fuel; [apply cstr_fuel|].
    intros name _. apply IH. lia. }
  apply obind_fuel; [apply string_is_equal_fuel|].
  intros is_track _. destruct is_track; [|apply IH; lia].
  apply obind_fuel; [apply get_token_fuel|].
  intros [[[rv2 fd2] tmp2] e2] H2.
  destruct (get_token_shrinks _ _ _ _ _ _ _ _ H2) as [Hle2 _].
  apply obind_fuel; [apply get_token_fuel|].
  intros [[[rv3 fd3] tmp3] e3] H3.
  destruct (get_token_shrinks _ _ _ _ _ _ _ _ H3) as [Hle3 _].
  apply obind_fuel; [apply string_is_equal_fuel|].
  intros is_audio _. destruct is_audio; [apply IH; lia|].
  destruct (find_token_returns c fd3 INDEX_lit e3) as (rv4 & fd4 & e4 & E4 & _).
  rewrite E4. cbn [obind].
  apply obind_fuel; [apply get_token_fuel|].
  intros [[[rv5 fd5] tmp5] e5] _.
  apply obind_fuel; [apply get_token_fuel|].
  intros [[[rv6 fd6] tmp6] e6] _.
  apply obind_fuel; [apply cstr_fuel|].
  intros stamp _.
  destruct (sscanf_msf stamp) as [n [[m s] f]].
  destruct (n <? 3); discriminate.
Qed.

(** C4: when intfstream_init fails, the function returns with the token
    buffer still allocated; on every other path the function comes to an
    end and, when it returns, the token buffer is freed, the handle is
    closed and no cue_dir block is left. *)
Theorem find_first_data_track_init_failure_leaks :
  (forall (env : cue_env) (e : Z),
     env_init env = Some e ->
     exists res,
       find_first_data_track PATH_MAX_LENGTH fill_pathname_basedir
         fill_pathname_join cue_path max_len env = Ret res /\
       cue_rv res = - e /\
       held TmpToken (cue_events res) = 1) /\
  (forall env : cue_env,
     env_init env = None ->
     find_first_data_track PATH_MAX_LENGTH fill_pathname_basedir
       fill_pathname_join cue_path max_len env <> OutOfFuel /\
     forall res : cue_result,
       find_first_data_track PATH_MAX_LENGTH fill_pathname_basedir
         fill_pathname_join cue_path max_len env = Ret res ->
       held TmpToken (cue_events res) = 0 /\
       held Handle (cue_events res) = 0 /\
       held CueDir (cue_events res) = 0).
Proof.
  split.
  - intros env e Hinit. unfold find_first_data_track. rewrite Hinit.
    eexists. split; [reflexivity|]. split; reflexivity.
  - intros env Hinit. unfold find_first_data_track. rewrite Hinit.
    destruct (env_open env) as [e | fd].
    + split; [discriminate|]. intros res H.
      inversion H; subst res. simpl. lia.
    + split.
      * apply obind_fuel; [apply store_fuel|].
        intros tmp _. apply cue_loop_fuel. lia.
      * intros res H. step_in H. apply cue_loop_releases in H.
        simpl in H. lia.
Qed.

(** What the locator does on a well-formed cue sheet of the shape
    FILE, AUDIO track, other track. *)
Lemma find_first_data_track_cue_text (cs : cue_sheet) (env : cue_env) :
  wf_cue_sheet cs ->
  env_init env = None ->
  env_open env = Opened (of_bytes (cue_text cs)) ->
  length (env_junk env) = MAX_TOKEN_LEN ->
  env_calloc_ok env = true ->
  find_first_data_track PATH_MAX_LENGTH fill_pathname_basedir
    fill_pathname_join cue_path max_len env
  = Ret (data_track_result (body (cs_stamp cs)) (env_errno env)
           (Some (fill_pathname_join
                    (fill_pathname_basedir cue_path PATH_MAX_LENGTH)
                    (cs_name cs) max_len))
           [Acquire TmpToken; Acquire Handle; Acquire CueDir; Release CueDir]).
Proof.
  intros Hcs Hinit Hopen Hjunk Hcalloc.
  destruct Hcs as [HwF HF Hnl Hn1 Hnr Hnz Hnlen Hsk1 Ht1 HT1 Hn Ha HA Hsk2 Hd].
  unfold find_first_data_track. rewrite Hinit, Hopen.
  rewrite store_lt by (rewrite Hjunk; unfold MAX_TOKEN_LEN; lia).
  cbn [obind]. rewrite Hcalloc.
  assert (Hfuel : exists r,
            length (of_bytes (cue_text cs))
            = (length (cs_after_file cs)
               + S (length (cs_after_audio cs) + S r))%nat).
  { exists (length (cue_text cs)
            - (length (cs_after_file cs) + length (cs_after_audio cs) + 2))%nat.
    unfold of_bytes. rewrite length_map. unfold cue_text.
    rewrite !length_app.
    pose proof (render_length (cs_after_file cs)).
    pose proof (render_length (cs_after_audio cs)).
    simpl. rewrite !length_app. simpl. lia. }
  destruct Hfuel as [r ->].
  unfold cue_text.
  destruct (cue_loop_file (cs_file cs) (cs_name_lead cs) (cs_name_first cs)
    (cs_name_rest cs)
    (length (cs_after_file cs) + S (length (cs_after_audio cs) + S r)) true
    (render (cs_after_file cs)
     ++ render [cs_track1 cs; cs_track1_no cs; cs_track1_type cs]
     ++ render (cs_after_audio cs) ++ data_track_text cs)
    (<[0%nat:=0]> (env_junk env)) (env_errno env) None
    ([Acquire TmpToken] ++ [Acquire Handle]))
    as (tmp1 & Hl1 & E1); try assumption.
  { rewrite length_insert. exact Hjunk. }
  unfold cs_name. rewrite E1. clear E1.
  match goal with |- loop _ _ _ _ _ ?tp ?ev = _ =>
    set (tp1 := tp); set (ev1 := ev) end.
  destruct (cue_loop_others (cs_after_file cs)
    (S (length (cs_after_audio cs) + S r)) true
    (render [cs_track1 cs; cs_track1_no cs; cs_track1_type cs]
     ++ render (cs_after_audio cs) ++ data_track_text cs)
    tmp1 (env_errno env) tp1 ev1 Hsk1 Hl1) as (tmp2 & Hl2 & E2).
  rewrite E2. clear E2.
  destruct (cue_loop_audio (cs_track1 cs) (cs_track1_no cs)
    (cs_track1_type cs) (length (cs_after_audio cs) + S r) true
    (render (cs_after_audio cs) ++ data_track_text cs)
    tmp2 (env_errno env) tp1 ev1) as (tmp3 & Hl3 & E3); try assumption.
  rewrite E3. clear E3.
  destruct (cue_loop_others (cs_after_audio cs) (S r) true
    (data_track_text cs) tmp3 (env_errno env) tp1 ev1 Hsk2 Hl3)
    as (tmp4 & Hl4 & E4).
  rewrite E4. clear E4.
  rewrite (cue_loop_data cs r tmp4 (env_errno env) tp1 ev1 Hd Hl4).
  reflexivity.
Qed.

(** C6: when the stamp of the first track that is not AUDIO does not
    parse, the locator leaves through its error exit, which returns
    -errno; sscanf does not set errno, so the value is the negated errno
    of the entry, 0 when no error was pending. *)
Theorem find_first_data_track_bad_stamp (cs : cue_sheet) (env : cue_env) :
  wf_cue_sheet cs ->
  fst (sscanf_msf (body (cs_stamp cs))) < 3 ->
  env_init env = None ->
  env_open env = Opened (of_bytes (cue_text cs)) ->
  length (env_junk env) = MAX_TOKEN_LEN ->
  env_calloc_ok env = true ->
  exists res,
    find_first_data_track PATH_MAX_LENGTH fill_pathname_basedir
      fill_pathname_join cue_path max_len env = Ret res /\
    cue_rv res = - env_errno env /\
    cue_offset_out res = None.
Proof.
  intros Hcs Hbad Hinit Hopen Hjunk Hcalloc.
  rewrite (find_first_data_track_cue_text cs env) by assumption.
  eexists. split; [reflexivity|].
  unfold data_track_result.
  destruct (sscanf_msf (body (cs_stamp cs))) as [n [[m s] f]].
  simpl in Hbad. destruct (Z.ltb_spec n 3); [|lia].
  split; reflexivity.
Qed.

(** C1: the terminator of a token cut at max_len is stored at index
    max_len.  With a destination of max_len bytes that store is outside
    the destination; with max_len + 1 bytes, as find_token provides, the
    call returns max_len.  find_first_data_track passes its block of
    MAX_TOKEN_LEN bytes with max_len = MAX_TOKEN_LEN, so a token of
    MAX_TOKEN_LEN bytes makes it store outside the block. *)
Theorem get_token_terminator_at_max_len (w rest token : list Z) (errno : Z)
    (env : cue_env) :
  w <> [] ->
  Forall plain w ->
  (length token = length w ->
   get_token (of_bytes (w ++ rest)) token (length w) errno = Fault) /\
  (length token = S (length w) ->
   get_token (of_bytes (w ++ rest)) token (length w) errno
   = Ret (Z.of_nat (length w), of_bytes rest, w ++ [0], errno)) /\
  (length w = MAX_TOKEN_LEN ->
   env_init env = None ->
   env_open env = Opened (of_bytes (w ++ rest)) ->
   length (env_junk env) = MAX_TOKEN_LEN ->
   find_first_data_track PATH_MAX_LENGTH fill_pathname_basedir
     fill_pathname_join cue_path max_len env = Fault).
Proof.
  intros Hne Hw.
  pose proof (get_token_cut [] w rest) as Hcut. simpl in Hcut.
  split; [|split].
  - intros Hlen. rewrite Hcut by (auto using Forall_nil).
    destruct (Nat.ltb_spec (length w) (length token)); [lia | reflexivity].
  - intros Hlen. rewrite Hcut by (auto using Forall_nil).
    destruct (Nat.ltb_spec (length w) (length token)); [|lia].
    repeat f_equal. destruct token as [|t token]; [discriminate|].
    simpl in Hlen. simpl. apply drop_ge. lia.
  - intros Hlen Hinit Hopen Hjunk.
    unfold find_first_data_track. rewrite Hinit, Hopen.
    rewrite store_lt by (rewrite Hjunk; unfold MAX_TOKEN_LEN; lia).
    cbn [obind cue_loop]. rewrite <- Hlen.
    rewrite Hcut by (auto using Forall_nil).
    rewrite length_insert, Hjunk, <- Hlen, Nat.ltb_irrefl. reflexivity.
Qed.

End CueSheetFacts.

(** *** The concrete cue sheet *)

Ltac all_bytes :=
  vm_compute;
  repeat first
    [ apply List.Forall_nil
    | apply List.Forall_cons;
      [ first [ reflexivity | discriminate
              | split; [reflexivity | discriminate] ] | ] ].

Ltac wf_word_tac :=
  constructor;
  [ all_bytes | vm_compute; discriminate | all_bytes | all_bytes
  | apply Nat.ltb_lt; vm_compute; reflexivity | vm_compute; reflexivity ].

Ltac passed_over_tac :=
  split; [wf_word_tac | split; vm_compute; discriminate].

Lemma example_cue_wf (stamp : string) :
  wf_word (mk_word [] stamp 10) -> wf_cue_sheet (example_cue stamp).
Proof.
  intros Hstamp. constructor.
  - wf_word_tac.
  - reflexivity.
  - all_bytes.
  - split; [reflexivity | discriminate].
  - all_bytes.
  - all_bytes.
  - apply Nat.ltb_lt; vm_compute; reflexivity.
  - repeat (apply List.Forall_cons; [passed_over_tac|]). apply List.Forall_nil.
  - wf_word_tac.
  - reflexivity.
  - wf_word_tac.
  - wf_word_tac.
  - reflexivity.
  - repeat (apply List.Forall_cons; [passed_over_tac|]). apply List.Forall_nil.
  - constructor.
    + wf_word_tac.
    + reflexivity.
    + wf_word_tac.
    + wf_word_tac.
    + vm_compute; discriminate.
    + all_bytes.
    + wf_word_tac.
    + exact Hstamp.
Qed.

Lemma example_stamp_0200_wf : wf_word (mk_word [] "00:02:00" 10).
Proof. wf_word_tac. Qed.

Lemma example_stamp_bad_wf : wf_word (mk_word [] "0x:02:00" 10).
Proof. wf_word_tac. Qed.

Lemma get_token_terminator_at_max_len_witness :
  get_token (of_bytes (replicate 255 65)) (replicate 255 0) 255 0 = Fault /\
  get_token (of_bytes (replicate 255 65)) (replicate 256 0) 255 0
    = Ret (255, [], replicate 255 65 ++ [0], 0) /\
  find_first_data_track 4096 example_basedir example_join
    (bytes "roms/game.cue") 4096 (example_env (replicate 255 65) 0) = Fault.
Proof.
  destruct (get_token_terminator_at_max_len 4096 example_basedir example_join
              (bytes "roms/game.cue") 4096 (replicate 255 65) []
              (replicate 255 0) 0 (example_env (replicate 255 65 ++ []) 0))
    as (A & _ & C).
  { discriminate. }
  { apply Forall_replicate. split; [reflexivity | discriminate]. }
  destruct (get_token_terminator_at_max_len 4096 example_basedir example_join
              (bytes "roms/game.cue") 4096 (replicate 255 65) []
              (replicate 256 0) 0 (example_env (replicate 255 65 ++ []) 0))
    as (_ & B & _).
  { discriminate. }
  { apply Forall_replicate. split; [reflexivity | discriminate]. }
  split; [exact (A eq_refl) | split; [exact (B eq_refl) |]].
  exact (C eq_refl eq_refl eq_refl eq_refl).
Defined.

Lemma find_first_data_track_init_failure_leaks_witness :
  (exists res,
     find_first_data_track 4096 example_basedir example_join
       (bytes "roms/game.cue") 4096
       {| env_init := Some 12; env_open := OpenFail 2;
          env_junk := replicate MAX_TOKEN_LEN 0; env_calloc_ok := true;
          env_errno := 0 |} = Ret res /\
     cue_rv res = - 12 /\
     held TmpToken (cue_events res) = 1) /\
  (held TmpToken [Acquire TmpToken; Acquire Handle;
                  Release TmpToken; Release Handle] = 0 /\
   held Handle [Acquire TmpToken; Acquire Handle;
                Release TmpToken; Release Handle] = 0 /\
   held CueDir [Acquire TmpToken; Acquire Handle;
                Release TmpToken; Release Handle] = 0).
Proof.
  destruct (find_first_data_track_init_failure_leaks 4096 example_basedir
              example_join (bytes "roms/game.cue") 4096) as [A B].
  split.
  - apply (A _ 12). reflexivity.
  - apply (proj2 (B {| env_init := None; env_open := OpenFail 2;
                       env_junk := replicate MAX_TOKEN_LEN 0;
                       env_calloc_ok := true; env_errno := 0 |} eq_refl)
             {| cue_rv := - 2; cue_offset_out := None; cue_track_path := None;
                cue_errno := 2;
                cue_events := [Acquire TmpToken; Acquire Handle;
                               Release TmpToken; Release Handle] |}).
    reflexivity.
Defined.

Lemma find_first_data_track_bad_stamp_witness :
  exists res,
    find_first_data_track 4096 example_basedir example_join
      (bytes "roms/game.cue") 4096
      (example_env (cue_text (example_cue "0x:02:00")) 0) = Ret res /\
    cue_rv res = - 0 /\
    cue_offset_out res = None.
Proof.
  apply (find_first_data_track_bad_stamp 4096 example_basedir example_join
           (bytes "roms/game.cue") 4096 (example_cue "0x:02:00")
           (example_env (cue_text (example_cue "0x:02:00")) 0)).
  - apply example_cue_wf, example_stamp_bad_wf.
  - vm_compute. reflexivity.
  - reflexivity.
  - reflexivity.
  - reflexivity.
  - reflexivity.
Defined.

(** ** Random-access streams *)

Lemma store_bytes_fit (buf data : list Z) :
  (length data <= length buf)%nat ->
  store_bytes buf data = Ret (data ++ drop (length data) buf).
Proof.
  intros H. unfold store_bytes.
  destruct (Nat.leb_spec (length data) (length buf)); [reflexivity | lia].
Qed.

Lemma store_bytes_length (buf data buf' : list Z) :
  store_bytes buf data = Ret buf' -> length buf' = length buf.
Proof.
  unfold store_bytes.
  destruct (Nat.leb_spec (length data) (length buf)); [|discriminate].
  intros E. inversion E. rewrite length_app, length_drop. lia.
Qed.

(** A seek followed by a read that delivers data. *)
Lemma seek_read_data (fd : intfstream) (off : Z) (n : nat) (bs buf : list Z)
    (errno : Z) :
  st_read_at fd off n = RdData bs ->
  (length (take n bs) <= length buf)%nat ->
  exists fd',
    intfstream_read (intfstream_seek fd off SEEK_SET) buf n errno
    = Ret (Z.of_nat (length (take n bs)), fd',
           take n bs ++ drop (length (take n bs)) buf, errno) /\
    st_read_at fd' = st_read_at fd /\
    st_size fd' = st_size fd /\
    st_seeks fd' = st_seeks fd ++ [off].
Proof.
  intros Hrd Hfit. unfold intfstream_read, intfstream_seek.
  cbn [st_read_at st_pos st_size st_seeks]. rewrite Hrd.
  rewrite store_bytes_fit by exact Hfit. cbn [obind].
  eexists. split; [reflexivity|]. auto.
Qed.

(** A seek followed by a read that fails. *)
Lemma seek_read_fail (fd : intfstream) (off : Z) (n : nat) (e : Z)
    (buf : list Z) (errno : Z) :
  st_read_at fd off n = RdFail e ->
  exists fd',
    intfstream_read (intfstream_seek fd off SEEK_SET) buf n errno
    = Ret (-1, fd', buf, e) /\
    st_read_at fd' = st_read_at fd /\
    st_size fd' = st_size fd /\
    st_seeks fd' = st_seeks fd ++ [off].
Proof.
  intros Hrd. unfold intfstream_read, intfstream_seek.
  cbn [st_read_at st_pos st_size st_seeks]. rewrite Hrd.
  eexists. split; [reflexivity|]. auto.
Qed.

Lemma rule_matches_ext (fd fd' : intfstream) (e : magic_entry) :
  st_read_at fd' = st_read_at fd -> rule_matches fd' e <-> rule_matches fd e.
Proof. intros H. unfold rule_matches. rewrite H. reflexivity. Qed.

(** ** The signature matcher *)

(** A rule whose pattern is found ends the loop with its name. *)
Lemma detect_system_loop_hit (e : magic_entry) (tbl : list magic_entry)
    (fd : intfstream) (magic : list Z) (errno : Z) :
  length magic = MAGIC_LEN ->
  length (me_magic e) = MAGIC_LEN ->
  rule_matches fd e ->
  exists name fd',
    me_system_name e = Some name /\
    detect_system_loop (e :: tbl) fd magic errno
      = Ret (0, Some name, fd', errno) /\
    st_seeks fd' = st_seeks fd ++ [me_offset e].
Proof.
  intros Hmagic Hlen [Hname (bs & Hrd & Hbs)].
  destruct (me_system_name e) as [name|] eqn:En; [|congruence].
  assert (Hl : length (take MAGIC_LEN bs) = MAGIC_LEN) by congruence.
  destruct (seek_read_data fd (me_offset e) MAGIC_LEN bs magic errno Hrd)
    as (fd' & E & _ & _ & Hseeks); [lia|].
  exists name, fd'. split; [reflexivity|]. split; [|exact Hseeks].
  cbn [detect_system_loop]. rewrite En, E. cbn [obind].
  rewrite Hl, Z.ltb_irrefl.
  unfold string_is_equal_fast.
  rewrite length_app, length_drop, Hl, Hmagic, Hlen.
  replace (MAGIC_LEN + (MAGIC_LEN - MAGIC_LEN))%nat with MAGIC_LEN by lia.
  rewrite Nat.leb_refl. cbn [andb obind].
  rewrite take_app_length' by (symmetry; exact Hl).
  rewrite Hbs, <- Hlen, firstn_all, bytes_eqb_refl. reflexivity.
Qed.

(** A rule whose pattern is read in full and differs is passed. *)
Lemma detect_system_loop_pass (e : magic_entry) (tbl : list magic_entry)
    (fd : intfstream) (magic : list Z) (errno : Z) (bs : list Z) :
  length magic = MAGIC_LEN ->
  named e ->
  st_read_at fd (me_offset e) MAGIC_LEN = RdData bs ->
  length (take MAGIC_LEN bs) = MAGIC_LEN ->
  take MAGIC_LEN bs <> me_magic e ->
  exists fd' magic',
    detect_system_loop (e :: tbl) fd magic errno
      = detect_system_loop tbl fd' magic' errno /\
    length magic' = MAGIC_LEN /\
    st_read_at fd' = st_read_at fd /\
    st_seeks fd' = st_seeks fd ++ [me_offset e].
Proof.
  intros Hmagic [Hname Hlen] Hrd Hl Hne.
  destruct (me_system_name e) as [name|] eqn:En; [|congruence].
  destruct (seek_read_data fd (me_offset e) MAGIC_LEN bs magic errno Hrd)
    as (fd' & E & Hrd' & _ & Hseeks); [lia|].
  exists fd', (take MAGIC_LEN bs ++ drop (length (take MAGIC_LEN bs)) magic).
  split; [|split; [|split]]; try assumption.
  - cbn [detect_system_loop]. rewrite En, E. cbn [obind].
    rewrite Hl, Z.ltb_irrefl.
    unfold string_is_equal_fast.
    rewrite length_app, length_drop, Hl, Hmagic, Hlen.
    replace (MAGIC_LEN + (MAGIC_LEN - MAGIC_LEN))%nat with MAGIC_LEN by lia.
    rewrite Nat.leb_refl. cbn [andb obind].
    rewrite take_app_length' by (symmetry; exact Hl).
    rewrite <- Hlen at 1. rewrite firstn_all.
    rewrite bytes_eqb_neq by congruence. reflexivity.
  - rewrite length_app, length_drop, Hl, Hmagic. lia.
Qed.

Lemma intfstream_read_inv (fd : intfstream) (buf : list Z) (n : nat)
    (errno r : Z) (fd' : intfstream) (buf' : list Z) (errno' : Z) :
  intfstream_read fd buf n errno = Ret (r, fd', buf', errno') ->
  st_read_at fd' = st_read_at fd /\
  st_size fd' = st_size fd /\
  st_seeks fd' = st_seeks fd /\
  length buf' = length buf /\
  ((exists e, st_read_at fd (st_pos fd) n = RdFail e /\ r = -1 /\
              buf' = buf /\ errno' = e) \/
   (exists bs, st_read_at fd (st_pos fd) n = RdData bs /\
               r = Z.of_nat (length (take n bs)) /\
               buf' = take n bs ++ drop (length (take n bs)) buf /\
               errno' = errno)).
Proof.
  unfold intfstream_read. intros H.
  destruct (st_read_at fd (st_pos fd) n) as [e | bs] eqn:Hrd.
  - inversion H; subst. repeat split; auto. left. eauto.
  - step_in H. inversion H; subst. cbn [st_read_at st_size st_seeks].
    pose proof (store_bytes_length _ _ _ E) as Hl.
    unfold store_bytes in E.
    destruct (length (take n bs) <=? length buf)%nat; [|discriminate].
    inversion E; subst. repeat split; auto. right. eauto.
Qed.

(** The stream after the PSP GAME probe. *)
Lemma detect_system_fallback_seeks (fd : intfstream) (magic : list Z)
    (errno rv : Z) (name : option string) (fd' : intfstream) (errno' : Z) :
  detect_system_fallback fd magic errno = Ret (rv, name, fd', errno') ->
  st_seeks fd' = st_seeks fd ++ [0x8008].
Proof.
  unfold detect_system_fallback. intros H.
  step_in H. destruct a as [[[n fd1] magic1] errno1].
  apply intfstream_read_inv in E. destruct E as (_ & _ & Hs & _).
  cbn [intfstream_seek st_seeks] in Hs.
  repeat step_in H; inversion H; subst; exact Hs.
Qed.

(** Where the loop over a table can have looked when it returns: at the
    rules up to the one it returned at, or at all the rules, none of
    which matched, and then at the place of the PSP GAME probe. *)
Lemma detect_system_loop_probes (tbl : list magic_entry) :
  forall (fd : intfstream) (magic : list Z) (errno rv : Z)
         (name : option string) (fd' : intfstream) (errno' : Z),
    length magic = MAGIC_LEN ->
    detect_system_loop tbl fd magic errno = Ret (rv, name, fd', errno') ->
    exists probes,
      st_seeks fd' = st_seeks fd ++ probes /\
      ((exists pre e post,
          tbl = pre ++ e :: post /\ probes = map me_offset (pre ++ [e])) \/
       (exists pre s post,
          tbl = pre ++ s :: post /\ me_system_name s = None /\
          Forall (fun e => ~ rule_matches fd e) pre /\
          probes = map me_offset pre ++ [0x8008])).
Proof.
  induction tbl as [|e tbl IH]; intros fd magic errno rv name fd' errno'
    Hmagic H; [discriminate|].
  cbn [detect_system_loop] in H.
  destruct (me_system_name e) as [nm|] eqn:En.
  2:{ exists [0x8008]. split.
      - eapply detect_system_fallback_seeks. exact H.
      - right. exists [], e, tbl. repeat split; auto. }
  step_in H. destruct a as [[[n fd1] magic1] errno1].
  apply intfstream_read_inv in E.
  destruct E as (Hrd1 & _ & Hs1 & Hl1 & Hcase).
  cbn [intfstream_seek st_seeks st_read_at st_pos] in Hs1, Hrd1, Hcase.
  assert (Hhere : exists probes,
            st_seeks fd1 = st_seeks fd ++ probes /\
            ((exists pre e0 post,
                e :: tbl = pre ++ e0 :: post /\
                probes = map me_offset (pre ++ [e0])) \/
             (exists pre s post,
                e :: tbl = pre ++ s :: post /\ me_system_name s = None /\
                Forall (fun e => ~ rule_matches fd e) pre /\
                probes = map me_offset pre ++ [0x8008]))).
  { exists [me_offset e]. split; [exact Hs1|].
    left. exists [], e, tbl. auto. }
  step_in H.
  { inversion H; subst. exact Hhere. }
  step_in H. step_in H.
  { inversion H; subst. exact Hhere. }
  clear Hhere.
  destruct (IH fd1 magic1 errno1 rv name fd' errno') as (probes & Hs & Hc);
    [congruence | exact H |].
  exists (me_offset e :: probes). split.
  { rewrite Hs, Hs1, <- app_assoc. reflexivity. }
  destruct Hc as [(pre & e0 & post & Ht & Hp) | (pre & s & post & Ht & Hn & Hall & Hp)].
  - left. exists (e :: pre), e0, post. subst. auto.
  - right. exists (e :: pre), s, post. subst.
    repeat split; auto.
    constructor.
    + (* the rule just tested does not match *)
      intros [_ (bs & Hrd & Hbs)].
      destruct Hcase as [(x & Hx & _) | (bs' & Hx & Hn' & Hm & _)];
        [congruence|].
      rewrite Hrd in Hx. inversion Hx; subst bs'.
      apply Z.ltb_ge in E.
      assert (Hlen : length (take MAGIC_LEN bs) = MAGIC_LEN).
      { pose proof (length_take_le bs MAGIC_LEN) as Hle. rewrite length_take in *. lia. }
      unfold string_is_equal_fast in E0.
      destruct ((MAGIC_LEN <=? length (me_magic e))%nat
                && (MAGIC_LEN <=? length magic1)%nat); [|discriminate].
      inversion E0 as [Heq]. clear E0.
      subst magic1. rewrite take_app_length' in Heq by (symmetry; exact Hlen).
      rewrite Hbs in Heq.
      rewrite take_ge in Heq by (rewrite <- Hbs, Hlen; lia).
      rewrite bytes_eqb_refl in Heq. discriminate.
    + eapply Forall_impl; [exact Hall|]. intros x Hx Hm. apply Hx.
      apply (rule_matches_ext fd fd1); assumption.
Qed.

Lemma intfstream_read_returns (fd : intfstream) (buf : list Z) (n : nat)
    (errno : Z) :
  (n <= length buf)%nat ->
  exists r fd' buf' errno',
    intfstream_read fd buf n errno = Ret (r, fd', buf', errno') /\
    length buf' = length buf.
Proof.
  intros Hn. unfold intfstream_read.
  destruct (st_read_at fd (st_pos fd) n) as [e | bs].
  - eexists _, _, _, _. split; reflexivity.
  - rewrite store_bytes_fit by (rewrite length_take; lia). cbn [obind].
    eexists _, _, _, _. split; [reflexivity|].
    rewrite length_app, length_drop, length_take. lia.
Qed.

Lemma detect_system_fallback_returns (fd : intfstream) (magic : list Z)
    (errno : Z) :
  length magic = MAGIC_LEN ->
  exists r, detect_system_fallback fd magic errno = Ret r.
Proof.
  intros Hmagic. unfold detect_system_fallback.
  destruct (intfstream_read_returns (intfstream_seek fd 32776 SEEK_SET) magic
              8 errno) as (r & fd' & magic' & errno' & E & Hl).
  { rewrite Hmagic. unfold MAGIC_LEN. lia. }
  rewrite E. cbn [obind].
  destruct (0 <? r); [|eauto].
  rewrite store_lt by (rewrite Hl, Hmagic; unfold MAGIC_LEN; lia).
  cbn [obind].
  destruct (lookup_lt_is_Some_2 (<[8%nat:=0]> magic') 0) as [c Hc].
  { rewrite length_insert, Hl, Hmagic. unfold MAGIC_LEN. lia. }
  unfold string_is_empty. rewrite (load_lookup _ _ _ Hc). cbn [obind].
  destruct (c =? 0); [eauto|].
  destruct (cstr_head (<[8%nat:=0]> magic') 8) as (s & Hs & _).
  { apply list_lookup_insert_eq. rewrite Hl, Hmagic. unfold MAGIC_LEN. lia. }
  unfold string_is_equal. rewrite Hs. cbn [obind].
  destruct (bytes_eqb s PSP_GAME_lit); eauto.
Qed.

(** On a table of rules proper that ends with the NULL entry, the loop
    returns. *)
Lemma detect_system_loop_returns (tbl : list magic_entry) :
  forall (fd : intfstream) (magic : list Z) (errno : Z),
    length magic = MAGIC_LEN ->
    Forall (fun e => me_system_name e = None \/ named e) tbl ->
    Exists (fun e => me_system_name e = None) tbl ->
    exists r, detect_system_loop tbl fd magic errno = Ret r.
Proof.
  induction tbl as [|e tbl IH]; intros fd magic errno Hmagic Hall Hex.
  - inversion Hex.
  - cbn [detect_system_loop].
    destruct (me_system_name e) as [name|] eqn:En.
    2:{ apply detect_system_fallback_returns. exact Hmagic. }
    inversion Hall as [|? ? [Hnone | [_ Hlen]] Hall']; subst; [congruence|].
    inversion Hex as [? ? Hnone | ? ? Hex']; subst; [congruence|].
    destruct (intfstream_read_returns
                (intfstream_seek fd (me_offset e) SEEK_SET) magic MAGIC_LEN
                errno) as (r & fd' & magic' & errno' & E & Hl); [lia|].
    rewrite E. cbn [obind].
    destruct (r <? Z.of_nat MAGIC_LEN); [eauto|].
    unfold string_is_equal_fast. rewrite Hlen, Hl, Hmagic, Nat.leb_refl.
    cbn [andb obind].
    destruct (bytes_eqb (take MAGIC_LEN (me_magic e)) (take MAGIC_LEN magic'));
      [eauto|].
    apply IH; [congruence | exact Hall' | exact Hex'].
Qed.

Lemma ps1_scd_exclusive (fd : intfstream) :
  rule_matches fd rule_ps1 -> rule_matches fd rule_scd -> False.
Proof.
  intros [_ (bs & Hrd & Hbs)] [_ (bs' & Hrd' & Hbs')].
  cbn [me_offset rule_ps1 rule_scd] in Hrd, Hrd'.
  rewrite Hrd in Hrd'. inversion Hrd'; subst bs'.
  rewrite Hbs in Hbs'. discriminate.
Qed.

Lemma rule_end_no_match (fd : intfstream) : ~ rule_matches fd rule_end.
Proof. intros [H _]. apply H. reflexivity. Qed.

(** C5: when two rules of the table match the stream, detect_system
    returns 0 with the name of the first rule of the table that matches,
    after looking only at the offsets of the rules up to that one; it
    returns on every stream; and whenever it has looked at the place of
    the PSP GAME probe, no rule of the table matches. *)
Theorem detect_system_first_match (fd : intfstream) (magic : list Z)
    (errno : Z) :
  length magic = MAGIC_LEN ->
  (forall e1 e2 : magic_entry,
     e1 ∈ MAGIC_NUMBERS -> e2 ∈ MAGIC_NUMBERS -> e1 <> e2 ->
     rule_matches fd e1 -> rule_matches fd e2 ->
     exists pre e post name fd',
       MAGIC_NUMBERS = pre ++ e :: post /\
       rule_matches fd e /\
       Forall (fun x => ~ rule_matches fd x) pre /\
       me_system_name e = Some name /\
       detect_system fd magic errno = Ret (0, Some name, fd', errno) /\
       st_seeks fd' = st_seeks fd ++ map me_offset (pre ++ [e])) /\
  (exists r, detect_system fd magic errno = Ret r) /\
  (forall (rv : Z) (name : option string) (fd' : intfstream) (errno' : Z),
     detect_system fd magic errno = Ret (rv, name, fd', errno') ->
     exists probes,
       st_seeks fd' = st_seeks fd ++ probes /\
       (0x8008 ∈ probes ->
        forall e, e ∈ MAGIC_NUMBERS -> ~ rule_matches fd e)).
Proof.
  intros Hmagic. split; [|split].
  - intros e1 e2 H1 H2 Hne M1 M2.
    assert (Hcases : rule_matches fd rule_ps1 \/
                     (~ rule_matches fd rule_ps1 /\
                      rule_matches fd rule_pcecd /\ rule_matches fd rule_scd)).
    { unfold MAGIC_NUMBERS in H1, H2.
      repeat (apply elem_of_cons in H1 as [-> | H1]);
        try (apply elem_of_nil in H1; contradiction);
        repeat (apply elem_of_cons in H2 as [-> | H2]);
        try (apply elem_of_nil in H2; contradiction);
        try congruence; auto;
        try (exfalso; eapply rule_end_no_match; eassumption);
        try (exfalso; eapply ps1_scd_exclusive; eassumption);
        right; (split; [|auto]);
        intros M0; eapply ps1_scd_exclusive; eassumption. }
    destruct Hcases as [M | (NM & Mp & Ms)].
    + destruct (detect_system_loop_hit rule_ps1
                  [rule_pcecd; rule_scd; rule_end] fd magic errno Hmagic
                  eq_refl M) as (name & fd' & Hn & E & Hs).
      exists [], rule_ps1, [rule_pcecd; rule_scd; rule_end], name, fd'.
      split; [reflexivity|]. split; [exact M|].
      split; [constructor|]. split; [exact Hn|].
      split; [exact E | exact Hs].
    + destruct Ms as [_ (bs & Hrd & Hbs)].
      destruct (detect_system_loop_pass rule_ps1
                  [rule_pcecd; rule_scd; rule_end] fd magic errno bs Hmagic)
        as (fd1 & magic1 & E1 & Hl1 & Hrd1 & Hs1).
      { split; [discriminate | reflexivity]. }
      { exact Hrd. }
      { rewrite Hbs. reflexivity. }
      { rewrite Hbs. discriminate. }
      destruct (detect_system_loop_hit rule_pcecd [rule_scd; rule_end]
                  fd1 magic1 errno Hl1 eq_refl) as (name & fd' & Hn & E & Hs).
      { apply (rule_matches_ext fd fd1); assumption. }
      exists [rule_ps1], rule_pcecd, [rule_scd; rule_end], name, fd'.
      split; [reflexivity|]. split; [exact Mp|].
      split; [repeat constructor; exact NM|]. split; [exact Hn|].
      split.
      * unfold detect_system, detect_system_with, MAGIC_NUMBERS.
        rewrite E1. exact E.
      * rewrite Hs, Hs1, <- app_assoc. reflexivity.
  - apply detect_system_loop_returns; [exact Hmagic| |].
    + repeat (apply List.Forall_cons;
              [first [left; reflexivity
                     | right; split; [discriminate | reflexivity]]|]).
      apply List.Forall_nil.
    + do 3 apply Exists_cons_tl. apply Exists_cons_hd. reflexivity.
  - intros rv name fd' errno' H.
    destruct (detect_system_loop_probes MAGIC_NUMBERS fd magic errno rv name
                fd' errno' Hmagic H) as (probes & Hs & Hc).
    exists probes. split; [exact Hs|].
    intros Hin e He.
    destruct Hc as [(pre & e0 & post & Ht & Hp)
                   | (pre & s & post & Ht & Hn & Hall & Hp)].
    + exfalso. subst probes. unfold MAGIC_NUMBERS in Ht.
      destruct pre as [|p0 [|p1 [|p2 [|p3 pre]]]]; inversion Ht; subst;
        try (destruct pre; discriminate);
        cbn in Hin;
        repeat (apply elem_of_cons in Hin as [Hin | Hin]; [discriminate|]);
        apply elem_of_nil in Hin; exact Hin.
    + unfold MAGIC_NUMBERS in Ht, He.
      destruct pre as [|p0 [|p1 [|p2 [|p3 pre]]]]; inversion Ht; subst;
        try discriminate; try (destruct pre; discriminate).
      repeat (apply elem_of_cons in He as [-> | He]);
        try (apply elem_of_nil in He; contradiction).
      * inversion Hall; subst; assumption.
      * inversion Hall as [|? ? _ Hall']; subst.
        inversion Hall'; subst; assumption.
      * inversion Hall as [|? ? _ Hall']; subst.
        inversion Hall' as [|? ? _ Hall'']; subst.
        inversion Hall''; subst; assumption.
      * apply rule_end_no_match.
Qed.

Lemma detect_system_first_match_witness :
  (exists pre e post name fd',
     MAGIC_NUMBERS = pre ++ e :: post /\
     rule_matches example_both_stream e /\
     Forall (fun x => ~ rule_matches example_both_stream x) pre /\
     me_system_name e = Some name /\
     detect_system example_both_stream (replicate 17 0) 0
       = Ret (0, Some name, fd', 0) /\
     st_seeks fd' = st_seeks example_both_stream ++ map me_offset (pre ++ [e]))
  /\
  (exists probes,
     [0; 0x838840; 0; 0x8008] = st_seeks example_blank_stream ++ probes /\
     (0x8008 ∈ probes ->
      forall e, e ∈ MAGIC_NUMBERS -> ~ rule_matches example_blank_stream e)).
Proof.
  split.
  - destruct (detect_system_first_match example_both_stream (replicate 17 0) 0
                eq_refl) as (A & _ & _).
    apply (A rule_ps1 rule_pcecd).
    + apply list_elem_of_here.
    + apply list_elem_of_further, list_elem_of_here.
    + discriminate.
    + split; [discriminate|]. eexists. split; reflexivity.
    + split; [discriminate|]. eexists. split; reflexivity.
  - destruct (detect_system_first_match example_blank_stream (replicate 17 0) 0
                eq_refl) as (_ & _ & B).
    eapply (B (- EINVAL) None
              {| st_read_at := st_read_at example_blank_stream;
                 st_size := st_size example_blank_stream;
                 st_pos := 0x8008 + 8;
                 st_seeks := [0; 0x838840; 0; 0x8008] |} 0).
    reflexivity.
Defined.

(** ** The PSP scanner *)

Lemma file_stream_read_at (content : list Z) (p : Z) (n : nat) :
  0 <= p ->
  st_read_at (file_stream content) p n = RdData (take n (bytes_at content p)).
Proof.
  intros Hp. cbn [file_stream st_read_at].
  destruct (Z.ltb_spec p 0); [lia | reflexivity].
Qed.

Lemma bytes_at_length (content : list Z) (p : Z) :
  0 <= p -> length (bytes_at content p) = (length content - Z.to_nat p)%nat.
Proof. intros Hp. unfold bytes_at. apply length_drop. Qed.

Lemma existsb_bytes_eqb_false (s : list Z) (l : list (list Z)) :
  s ∉ l -> existsb (bytes_eqb s) l = false.
Proof.
  induction l as [|x l IH]; intros Hs; [reflexivity|].
  simpl. rewrite bytes_eqb_neq.
  - apply IH. intros H. apply Hs. right. exact H.
  - intros ->. apply Hs. left.
Qed.

Lemma existsb_bytes_eqb_true (s : list Z) (l : list (list Z)) :
  s ∈ l -> existsb (bytes_eqb s) l = true.
Proof.
  induction 1 as [x l | x y l H IH]; simpl.
  - rewrite bytes_eqb_refl. reflexivity.
  - rewrite IH. apply orb_true_r.
Qed.

(** The string at the head of a buffer that holds [bs] and then a NUL is
    [bs] or, when [bs] contains a NUL, a proper prefix of it. *)
Lemma cstr_app_nul_prefix (bs rest : list Z) :
  exists s, cstr (bs ++ 0 :: rest) = Ret s /\
            (s = bs \/ ((length s < length bs)%nat /\ 0 ∈ bs)).
Proof.
  induction bs as [|c bs IH]; simpl.
  - exists []. auto.
  - destruct (Z.eqb_spec c 0) as [-> | Hc].
    + exists []. split; [reflexivity|]. right. split; [simpl; lia | left].
    + destruct IH as (s & -> & Hs). exists (c :: s). split; [reflexivity|].
      destruct Hs as [-> | [Hl Hin]]; [auto|].
      right. split; [simpl; lia | right; exact Hin].
Qed.

Lemma psp_prefixes_shape :
  Forall (fun x => length x = 5%nat /\ 0 ∉ x) PSP_PREFIXES.
Proof.
  unfold PSP_PREFIXES.
  repeat (apply List.Forall_cons;
          [split; [reflexivity|];
           intros H;
           repeat (apply elem_of_cons in H as [H | H]; [discriminate|]);
           apply elem_of_nil in H; exact H|]).
  apply List.Forall_nil.
Qed.

(** The test on the five bytes just read. *)
Lemma psp_prefix_test_full (bs rest : list Z) :
  length bs = 5%nat ->
  psp_prefix_test (bs ++ 0 :: rest) = Ret (bool_decide (bs ∈ PSP_PREFIXES)).
Proof.
  intros Hl. unfold psp_prefix_test.
  destruct (cstr_app_nul_prefix bs rest) as (s & -> & Hs). cbn [obind].
  f_equal. pose proof psp_prefixes_shape as Hshape.
  rewrite Forall_forall in Hshape.
  destruct Hs as [-> | [Hlt H0]].
  - destruct (decide (bs ∈ PSP_PREFIXES)) as [Hin | Hout].
    + rewrite bool_decide_eq_true_2 by exact Hin.
      apply existsb_bytes_eqb_true, Hin.
    + rewrite bool_decide_eq_false_2 by exact Hout.
      apply existsb_bytes_eqb_false, Hout.
  - rewrite bool_decide_eq_false_2.
    + apply existsb_bytes_eqb_false. intros Hin.
      apply Hshape in Hin. lia.
    + intros Hin. apply Hshape in Hin. tauto.
Qed.

(** One probe of the PSP scanner on a file, at an offset where five
    bytes are there and are not a listed prefix. *)
Lemma psp_loop_miss (content : list Z) (n : nat) (pos : Z) (fd : intfstream)
    (game_id : list Z) (errno : Z) :
  st_read_at fd = st_read_at (file_stream content) ->
  0 <= pos ->
  (Z.to_nat pos + 5 <= length content)%nat ->
  ~ psp_prefix_at content pos ->
  (6 <= length game_id)%nat ->
  exists fd' game_id',
    psp_loop (S n) pos fd game_id errno
      = psp_loop n (pos + 1) fd' game_id' errno /\
    st_read_at fd' = st_read_at fd /\
    st_seeks fd' = st_seeks fd ++ [pos] /\
    length game_id' = length game_id /\
    drop 6 game_id' = drop 6 game_id.
Proof.
  intros Hfd Hpos Hfull Hmiss Hcap.
  assert (Hrd : st_read_at fd pos 5 = RdData (take 5 (bytes_at content pos))).
  { rewrite Hfd. apply file_stream_read_at. exact Hpos. }
  assert (Hl : length (take 5 (bytes_at content pos)) = 5%nat).
  { rewrite length_take, bytes_at_length by exact Hpos. lia. }
  destruct (seek_read_data fd pos 5 _ game_id errno Hrd)
    as (fd' & E & Hrd' & _ & Hseeks).
  { rewrite take_take, Nat.min_id. lia. }
  rewrite take_take, Nat.min_id, Hl in E.
  destruct (drop 5 game_id) as [|g5 tail] eqn:Hdrop.
  { apply (f_equal length) in Hdrop. rewrite length_drop in Hdrop.
    simpl in Hdrop. lia. }
  exists fd', (take 5 (bytes_at content pos) ++ 0 :: tail).
  split; [|split; [exact Hrd' | split; [exact Hseeks | split]]].
  - cbn [psp_loop]. rewrite E. cbn [obind].
    change (0 <? Z.of_nat 5) with true. cbv iota.
    rewrite store_app_at by (assumption || discriminate). cbn [obind].
    change (drop 1 (g5 :: tail)) with tail.
    rewrite psp_prefix_test_full by exact Hl. cbn [obind].
    rewrite bool_decide_eq_false_2 by exact Hmiss. reflexivity.
  - rewrite length_app, Hl. simpl.
    apply (f_equal length) in Hdrop. rewrite length_drop in Hdrop.
    simpl in Hdrop. lia.
  - rewrite drop_app_ge by lia. rewrite Hl.
    change (drop (6 - 5) (0 :: tail)) with tail.
    replace (drop 6 game_id) with (drop 1 (drop 5 game_id))
      by (rewrite drop_drop; reflexivity).
    rewrite Hdrop. reflexivity.
Qed.

(** The probe at an offset where a listed prefix stands, with ten bytes
    there. *)
Lemma psp_loop_hit (content : list Z) (n : nat) (pos : Z) (fd : intfstream)
    (game_id : list Z) (errno : Z) :
  st_read_at fd = st_read_at (file_stream content) ->
  0 <= pos ->
  (Z.to_nat pos + 10 <= length content)%nat ->
  psp_prefix_at content pos ->
  (11 <= length game_id)%nat ->
  exists fd',
    psp_loop (S n) pos fd game_id errno
      = Ret (true, fd',
             take 10 (bytes_at content pos) ++ 0 :: drop 11 game_id, errno) /\
    st_seeks fd' = st_seeks fd ++ [pos; pos].
Proof.
  intros Hfd Hpos Hfull Hhit Hcap.
  assert (Hrd : st_read_at fd pos 5 = RdData (take 5 (bytes_at content pos))).
  { rewrite Hfd. apply file_stream_read_at. exact Hpos. }
  assert (Hl : length (take 5 (bytes_at content pos)) = 5%nat).
  { rewrite length_take, bytes_at_length by exact Hpos. lia. }
  destruct (seek_read_data fd pos 5 _ game_id errno Hrd)
    as (fd1 & E1 & Hrd1 & _ & Hseeks1).
  { rewrite take_take, Nat.min_id. lia. }
  rewrite take_take, Nat.min_id, Hl in E1.
  destruct (drop 5 game_id) as [|g5 tail] eqn:Hdrop.
  { apply (f_equal length) in Hdrop. rewrite length_drop in Hdrop.
    simpl in Hdrop. lia. }
  assert (Htail : length tail = (length game_id - 6)%nat).
  { apply (f_equal length) in Hdrop. rewrite length_drop in Hdrop.
    simpl in Hdrop. lia. }
  set (g1 := take 5 (bytes_at content pos) ++ 0 :: tail).
  assert (Hrd10 : st_read_at fd1 pos 10
                  = RdData (take 10 (bytes_at content pos))).
  { rewrite Hrd1, Hfd. apply file_stream_read_at. exact Hpos. }
  assert (Hl10 : length (take 10 (bytes_at content pos)) = 10%nat).
  { rewrite length_take, bytes_at_length by exact Hpos. lia. }
  assert (Hg1 : length g1 = length game_id).
  { unfold g1. rewrite length_app, Hl. simpl. lia. }
  destruct (seek_read_data fd1 pos 10 _ g1 errno Hrd10)
    as (fd2 & E2 & _ & _ & Hseeks2).
  { rewrite take_take, Nat.min_id. lia. }
  rewrite take_take, Nat.min_id, Hl10 in E2.
  exists fd2. split.
  - cbn [psp_loop]. rewrite E1. cbn [obind].
    change (0 <? Z.of_nat 5) with true. cbv iota.
    rewrite store_app_at by (assumption || discriminate). cbn [obind].
    change (drop 1 (g5 :: tail)) with tail. fold g1.
    unfold g1 at 1. rewrite psp_prefix_test_full by exact Hl. cbn [obind].
    rewrite bool_decide_eq_true_2 by exact Hhit.
    rewrite E2. cbn [obind].
    change (0 <? Z.of_nat 10) with true. cbv iota.
    assert (Hd : drop 10 g1 <> []).
    { intros Hd. apply (f_equal length) in Hd. rewrite length_drop in Hd.
      simpl in Hd. lia. }
    rewrite store_app_at by assumption. cbn [obind].
    rewrite drop_drop.
    replace (drop (10 + 1) g1) with (drop 11 game_id); [reflexivity|].
    unfold g1. rewrite drop_app_ge by lia. rewrite Hl.
    change (drop (11 - 5) (0 :: tail)) with (drop 5 tail).
    replace (drop 11 game_id) with (drop 6 (drop 5 game_id))
      by (rewrite drop_drop; reflexivity).
    rewrite Hdrop. reflexivity.
  - rewrite Hseeks2, Hseeks1, <- app_assoc. reflexivity.
Qed.

(** The probe at an offset where the read delivers nothing or fails ends
    the scan. *)
Lemma psp_loop_stop (n : nat) (pos : Z) (fd : intfstream)
    (game_id : list Z) (errno : Z) :
  read_gives_nothing fd pos 5 ->
  exists fd' errno',
    psp_loop (S n) pos fd game_id errno = Ret (false, fd', game_id, errno') /\
    st_seeks fd' = st_seeks fd ++ [pos] /\
    ((exists bs, st_read_at fd pos 5 = RdData bs) -> errno' = errno).
Proof.
  intros [[e Hrd] | (bs & Hrd & Hnil)].
  - destruct (seek_read_fail fd pos 5 e game_id errno Hrd)
      as (fd' & E & _ & _ & Hs).
    exists fd', e. split; [|split; [exact Hs|]].
    + cbn [psp_loop]. rewrite E. reflexivity.
    + intros [bs Hbs]. congruence.
  - destruct (seek_read_data fd pos 5 bs game_id errno Hrd)
      as (fd' & E & _ & _ & Hs).
    { rewrite Hnil. simpl. lia. }
    exists fd', errno. split; [|split; [exact Hs | reflexivity]].
    cbn [psp_loop]. rewrite E, Hnil. cbn [obind]. rewrite drop_0.
    reflexivity.
Qed.

(** [k] probes in a row that find nothing. *)
Lemma psp_loop_scan (content : list Z) (k : nat) :
  forall (n : nat) (pos : Z) (fd : intfstream) (game_id : list Z) (errno : Z),
    st_read_at fd = st_read_at (file_stream content) ->
    0 <= pos ->
    (Z.to_nat pos + k + 4 <= length content)%nat ->
    (forall q, pos <= q < pos + Z.of_nat k -> ~ psp_prefix_at content q) ->
    (6 <= length game_id)%nat ->
    exists fd' game_id',
      psp_loop (k + n) pos fd game_id errno
        = psp_loop n (pos + Z.of_nat k) fd' game_id' errno /\
      st_read_at fd' = st_read_at fd /\
      st_seeks fd' = st_seeks fd ++ seqZ pos (Z.of_nat k) /\
      length game_id' = length game_id /\
      drop 6 game_id' = drop 6 game_id.
Proof.
  induction k as [|k IH]; intros n pos fd game_id errno Hfd Hpos Hfull Hmiss
    Hcap.
  - exists fd, game_id. rewrite Z.add_0_r, app_nil_r. auto.
  - destruct (psp_loop_miss content (k + n) pos fd game_id errno)
      as (fd1 & g1 & E1 & Hrd1 & Hs1 & Hl1 & Hd1); try assumption; try lia.
    { apply Hmiss. lia. }
    destruct (IH n (pos + 1) fd1 g1 errno)
      as (fd2 & g2 & E2 & Hrd2 & Hs2 & Hl2 & Hd2); try lia.
    { congruence. }
    { intros q Hq. apply Hmiss. lia. }
    exists fd2, g2.
    split; [|split; [congruence | split; [|split; [lia | congruence]]]].
    + cbn [Nat.add]. rewrite E1, E2. f_equal. lia.
    + rewrite Hs2, Hs1, <- app_assoc. f_equal.
      rewrite Nat2Z.inj_succ, (seqZ_cons pos) by lia.
      simpl. f_equal. f_equal; lia.
Qed.

Lemma psp_prefixes_first_letter :
  Forall (fun x => hd 0 x = 85 \/ hd 0 x = 78) PSP_PREFIXES.
Proof.
  unfold PSP_PREFIXES.
  repeat (apply List.Forall_cons; [simpl; auto|]). apply List.Forall_nil.
Qed.



Lemma to_nat_split (N : Z) (k : nat) :
  Z.of_nat k < N ->
  Z.to_nat N = (k + S (Z.to_nat (N - Z.of_nat k - 1)))%nat.
Proof. lia. Qed.


Ltac decide_true :=
  match goal with
  | |- ?P =>
      let d := constr:(_ : Decision P) in
      apply (@bool_decide_unpack P d); vm_compute; exact I
  end.


(** ** The serial scanner *)

(** The inner loop counts the leading serial characters among the
    [n] bytes from index [i]. *)
Lemma count_ascii_run (n : nat) :
  forall (i : nat) (game_id : list Z) (acc : nat),
    (i + n <= length game_id)%nat ->
    count_ascii n i game_id acc
    = Ret (acc + serial_run (take n (drop i game_id)))%nat.
Proof.
  induction n as [|n IH]; intros i game_id acc Hlen.
  - simpl. rewrite Nat.add_0_r. reflexivity.
  - destruct (lookup_lt_is_Some_2 game_id i) as [c Hc]; [lia|].
    cbn [count_ascii]. rewrite (load_lookup _ _ _ Hc). cbn [obind].
    rewrite (drop_S _ _ _ Hc). cbn [take serial_run].
    destruct (serial_char c).
    + rewrite IH by lia. f_equal. lia.
    + rewrite Nat.add_0_r. reflexivity.
Qed.

Lemma serial_run_take (l : list Z) :
  forall n : nat, serial_run (take n l) = Nat.min n (serial_run l).
Proof.
  induction l as [|c l IH]; intros [|n]; simpl; try reflexivity.
  destruct (serial_char c); [rewrite IH|]; reflexivity.
Qed.

Lemma serial_run_le (l : list Z) : (serial_run l <= length l)%nat.
Proof.
  induction l as [|c l IH]; simpl; [lia|].
  destruct (serial_char c); lia.
Qed.

Lemma serial_run_app (a b : list Z) :
  (serial_run a < length a)%nat -> serial_run (a ++ b) = serial_run a.
Proof.
  induction a as [|c a IH]; simpl; [lia|].
  destruct (serial_char c); [|reflexivity].
  intros H. rewrite IH by lia. reflexivity.
Qed.

Lemma serial_char_nz (c : Z) : serial_char c = true -> c <> 0.
Proof. intros H ->. discriminate. Qed.

Lemma serial_run_nz (l : list Z) :
  forall k : nat, (k <= serial_run l)%nat -> Forall (fun c => c <> 0) (take k l).
Proof.
  induction l as [|c l IH]; intros k Hk.
  - rewrite take_nil. constructor.
  - destruct k as [|k]; [constructor|].
    simpl in *. destruct (serial_char c) eqn:Hc; [|lia].
    constructor; [apply serial_char_nz, Hc | apply IH; lia].
Qed.

(** The string left by the cut at index [k] inside the run. *)
Lemma cstr_cut (g : list Z) (k : nat) :
  (k <= serial_run g)%nat ->
  (k < length g)%nat ->
  cstr (<[k:=0]> g) = Ret (take k g).
Proof.
  intros Hk Hlt.
  rewrite <- (take_drop k g) at 1.
  rewrite insert_app_r_alt by (rewrite length_take; lia).
  rewrite length_take.
  replace (k - k `min` length g)%nat with 0%nat by lia.
  destruct (drop k g) as [|x r] eqn:Hd.
  { apply (f_equal length) in Hd. rewrite length_drop in Hd. simpl in Hd. lia. }
  simpl. apply cstr_app_nul. apply serial_run_nz. exact Hk.
Qed.

(** One probe whose read delivers at least one byte, with room for 16
    bytes: it returns, index 15 of [game_id] holds a NUL afterwards, and
    what it finds is decided by the run in the first 15 bytes. *)
Lemma serial_probe_data (pos : Z) (fd : intfstream) (game_id : list Z)
    (errno : Z) (bs : list Z) :
  st_read_at fd pos 15 = RdData bs ->
  take 15 bs <> [] ->
  (16 <= length game_id)%nat ->
  let g15 := <[15%nat:=0]> (take 15 bs ++ drop (length (take 15 bs)) game_id) in
  let k := serial_run (take 15 g15) in
  exists fd' game_id',
    serial_probe pos fd game_id errno
      = Ret ((3 <? k)%nat && (k <? 9)%nat, fd', game_id', errno) /\
    st_read_at fd' = st_read_at fd /\
    st_seeks fd' = st_seeks fd ++ [pos] /\
    length game_id' = length game_id /\
    game_id' !! 15%nat = Some 0 /\
    (((3 <? k)%nat && (k <? 9)%nat) = true ->
     cstr game_id' = Ret (take k g15)).
Proof.
  intros Hrd Hne Hcap g15 k.
  assert (Hl : (length (take 15 bs) <= 15)%nat) by (rewrite length_take; lia).
  destruct (seek_read_data fd pos 15 bs game_id errno Hrd)
    as (fd' & E & Hrd' & _ & Hseeks); [lia|].
  set (g1 := take 15 bs ++ drop (length (take 15 bs)) game_id) in *.
  assert (Hg1 : length g1 = length game_id).
  { unfold g1. rewrite length_app, length_drop. lia. }
  assert (Hg15 : length g15 = length game_id).
  { unfold g15. rewrite length_insert. exact Hg1. }
  assert (Hpos : (0 <? Z.of_nat (length (take 15 bs))) = true).
  { apply Z.ltb_lt. destruct (take 15 bs); [congruence | simpl; lia]. }
  assert (Hcount : count_ascii 15 0 g15 0 = Ret k).
  { rewrite count_ascii_run by lia. rewrite drop_0. reflexivity. }
  unfold serial_probe. rewrite E. cbn [obind]. rewrite Hpos.
  rewrite store_lt by lia. cbn [obind]. fold g15.
  rewrite Hcount. cbn [obind].
  destruct ((3 <? k)%nat && (k <? 9)%nat) eqn:Hk.
  - apply andb_true_iff in Hk. destruct Hk as [Hk3 Hk9].
    apply Nat.ltb_lt in Hk3, Hk9.
    rewrite store_lt by lia. cbn [obind].
    exists fd', (<[k:=0]> g15).
    split; [reflexivity|]. split; [exact Hrd'|]. split; [exact Hseeks|].
    split; [rewrite length_insert; exact Hg15|]. split.
    + rewrite list_lookup_insert_ne by lia.
      unfold g15. apply list_lookup_insert_eq. lia.
    + intros _. apply cstr_cut; [|lia].
      unfold k. rewrite serial_run_take. lia.
  - exists fd', g15.
    split; [reflexivity|]. split; [exact Hrd'|]. split; [exact Hseeks|].
    split; [exact Hg15|]. split; [|discriminate].
    unfold g15. apply list_lookup_insert_eq. lia.
Qed.

(** One probe whose read delivers nothing or fails. *)
Lemma serial_probe_nothing (pos : Z) (fd : intfstream) (game_id : list Z)
    (errno : Z) :
  read_gives_nothing fd pos 15 ->
  exists fd' errno',
    serial_probe pos fd game_id errno = Ret (false, fd', game_id, errno') /\
    st_read_at fd' = st_read_at fd /\
    st_seeks fd' = st_seeks fd ++ [pos].
Proof.
  intros [[e Hrd] | (bs & Hrd & Hnil)].
  - destruct (seek_read_fail fd pos 15 e game_id errno Hrd)
      as (fd' & E & Hrd' & _ & Hs).
    exists fd', e. unfold serial_probe. rewrite E. auto.
  - destruct (seek_read_data fd pos 15 bs game_id errno Hrd)
      as (fd' & E & Hrd' & _ & Hs).
    { rewrite Hnil. simpl. lia. }
    exists fd', errno. unfold serial_probe. rewrite E, Hnil. cbn [obind].
    rewrite drop_0. auto.
Qed.

(** With room for 16 bytes the scanner returns on every stream. *)
Lemma serial_loop_returns (n : nat) :
  forall (pos : Z) (fd : intfstream) (game_id : list Z) (errno : Z),
    (16 <= length game_id)%nat ->
    exists r, serial_loop n pos fd game_id errno = Ret r.
Proof.
  induction n as [|n IH]; intros pos fd game_id errno Hcap; [simpl; eauto|].
  cbn [serial_loop].
  destruct (st_read_at fd pos 15) as [e | bs] eqn:Hrd.
  - destruct (serial_probe_nothing pos fd game_id errno)
      as (fd' & errno' & E & _); [left; eauto|].
    rewrite E. cbn [obind]. apply IH. exact Hcap.
  - destruct (take 15 bs) as [|b t] eqn:Ht.
    + destruct (serial_probe_nothing pos fd game_id errno)
        as (fd' & errno' & E & _); [right; eauto|].
      rewrite E. cbn [obind]. apply IH. exact Hcap.
    + destruct (serial_probe_data pos fd game_id errno bs Hrd)
        as (fd' & g' & E & _ & _ & Hl & _); [congruence | exact Hcap |].
      rewrite E. cbn [obind].
      match goal with |- context [if ?b then _ else _] => destruct b end;
        [eauto | apply IH; lia].
Qed.

Lemma serial_probe_overflow (pos : Z) (fd : intfstream) (game_id : list Z)
    (errno : Z) (bs : list Z) :
  st_read_at fd pos 15 = RdData bs ->
  take 15 bs <> [] ->
  (length game_id <= 15)%nat ->
  serial_probe pos fd game_id errno = Fault.
Proof.
  intros Hrd Hne Hcap. unfold serial_probe, intfstream_read, intfstream_seek.
  cbn [st_read_at st_pos]. rewrite Hrd. unfold store_bytes.
  destruct (Nat.leb_spec (length (take 15 bs)) (length game_id));
    [|reflexivity].
  cbn [obind].
  replace (0 <? Z.of_nat (length (take 15 bs))) with true.
  2:{ symmetry. apply Z.ltb_lt. destruct (take 15 bs); [congruence|simpl; lia]. }
  rewrite store_ge; [reflexivity|].
  rewrite length_app, length_drop. lia.
Qed.

(** C10: at an offset where the 15-byte read delivers at least one byte,
    the scanner stores a NUL at index 15 of game_id: with a game_id of 15
    bytes or fewer the probe is a store outside the buffer, with 16 bytes
    or more it returns, index 15 holds the NUL, and a serial found has
    4 to 8 characters.  The same for the whole scan: it returns for every
    stream when game_id has 16 bytes, and is a store outside game_id when
    it has fewer and the read at offset 0 delivers a byte. *)
Theorem serial_scanner_terminator_at_15 :
  (forall (pos : Z) (fd : intfstream) (game_id : list Z) (errno : Z)
          (bs : list Z),
     st_read_at fd pos 15 = RdData bs ->
     take 15 bs <> [] ->
     ((length game_id <= 15)%nat ->
      serial_probe pos fd game_id errno = Fault) /\
     ((16 <= length game_id)%nat ->
      exists found fd' game_id',
        serial_probe pos fd game_id errno
          = Ret (found, fd', game_id', errno) /\
        game_id' !! 15%nat = Some 0 /\
        (found = true ->
         exists s, cstr game_id' = Ret s /\ (4 <= length s <= 8)%nat))) /\
  (forall (fd : intfstream) (game_id : list Z) (errno : Z),
     (16 <= length game_id)%nat ->
     exists r, detect_serial_ascii_game fd game_id errno = Ret r) /\
  (forall (fd : intfstream) (game_id : list Z) (errno : Z) (bs : list Z),
     st_read_at fd 0 15 = RdData bs ->
     take 15 bs <> [] ->
     (length game_id <= 15)%nat ->
     detect_serial_ascii_game fd game_id errno = Fault).
Proof.
  split; [|split].
  - intros pos fd game_id errno bs Hrd Hne. split.
    + apply serial_probe_overflow with bs; assumption.
    + intros Hcap.
      destruct (serial_probe_data pos fd game_id errno bs Hrd Hne Hcap)
        as (fd' & g' & E & _ & _ & Hl & H15 & Hs).
      eexists _, fd', g'. split; [exact E|]. split; [exact H15|].
      intros Hfound. rewrite (Hs Hfound). eexists. split; [reflexivity|].
      apply andb_true_iff in Hfound. destruct Hfound as [H3 H9].
      apply Nat.ltb_lt in H3, H9.
      rewrite length_take, length_insert, length_app, length_drop. lia.
  - intros fd game_id errno Hcap. apply serial_loop_returns. exact Hcap.
  - intros fd game_id errno bs Hrd Hne Hcap.
    unfold detect_serial_ascii_game.
    rewrite (to_nat_split 10000 0) by lia. cbn [Nat.add serial_loop].
    rewrite (serial_probe_overflow 0 fd game_id errno bs) by assumption.
    reflexivity.
Qed.

Lemma serial_scanner_terminator_at_15_witness :
  (serial_probe 0 (file_stream (bytes "AB-1234XYZ")) (replicate 15 0) 0
     = Fault /\
   exists found fd' game_id',
     serial_probe 2 (file_stream (bytes "AB-1234XYZ")) (replicate 16 7) 0
       = Ret (found, fd', game_id', 0) /\
     game_id' !! 15%nat = Some 0 /\
     (found = true ->
      exists s, cstr game_id' = Ret s /\ (4 <= length s <= 8)%nat)) /\
  (exists r,
     detect_serial_ascii_game (file_stream (bytes "AB-1234XYZ"))
       (replicate 16 7) 0 = Ret r) /\
  detect_serial_ascii_game (file_stream (bytes "AB-1234XYZ"))
    (replicate 15 0) 0 = Fault.
Proof.
  destruct serial_scanner_terminator_at_15 as (A & B & C).
  split; [split|split].
  - apply (proj1 (A 0 (file_stream (bytes "AB-1234XYZ")) (replicate 15 0) 0
                    (bytes "AB-1234XYZ") eq_refl ltac:(discriminate))).
    vm_compute. lia.
  - apply (proj2 (A 2 (file_stream (bytes "AB-1234XYZ")) (replicate 16 7) 0
                    (bytes "-1234XYZ") eq_refl ltac:(discriminate))).
    vm_compute. lia.
  - apply B. vm_compute. lia.
  - apply (C _ _ _ (bytes "AB-1234XYZ")).
    + reflexivity.
    + discriminate.
    + vm_compute. lia.
Defined.

(** The verdict on the first 15 bytes is the verdict on the whole run. *)
Lemma serial_verdict (l : list Z) :
  let k := serial_run (take 15 l) in
  ((3 <? k)%nat && (k <? 9)%nat) = true <-> (3 < serial_run l < 9)%nat.
Proof.
  cbv zeta. rewrite serial_run_take, andb_true_iff, !Nat.ltb_lt. lia.
Qed.

(** One probe on a file at an offset with 15 bytes. *)
Lemma serial_probe_file (content : list Z) (pos : Z) (fd : intfstream)
    (game_id : list Z) (errno : Z) :
  st_read_at fd = st_read_at (file_stream content) ->
  0 <= pos ->
  (Z.to_nat pos + 15 <= length content)%nat ->
  (16 <= length game_id)%nat ->
  exists found fd' game_id',
    serial_probe pos fd game_id errno = Ret (found, fd', game_id', errno) /\
    st_read_at fd' = st_read_at fd /\
    length game_id' = length game_id /\
    (found = true <-> serial_at content pos) /\
    (found = true -> cstr game_id' = Ret (serial_of content pos)).
Proof.
  intros Hfd Hpos Hfull Hcap.
  assert (Hrd : st_read_at fd pos 15 = RdData (take 15 (bytes_at content pos))).
  { rewrite Hfd. apply file_stream_read_at. exact Hpos. }
  assert (Hl : length (take 15 (bytes_at content pos)) = 15%nat).
  { rewrite length_take, bytes_at_length by exact Hpos. lia. }
  destruct (serial_probe_data pos fd game_id errno _ Hrd)
    as (fd' & g' & E & Hrd' & _ & Hlen & _ & Hs).
  { intros H. rewrite take_take, Nat.min_id in H. rewrite H in Hl.
    discriminate. }
  { exact Hcap. }
  rewrite take_take, Nat.min_id in E, Hs. rewrite Hl in E, Hs.
  assert (Hw : take 15 (<[15%nat:=0]> (take 15 (bytes_at content pos)
                                        ++ drop 15 game_id))
               = take 15 (bytes_at content pos)).
  { rewrite insert_app_r_alt by lia. rewrite take_app_length'; [reflexivity|].
    symmetry. exact Hl. }
  rewrite Hw in E, Hs.
  eexists _, fd', g'. split; [exact E|]. split; [exact Hrd'|].
  split; [exact Hlen|]. split.
  - apply (serial_verdict (bytes_at content pos)).
  - intros Hfound. rewrite (Hs Hfound). f_equal.
    apply (serial_verdict (bytes_at content pos)) in Hfound.
    unfold serial_of. rewrite serial_run_take.
    unfold serial_at in Hfound.
    replace (15 `min` serial_run (bytes_at content pos))%nat
      with (serial_run (bytes_at content pos)) by lia.
    rewrite insert_app_r_alt by lia.
    rewrite take_app_le by lia.
    rewrite take_take. f_equal. lia.
Qed.

(** The scan of [n] offsets of a file that has 15 bytes at each of them. *)
Lemma serial_loop_file (content : list Z) (n : nat) :
  forall (pos : Z) (fd : intfstream) (game_id : list Z) (errno : Z),
    st_read_at fd = st_read_at (file_stream content) ->
    0 <= pos ->
    (Z.to_nat pos + n + 14 <= length content)%nat ->
    (16 <= length game_id)%nat ->
    exists rv fd' game_id',
      serial_loop n pos fd game_id errno = Ret (rv, fd', game_id', errno) /\
      (rv = false ->
       forall q, pos <= q < pos + Z.of_nat n -> ~ serial_at content q) /\
      (rv = true ->
       exists p, pos <= p < pos + Z.of_nat n /\
                 serial_at content p /\
                 (forall q, pos <= q < p -> ~ serial_at content q) /\
                 cstr game_id' = Ret (serial_of content p)).
Proof.
  induction n as [|n IH]; intros pos fd game_id errno Hfd Hpos Hfull Hcap.
  - exists false, fd, game_id. split; [reflexivity|].
    split; [intros _ q Hq; lia | discriminate].
  - destruct (serial_probe_file content pos fd game_id errno)
      as (found & fd1 & g1 & E & Hrd1 & Hl1 & Hv & Hs); try assumption;
      try lia.
    cbn [serial_loop]. rewrite E. cbn [obind].
    destruct found.
    + exists true, fd1, g1. split; [reflexivity|].
      split; [discriminate|]. intros _. exists pos.
      split; [lia|]. split; [apply Hv; reflexivity|].
      split; [intros q Hq; lia | apply Hs; reflexivity].
    + destruct (IH (pos + 1) fd1 g1 errno) as (rv & fd2 & g2 & E2 & Hf & Ht);
        try lia.
      { congruence. }
      exists rv, fd2, g2. split; [exact E2|]. split.
      * intros Hrv q Hq. destruct (Z.eq_dec q pos) as [-> | Hne].
        -- intros Hat. apply Hv in Hat. discriminate.
        -- apply (Hf Hrv). lia.
      * intros Hrv. destruct (Ht Hrv) as (p & Hp & Hat & Hbefore & Hstr).
        exists p. split; [lia|]. split; [exact Hat|]. split; [|exact Hstr].
        intros q Hq. destruct (Z.eq_dec q pos) as [-> | Hne].
        -- intros Hat'. apply Hv in Hat'. discriminate.
        -- apply Hbefore. lia.
Qed.

(** C8, as amended: on a file that has 15 bytes at every offset the scan
    can reach (at least 10014 bytes), detect_serial_ascii_game returns
    success exactly when some offset in 0..9999 starts a run of more than
    3 and fewer than 9 characters among - 0-9 A-Z; it then returns the
    run at the first such offset, cut at its length. *)
Theorem detect_serial_ascii_game_full_windows (content game_id : list Z)
    (errno : Z) :
  10014 <= Z.of_nat (length content) ->
  (16 <= length game_id)%nat ->
  exists rv fd' game_id',
    detect_serial_ascii_game (file_stream content) game_id errno
      = Ret (rv, fd', game_id', errno) /\
    (rv = true <-> exists p, 0 <= p < 10000 /\ serial_at content p) /\
    (rv = true ->
     exists p, 0 <= p < 10000 /\
               serial_at content p /\
               (forall q, 0 <= q < p -> ~ serial_at content q) /\
               cstr game_id' = Ret (serial_of content p) /\
               (4 <= length (serial_of content p) <= 8)%nat).
Proof.
  intros Hlen Hcap. unfold detect_serial_ascii_game.
  destruct (serial_loop_file content (Z.to_nat 10000) 0 (file_stream content)
              game_id errno) as (rv & fd' & g' & E & Hf & Ht);
    try reflexivity; try lia.
  exists rv, fd', g'. split; [exact E|].
  rewrite Z2Nat.id in Hf, Ht by lia.
  split; [split|].
  - intros Hrv. destruct (Ht Hrv) as (p & Hp & Hat & _). eauto.
  - intros (p & Hp & Hat). destruct rv; [reflexivity|].
    exfalso. apply (Hf eq_refl p); [lia | exact Hat].
  - intros Hrv. destruct (Ht Hrv) as (p & Hp & Hat & Hbefore & Hstr).
    exists p. split; [lia|]. split; [exact Hat|]. split; [exact Hbefore|].
    split; [exact Hstr|].
    unfold serial_of. rewrite length_take.
    pose proof (serial_run_le (bytes_at content p)).
    unfold serial_at in Hat. lia.
Qed.

Lemma detect_serial_ascii_game_full_windows_witness :
  exists rv fd' game_id',
    detect_serial_ascii_game
      (file_stream example_serial_image) (replicate 16 0) 0
      = Ret (rv, fd', game_id', 0) /\
    (rv = true <->
     exists p, 0 <= p < 10000 /\
               serial_at example_serial_image p) /\
    (rv = true ->
     exists p,
       0 <= p < 10000 /\
       serial_at example_serial_image p /\
       (forall q, 0 <= q < p ->
                  ~ serial_at example_serial_image q) /\
       cstr game_id'
         = Ret (serial_of example_serial_image p) /\
       (4 <= length (serial_of example_serial_image p)
        <= 8)%nat).
Proof.
  apply (detect_serial_ascii_game_full_windows
           example_serial_image (replicate 16 0) 0).
  - apply Z.leb_le. vm_compute. reflexivity.
  - apply Nat.leb_le. vm_compute. reflexivity.
Defined.

(** C8, as stated, fails: the ten bytes ABCDEFGHIJ have a run of 8 serial
    characters at offset 2, up to the end of the stream, and the scanner
    reports no serial: past the end of the stream the reads are short and
    the rest of the window keeps the bytes of the reads before. *)
Lemma detect_serial_ascii_game_short_stream :
  serial_at (bytes "ABCDEFGHIJ") 2 /\
  scan_rv (detect_serial_ascii_game (file_stream (bytes "ABCDEFGHIJ"))
             (replicate 16 0) 0) = Some false.
Proof.
  split.
  - unfold serial_at. vm_compute. lia.
  - vm_compute. reflexivity.
Qed.

(** ** The boot-record resolver *)

Lemma tolower_0 (c : Z) : tolower c = 0 -> c = 0.
Proof.
  unfold tolower, isupper.
  destruct (Z.leb_spec 65 c), (Z.leb_spec c 90); simpl; lia.
Qed.

(** On a field as long as the literal, strncasecmp returns, with 0
    exactly when the two are equal up to case. *)
Lemma strncasecmp_spec (lit : list Z) :
  Forall (fun c => c <> 0) lit ->
  forall f rest : list Z,
    length f = length lit ->
    exists d, strncasecmp (f ++ rest) lit (length lit) = Ret d /\
              (d = 0 <-> map tolower f = map tolower lit).
Proof.
  induction 1 as [|c2 lit Hc2 Hlit IH]; intros f rest Hlen.
  - destruct f; [|discriminate]. exists 0. simpl. tauto.
  - destruct f as [|c1 f]; [discriminate|]. simpl in Hlen.
    cbn [strncasecmp app length hd tl].
    destruct (Z.eqb_spec (tolower c1 - tolower c2) 0) as [E | NE]; cbn [negb].
    + assert (Hc1 : c1 <> 0).
      { intros ->. apply Hc2. apply tolower_0.
        change (tolower 0) with 0 in E. lia. }
      destruct (Z.eqb_spec c1 0); [contradiction|].
      destruct (IH f rest) as (d & Hd & Hiff); [lia|].
      exists d. split; [exact Hd|]. rewrite Hiff. simpl. split.
      * intros ->. f_equal. lia.
      * intros Heq. inversion Heq. reflexivity.
    + eexists. split; [reflexivity|]. split; [contradiction|].
      simpl. intros Heq. inversion Heq. lia.
Qed.

(** The mode probe always returns and leaves the stream contents alone. *)
Lemma probe_mode1_spec (fp : intfstream) (scm : bool) (errno : Z) :
  exists fp1 errno1,
    probe_mode1 fp scm errno = Ret (is_mode1_of fp scm, fp1, errno1) /\
    st_read_at fp1 = st_read_at fp.
Proof.
  unfold probe_mode1, is_mode1_of.
  destruct scm; [eauto|].
  cbn [intfstream_tell intfstream_seek st_pos st_size].
  rewrite Z.add_0_r.
  destruct (Z.land (st_size fp) 2047 =? 0); [|eauto].
  destruct (st_read_at fp 0 4) as [e | bs] eqn:Hrd.
  - destruct (seek_read_fail (intfstream_seek fp 0 SEEK_END) 0 4 e
                [0; 0; 0; 0] errno Hrd) as (fp1 & E & Hrd1 & _).
    rewrite E. cbn [obind]. eexists _, _. split; [reflexivity | exact Hrd1].
  - destruct (seek_read_data (intfstream_seek fp 0 SEEK_END) 0 4 bs
                [0; 0; 0; 0] errno Hrd) as (fp1 & E & Hrd1 & _).
    { rewrite length_take. change (length [0; 0; 0; 0]) with 4%nat. lia. }
    rewrite E. cbn [obind]. eexists _, _. split; [reflexivity | exact Hrd1].
Qed.

Lemma name_field_app (W : list Z) (tmp : nat) :
  length (name_field W tmp) = 12%nat ->
  drop (tmp + 33) W = name_field W tmp ++ drop 12 (drop (tmp + 33) W).
Proof. intros _. unfold name_field. symmetry. apply take_drop. Qed.

(** The walk of the code over the records follows [dir_walk]. *)
Lemma dir_scan_walk (W : list Z) (tmp off : nat) :
  dir_walk W tmp off ->
  length W = WINDOW ->
  forall fuel : nat,
    (WINDOW - tmp < fuel)%nat ->
    dir_scan fuel W tmp = Ret (Some off) /\ (off < WINDOW)%nat /\
    length (name_field W off) = 12%nat.
Proof.
  intros Hwalk HW.
  induction Hwalk as [tmp len Hlen Hnz Hname | tmp len off Hlen Hpos Hfield
                        Hname Hwalk IH]; intros fuel Hfuel.
  - assert (Htmp : (tmp < WINDOW)%nat).
    { rewrite <- HW. eapply lookup_lt_Some. exact Hlen. }
    assert (Hfield : length (name_field W tmp) = 12%nat).
    { unfold names_system_cnf in Hname.
      apply (f_equal length) in Hname. rewrite !length_map in Hname.
      exact Hname. }
    destruct fuel as [|fuel]; [lia|]. cbn [dir_scan].
    destruct (Nat.ltb_spec tmp WINDOW); [|lia].
    rewrite (load_lookup _ _ _ Hlen). cbn [obind].
    destruct (Z.eqb_spec len 0); [contradiction|].
    rewrite (name_field_app W tmp Hfield).
    destruct (strncasecmp_spec SYSTEM_CNF_lit ltac:(repeat constructor; discriminate)
                (name_field W tmp) (drop 12 (drop (tmp + 33) W)) Hfield)
      as (d & Hd & Hiff).
    change (length SYSTEM_CNF_lit) with 12%nat in Hd. rewrite Hd. cbn [obind].
    rewrite (proj2 Hiff Hname). auto.
  - assert (Htmp : (tmp < WINDOW)%nat).
    { rewrite <- HW. eapply lookup_lt_Some. exact Hlen. }
    destruct fuel as [|fuel]; [lia|]. cbn [dir_scan].
    destruct (Nat.ltb_spec tmp WINDOW); [|lia].
    rewrite (load_lookup _ _ _ Hlen). cbn [obind].
    destruct (Z.eqb_spec len 0); [lia|].
    rewrite (name_field_app W tmp Hfield).
    destruct (strncasecmp_spec SYSTEM_CNF_lit ltac:(repeat constructor; discriminate)
                (name_field W tmp) (drop 12 (drop (tmp + 33) W)) Hfield)
      as (d & Hd & Hiff).
    change (length SYSTEM_CNF_lit) with 12%nat in Hd. rewrite Hd. cbn [obind].
    destruct (Z.eqb_spec d 0) as [Hd0 | _]; [apply Hiff in Hd0; contradiction|].
    apply IH. lia.
Qed.

Lemma boot_at_nz (l : list Z) : boot_at l -> exists c r, l = c :: r /\ c <> 0.
Proof.
  unfold boot_at. destruct l as [|c r]; [discriminate|].
  intros H. exists c, r. split; [reflexivity|]. intros ->. discriminate.
Qed.

Lemma strncasecmp_boot (l : list Z) :
  (4 <= length l)%nat ->
  exists d, strncasecmp l boot_lit 4 = Ret d /\ (d = 0 <-> boot_at l).
Proof.
  intros Hl.
  destruct (strncasecmp_spec boot_lit ltac:(repeat constructor; discriminate)
              (take 4 l) (drop 4 l)) as (d & Hd & Hiff).
  { rewrite length_take. change (length boot_lit) with 4%nat. lia. }
  rewrite take_drop in Hd. exists d. split; [exact Hd|]. exact Hiff.
Qed.

(** The search for boot stops at the first place where it stands. *)
Lemma find_boot_spec (pre : list Z) :
  forall line : list Z,
    Forall (fun c => c <> 0) pre ->
    (forall i : nat, (i < length pre)%nat -> ~ boot_at (drop i (pre ++ line))) ->
    boot_at line ->
    (4 <= length line)%nat ->
    find_boot (pre ++ line) = Ret line.
Proof.
  induction pre as [|c pre IH]; intros line Hnz Hno Hboot Hlen.
  - simpl. destruct (boot_at_nz line Hboot) as (c & r & -> & Hc).
    cbn [find_boot]. destruct (Z.eqb_spec c 0); [contradiction|].
    destruct (strncasecmp_boot (c :: r) Hlen) as (d & Hd & Hiff).
    rewrite Hd. cbn [obind]. rewrite (proj2 Hiff Hboot). reflexivity.
  - inversion Hnz as [|? ? Hc Hnz']; subst.
    cbn [app find_boot]. destruct (Z.eqb_spec c 0); [contradiction|].
    destruct (strncasecmp_boot (c :: pre ++ line)) as (d & Hd & Hiff).
    { simpl. rewrite length_app. lia. }
    rewrite Hd. cbn [obind].
    destruct (Z.eqb_spec d 0) as [Hd0 | _].
    { exfalso. apply (Hno 0%nat); [simpl; lia|]. apply Hiff, Hd0. }
    apply IH; try assumption.
    intros i Hi. apply (Hno (S i)). simpl. lia.
Qed.

(** Up to a backslash, the line scan forgets where boot_file was. *)
Lemma scan_line_to_backslash (a : list Z) :
  forall rest bf : list Z,
    Forall (fun c => c <> 0 /\ c <> 10) a ->
    scan_line (a ++ 92 :: rest) bf = scan_line rest rest.
Proof.
  induction a as [|c a IH]; intros rest bf Ha.
  - reflexivity.
  - inversion Ha as [|? ? [H0 H10] Ha']; subst.
    cbn [app scan_line].
    destruct (Z.eqb_spec c 0); [contradiction|].
    destruct (Z.eqb_spec c 10); [contradiction|].
    cbn [orb]. apply IH. exact Ha'.
Qed.

(** Without a separator before the end of the line, boot_file stays. *)
Lemma scan_line_to_eol (tail : list Z) :
  forall rest bf : list Z,
    no_sep_before_eol tail = true ->
    scan_line (tail ++ 0 :: rest) bf = Ret bf.
Proof.
  induction tail as [|c tail IH]; intros rest bf Ht.
  - reflexivity.
  - cbn [app scan_line]. cbn [no_sep_before_eol] in Ht.
    destruct ((c =? 0) || (c =? 10)); [reflexivity|].
    destruct ((c =? 92) || (c =? 58)); [discriminate|].
    apply IH. exact Ht.
Qed.

(** From the file name to the identifier. *)
Lemma build_game_id_SLES (t game_id : list Z) :
  (11 <= length game_id)%nat ->
  build_game_id (name_lit ++ t) game_id
  = Ret (SLES_id_lit ++ 0 :: drop 11 game_id).
Proof.
  intros H.
  do 11 (destruct game_id as [|? game_id]; [simpl in H; lia|]).
  reflexivity.
Qed.

Lemma read_cd_sector_spec (buffer : list Z) (tmp : nat) :
  (tmp + 4 < length buffer)%nat ->
  read_cd_sector buffer tmp = Ret (record_sector buffer tmp).
Proof.
  intros H. unfold read_cd_sector, record_sector, load.
  rewrite !(nth_lookup buffer _ 0).
  destruct (lookup_lt_is_Some_2 buffer (tmp + 2)) as [b2 ->]; [lia|].
  destruct (lookup_lt_is_Some_2 buffer (tmp + 3)) as [b3 ->]; [lia|].
  destruct (lookup_lt_is_Some_2 buffer (tmp + 4)) as [b4 ->]; [lia|].
  reflexivity.
Qed.

Lemma record_sector_app (a b : list Z) (tmp : nat) :
  (tmp + 4 < length a)%nat ->
  record_sector (a ++ b) tmp = record_sector a tmp.
Proof.
  intros H. unfold record_sector.
  rewrite !(nth_lookup _ _ 0), !lookup_app_l by lia. reflexivity.
Qed.

Lemma boot_kw_chars (kw : list Z) :
  map tolower kw = boot_lit ->
  length kw = 4%nat /\ Forall (fun c => c <> 0 /\ c <> 10) kw.
Proof.
  intros H. split.
  - apply (f_equal length) in H. rewrite length_map in H. exact H.
  - apply Forall_forall. intros c Hc.
    assert (Hin : tolower c ∈ boot_lit).
    { rewrite <- H. apply list_elem_of_fmap_2. exact Hc. }
    split; intros ->; vm_compute in Hin;
      repeat (apply elem_of_cons in Hin as [Hin | Hin]; [discriminate|]);
      apply elem_of_nil in Hin; exact Hin.
Qed.

(** C3, as amended: when the three reads deliver 6, 4096 and 256 bytes,
    the records of the root directory window lead, one by one from byte
    0, to a record named SYSTEM.CNF;1, and in the 256 bytes of that file
    the first place where the letters boot stand (in any case, with no
    NUL before it) is followed on its line by cdrom:\SLES_123.45;1 and
    no further backslash or colon, detect_ps1_game_sub returns 1 and
    game_id, of 11 bytes or more, holds SLES-12345 and its terminator. *)
Theorem detect_ps1_game_sub_SLES (fp : intfstream) (game_id buffer : list Z)
    (scm : bool) (errno : Z) (pvd W cnf pre kw mid tail : list Z)
    (off : nat) :
  length buffer = WINDOW ->
  (11 <= length game_id)%nat ->
  st_read_at fp (root_record_offset fp scm) 6 = RdData pvd ->
  (6 <= length pvd)%nat ->
  st_read_at fp (sector_offset fp scm (record_sector pvd 0)) WINDOW
    = RdData W ->
  length W = WINDOW ->
  dir_walk W 0 off ->
  st_read_at fp (sector_offset fp scm (record_sector W off)) 256
    = RdData cnf ->
  length cnf = 256%nat ->
  boot_line_in cnf pre kw mid tail ->
  exists fp' errno',
    detect_ps1_game_sub fp game_id scm buffer errno
    = Ret (1, fp', SLES_id_lit ++ 0 :: drop 11 game_id, errno').
Proof.
  intros Hbuf Hcap Hpvd Hpvdlen HW HWlen Hwalk Hcnf Hcnflen
    [Hsplit Hprenz Hnoboot Hkw Hmid Htail].
  assert (HWIN : WINDOW = 4096%nat) by reflexivity.
  unfold detect_ps1_game_sub.
  rewrite store_lt by lia. cbn [obind].
  destruct (probe_mode1_spec fp scm errno) as (fp1 & errno1 & Eprobe & Hrd1).
  rewrite Eprobe. cbn [obind].
  (* the record of the root directory *)
  set (buf0 := <[0%nat:=0]> buffer).
  assert (Hbuf0 : length buf0 = WINDOW)
    by (unfold buf0; rewrite length_insert; exact Hbuf).
  fold (root_record_offset fp scm).
  destruct (seek_read_data fp1 (root_record_offset fp scm) 6 pvd buf0 errno1)
    as (fp2 & E2 & Hrd2 & _ & _).
  { rewrite Hrd1. exact Hpvd. }
  { rewrite length_take. lia. }
  rewrite E2. cbn [obind].
  assert (Hl6 : length (take 6 pvd) = 6%nat) by (rewrite length_take; lia).
  rewrite read_cd_sector_spec by (rewrite length_app, Hl6; lia).
  cbn [obind]. rewrite record_sector_app by lia.
  replace (record_sector (take 6 pvd) 0) with (record_sector pvd 0).
  2:{ unfold record_sector. rewrite !(nth_lookup _ _ 0).
      rewrite !lookup_take_lt by lia. reflexivity. }
  fold (sector_offset fp scm (record_sector pvd 0)).
  (* the window of the root directory *)
  set (buf1 := take 6 pvd ++ drop (length (take 6 pvd)) buf0).
  assert (Hbuf1 : length buf1 = WINDOW).
  { unfold buf1. rewrite length_app, length_drop. lia. }
  destruct (seek_read_data fp2 (sector_offset fp scm (record_sector pvd 0))
              WINDOW W buf1 errno1) as (fp3 & E3 & Hrd3 & _ & _).
  { rewrite Hrd2, Hrd1. exact HW. }
  { rewrite length_take. lia. }
  rewrite E3. cbn [obind].
  rewrite (take_ge W WINDOW) by lia.
  rewrite (drop_ge buf1) by lia. rewrite app_nil_r.
  destruct (dir_scan_walk W 0 off Hwalk HWlen (S WINDOW)) as (Escan & Hoff & Hfield);
    [lia|].
  rewrite Escan. cbn [obind].
  destruct (Nat.leb_spec WINDOW off); [lia|].
  assert (Hoff45 : (off + 45 <= length W)%nat).
  { unfold name_field in Hfield. rewrite length_take, length_drop in Hfield.
    lia. }
  rewrite read_cd_sector_spec by lia. cbn [obind].
  fold (sector_offset fp scm (record_sector W off)).
  (* the contents of SYSTEM.CNF *)
  destruct (seek_read_data fp3 (sector_offset fp scm (record_sector W off))
              256 cnf W errno1) as (fp4 & E4 & _ & _ & _).
  { rewrite Hrd3, Hrd2, Hrd1. exact Hcnf. }
  { rewrite length_take. lia. }
  rewrite E4. cbn [obind].
  rewrite (take_ge cnf 256) by lia. rewrite Hcnflen.
  destruct (drop 256 W) as [|w256 rest] eqn:Hdrop.
  { apply (f_equal length) in Hdrop. rewrite length_drop in Hdrop.
    simpl in Hdrop. lia. }
  rewrite store_app_at by (assumption || discriminate). cbn [obind].
  change (drop 1 (w256 :: rest)) with rest.
  (* the boot line *)
  destruct (boot_kw_chars kw Hkw) as [Hkwlen Hkwchars].
  set (file := name_lit ++ tail ++ 0 :: rest).
  set (line := kw ++ (mid ++ bytes "cdrom:") ++ 92 :: file).
  assert (Hline : cnf ++ 0 :: rest = pre ++ line).
  { rewrite Hsplit. unfold line, file.
    change boot_path_lit with (bytes "cdrom:" ++ 92 :: name_lit).
    rewrite <- !app_assoc. reflexivity. }
  rewrite Hline.
  assert (Hboot : boot_at line).
  { unfold boot_at, line. rewrite take_app_length' by (symmetry; exact Hkwlen).
    exact Hkw. }
  assert (Hlinelen : (4 <= length line)%nat).
  { unfold line. rewrite length_app. lia. }
  rewrite find_boot_spec; try assumption.
  2:{ intros i Hi Hb. apply (Hnoboot i Hi).
      unfold boot_at in *. rewrite <- Hline in Hb.
      rewrite drop_app_le in Hb by (rewrite Hsplit, length_app; lia).
      rewrite take_app_le in Hb; [exact Hb|].
      rewrite length_drop, Hsplit, !length_app, Hkwlen. lia. }
  cbn [obind].
  destruct (boot_at_nz line Hboot) as (c0 & r0 & Hc0 & Hnz0).
  rewrite Hc0. cbn [load lookup list_lookup obind].
  destruct (Z.eqb_spec c0 0); [contradiction|].
  rewrite <- Hc0. unfold line at 1 2.
  rewrite (app_assoc kw).
  rewrite scan_line_to_backslash.
  2:{ apply Forall_app. split; [exact Hkwchars|].
      apply Forall_app. split; [exact Hmid|].
      repeat (apply List.Forall_cons; [split; discriminate|]).
      apply List.Forall_nil. }
  assert (Hfile : scan_line file file = Ret file).
  { unfold file at 1. unfold name_lit at 1.
    cbn [app scan_line Z.eqb Pos.eqb orb].
    apply scan_line_to_eol. exact Htail. }
  rewrite Hfile. cbn [obind].
  unfold file. rewrite build_game_id_SLES by exact Hcap. cbn [obind].
  eexists _, _. reflexivity.
Qed.

Lemma detect_ps1_game_sub_SLES_witness :
  exists fp' errno',
    detect_ps1_game_sub (file_stream example_iso) (replicate 11 0) false
      (replicate WINDOW 0) 0
    = Ret (1, fp', SLES_id_lit ++ 0 :: drop 11 (replicate 11 0), errno').
Proof.
  apply (detect_ps1_game_sub_SLES (file_stream example_iso) (replicate 11 0)
           (replicate WINDOW 0) false 0
           (take 6 (bytes_at example_iso 32924))
           (take WINDOW (bytes_at example_iso 36864))
           (take 256 (bytes_at example_iso 40960))
           [] (bytes "BOOT") (bytes " = ")
           (drop 27 (take 256 (bytes_at example_iso 40960)))
           68%nat).
  - vm_compute. reflexivity.
  - vm_compute. lia.
  - vm_compute. reflexivity.
  - vm_compute. lia.
  - vm_compute. reflexivity.
  - vm_compute. reflexivity.
  - apply (dir_walk_next _ 0 34 68).
    + vm_compute. reflexivity.
    + lia.
    + vm_compute. reflexivity.
    + vm_compute. discriminate.
    + apply (dir_walk_next _ 34 34 68).
      * vm_compute. reflexivity.
      * lia.
      * vm_compute. reflexivity.
      * vm_compute. discriminate.
      * apply (dir_walk_found _ 68 45).
        -- vm_compute. reflexivity.
        -- discriminate.
        -- vm_compute. reflexivity.
  - vm_compute. reflexivity.
  - vm_compute. reflexivity.
  - constructor.
    + vm_compute. reflexivity.
    + constructor.
    + intros i Hi. simpl in Hi. lia.
    + vm_compute. reflexivity.
    + repeat (apply List.Forall_cons; [split; discriminate|]).
      apply List.Forall_nil.
    + vm_compute. reflexivity.
Defined.

(** C3, as stated, fails.  In the first image the root directory takes
    two sectors: the record named SYSTEM.CNF;1 is in the window, at byte
    2048, behind the NUL padding of the first sector, where the walk over
    the records stops; the resolver returns 0 and leaves game_id as it
    was.  In the second image the boot line is the second line of
    SYSTEM.CNF and the first line is REBOOT = 1: the resolver takes the
    letters BOOT in it for the boot line and returns 1 with the
    identifier BOOT-. *)
Lemma detect_ps1_game_sub_misses_boot_line :
  (* the record at byte 2048 of the root directory window is named
     SYSTEM.CNF;1 and gives sector 20, where the file begins with the
     boot line *)
  name_field (bytes_at example_two_sector_iso 36864) 2048 = SYSTEM_CNF_lit /\
  record_sector (bytes_at example_two_sector_iso 36864) 2048 = 20 /\
  take 27 (bytes_at example_two_sector_iso (20 * 2048))
    = bytes "BOOT = cdrom:\SLES_123.45;1" /\
  resolver_view
    (detect_ps1_game_sub (file_stream example_two_sector_iso)
       (replicate 11 7) false (replicate WINDOW 0) 0)
    = Some (0, replicate 11 7) /\
  (* the record at byte 68 is named SYSTEM.CNF;1 and gives sector 20,
     where the boot line is the second line of the file *)
  name_field (bytes_at example_reboot_iso 36864) 68 = SYSTEM_CNF_lit /\
  record_sector (bytes_at example_reboot_iso 36864) 68 = 20 /\
  take 39 (bytes_at example_reboot_iso (20 * 2048))
    = bytes "REBOOT = 1" ++ [13; 10] ++ bytes "BOOT = cdrom:\SLES_123.45;1" /\
  resolver_view
    (detect_ps1_game_sub (file_stream example_reboot_iso)
       (replicate 11 7) false (replicate WINDOW 0) 0)
    = Some (1, bytes "BOOT-" ++ [0; 7; 7; 7; 7; 7]).
Proof. repeat split; vm_compute; reflexivity. Qed.

(** ** More on the tokenizer *)

(** The loop over bytes that are neither white space nor a quote, short
    of the capacity: they are stored one after the other. *)
Lemma get_token_loop_run (w : list Z) :
  forall (fd : list read1) (done free : list Z) (ins : bool) (errno : Z)
         (max_len : nat),
    Forall plain w ->
    (length done + length w < max_len)%nat ->
    (length w <= length free)%nat ->
    get_token_loop (of_bytes w ++ fd) (done ++ free) max_len (length done)
      ins errno
    = get_token_loop fd (done ++ w ++ drop (length w) free) max_len
        (length done + length w) ins errno.
Proof.
  induction w as [|c w IH]; intros fd done free ins errno max_len Hw Hmax Hfree.
  - simpl. rewrite drop_0, Nat.add_0_r. reflexivity.
  - inversion Hw as [|? ? Hc Hw']; subst.
    destruct free as [|f0 free]; [simpl in Hfree; lia|].
    cbn [app of_bytes map get_token_loop].
    rewrite store_app by discriminate. cbn [obind].
    rewrite classify_plain by exact Hc.
    destruct (Nat.eqb_spec (S (length done)) max_len) as [E | _];
      [simpl in Hmax; lia|].
    simpl drop. rewrite drop_0.
    pose proof (IH fd (done ++ [c]) free ins errno max_len Hw') as H.
    rewrite length_app in H. simpl in H.
    rewrite <- !app_assoc in H. simpl in H.
    replace (length done + 1)%nat with (S (length done)) in H by lia.
    unfold of_bytes in H. rewrite H by (simpl in *; lia).
    f_equal. simpl. lia.
Qed.

(** X1: at the end of the stream get_token returns 0, also when it has
    read the bytes of a token: a token that no white space or quote
    follows is not reported, and no terminator is stored after it. *)
Theorem get_token_end_of_stream (sp w token : list Z) (max_len : nat)
    (errno : Z) :
  Forall (fun c => is_ws c = true) sp ->
  Forall plain w ->
  (length w < max_len)%nat ->
  (length w <= length token)%nat ->
  token <> [] ->
  exists token',
    get_token (of_bytes (sp ++ w)) token max_len errno
      = Ret (0, [], token', errno) /\
    length token' = length token /\
    (w <> [] -> token' = w ++ drop (length w) token).
Proof.
  intros Hsp Hw Hmax Htok Hne. unfold get_token.
  destruct token as [|t0 tk]; [congruence|].
  rewrite of_bytes_app.
  destruct (get_token_loop_skip sp (of_bytes w) t0 tk max_len false errno Hsp)
    as [t0' ->].
  pose proof (get_token_loop_run w [] [] (t0' :: tk) false errno max_len Hw)
    as H.
  rewrite app_nil_r in H. simpl in H. rewrite H by (simpl in *; lia).
  simpl. eexists. split; [reflexivity|]. split.
  - rewrite length_app, length_drop. simpl in *. lia.
  - intros Hw0. destruct w as [|c w]; [congruence|]. reflexivity.
Qed.

Lemma get_token_end_of_stream_witness :
  exists token',
    get_token (of_bytes ([32; 10] ++ bytes "00:02:00")) (replicate 255 0)
      MAX_TOKEN_LEN 0
      = Ret (0, [], token', 0) /\
    length token' = length (replicate 255 0) /\
    (bytes "00:02:00" <> [] ->
     token' = bytes "00:02:00"
              ++ drop (length (bytes "00:02:00")) (replicate 255 0)).
Proof.
  apply (get_token_end_of_stream [32; 10] (bytes "00:02:00")
           (replicate 255 0) MAX_TOKEN_LEN 0).
  - all_bytes.
  - all_bytes.
  - vm_compute. lia.
  - vm_compute. lia.
  - discriminate.
Defined.

(** X2: a read error other than EINTR and EAGAIN ends the call with
    -errno, a negative value, whatever was read of a token before. *)
Theorem get_token_read_error (sp w token : list Z) (e : positive)
    (fd : list read1) (max_len : nat) (errno : Z) :
  Forall (fun c => is_ws c = true) sp ->
  Forall plain w ->
  (length w < max_len)%nat ->
  (length w <= length token)%nat ->
  token <> [] ->
  Z.pos e <> EINTR ->
  Z.pos e <> EAGAIN ->
  exists token',
    get_token (of_bytes (sp ++ w) ++ RFail e :: fd) token max_len errno
      = Ret (- Z.pos e, fd, token', Z.pos e) /\
    - Z.pos e < 0 /\
    length token' = length token.
Proof.
  intros Hsp Hw Hmax Htok Hne H1 H2. unfold get_token.
  destruct token as [|t0 tk]; [congruence|].
  rewrite of_bytes_app, <- app_assoc.
  destruct (get_token_loop_skip sp (of_bytes w ++ RFail e :: fd) t0 tk
              max_len false errno Hsp) as [t0' ->].
  pose proof (get_token_loop_run w (RFail e :: fd) [] (t0' :: tk) false errno
                max_len Hw) as H.
  simpl app in H. simpl length in H. rewrite H by (simpl in *; lia).
  cbn [get_token_loop]. cbv zeta.
  destruct (Z.eqb_spec (Z.pos e) EINTR) as [|_]; [contradiction|].
  destruct (Z.eqb_spec (Z.pos e) EAGAIN) as [|_]; [contradiction|].
  simpl. eexists. split; [reflexivity|]. split; [lia|].
  rewrite length_app, length_drop. simpl in *. lia.
Qed.

Lemma get_token_read_error_witness :
  exists token',
    get_token (of_bytes ([32] ++ bytes "TRA") ++ RFail 5 :: of_bytes (bytes "CK"))
      (replicate 255 0) MAX_TOKEN_LEN 0
      = Ret (- Z.pos 5, of_bytes (bytes "CK"), token', Z.pos 5) /\
    - Z.pos 5 < 0 /\
    length token' = length (replicate 255 0).
Proof.
  apply (get_token_read_error [32] (bytes "TRA") (replicate 255 0) 5
           (of_bytes (bytes "CK")) MAX_TOKEN_LEN 0).
  - all_bytes.
  - all_bytes.
  - vm_compute. lia.
  - vm_compute. lia.
  - discriminate.
  - discriminate.
  - discriminate.
Defined.

Lemma without_transient_idem (fd : list read1) :
  without_transient (without_transient fd) = without_transient fd.
Proof.
  induction fd as [|r fd IH]; [reflexivity|].
  cbn [without_transient]. destruct (transient r) eqn:E; [exact IH|].
  cbn [without_transient]. rewrite E, IH. reflexivity.
Qed.

(** X3: reads that fail with EINTR or EAGAIN are tried again and leave no
    trace: return value, token and rest of the stream are those of the
    stream without the interrupted reads. *)
Theorem get_token_retries_interrupted_reads (fd : list read1)
    (token : list Z) (max_len : nat) (errno : Z) :
  token_view (get_token fd token max_len errno)
  = token_view (get_token (without_transient fd) token max_len errno).
Proof.
  unfold get_token. generalize 0%nat as len. generalize false as ins.
  revert token errno.
  assert (G : forall (fd : list read1) (token : list Z) (e1 e2 : Z)
                     (ins : bool) (len : nat),
             token_view (get_token_loop fd token max_len len ins e1)
             = token_view (get_token_loop (without_transient fd) token
                             max_len len ins e2)).
  { clear fd. induction fd as [|r fd IH]; intros token e1 e2 ins len.
    - reflexivity.
    - destruct r as [b | e].
      + cbn [without_transient transient get_token_loop].
        destruct (store token len b) as [token1| |]; cbn [obind];
          [|reflexivity|reflexivity].
        destruct (classify b len ins) as [ins' | | ].
        * apply IH.
        * destruct (store token1 len 0); cbn [obind token_view];
            rewrite ?without_transient_idem; reflexivity.
        * destruct (S len =? max_len)%nat.
          -- destruct (store token1 (S len) 0); cbn [obind token_view];
               rewrite ?without_transient_idem; reflexivity.
          -- apply IH.
      + cbn [without_transient transient get_token_loop]. cbv zeta.
        destruct ((Z.pos e =? EINTR) || (Z.pos e =? EAGAIN)) eqn:E.
        * apply IH.
        * cbn [get_token_loop]. cbv zeta. rewrite E. cbn [token_view].
          rewrite without_transient_idem. reflexivity. }
  intros token errno ins len. apply G.
Qed.

(** White space and quotes before the first byte of a token are skipped;
    a quote among them turns the string mode on, and nothing turns it
    off again. *)
Lemma get_token_loop_skip_quotes (sp : list Z) :
  forall (fd : list read1) (t0 : Z) (tk : list Z) (max_len : nat)
         (ins : bool) (errno : Z),
    Forall (fun c => is_ws c = true \/ c = 34) sp ->
    exists t0',
      get_token_loop (of_bytes sp ++ fd) (t0 :: tk) max_len 0 ins errno
      = get_token_loop fd (t0' :: tk) max_len 0
          (ins || bool_decide (34 ∈ sp)) errno.
Proof.
  induction sp as [|c sp IH]; intros fd t0 tk max_len ins errno Hsp.
  - exists t0. simpl. rewrite orb_false_r. reflexivity.
  - inversion Hsp as [|? ? Hc Hsp']; subst.
    cbn [app of_bytes map get_token_loop].
    rewrite store_lt by (simpl; lia). cbn [obind].
    destruct Hc as [Hc | ->].
    + rewrite classify_ws_start by assumption.
      destruct (IH fd c tk max_len ins errno Hsp') as [t0' E].
      exists t0'. unfold of_bytes in E. cbn [map app].
      change (<[0%nat:=c]> (t0 :: tk)) with (c :: tk). rewrite E.
      f_equal. f_equal.
      apply bool_decide_ext. rewrite elem_of_cons.
      split; [auto|]. intros [E34 | H]; [subst c; vm_compute in Hc; discriminate | exact H].
    + rewrite classify_quote_start.
      destruct (IH fd 34 tk max_len true errno Hsp') as [t0' E].
      exists t0'. unfold of_bytes in E. cbn [map app].
      change (<[0%nat:=34]> (t0 :: tk)) with (34 :: tk). rewrite E.
      rewrite (bool_decide_eq_true_2 (34 ∈ 34 :: sp))
        by (apply list_elem_of_here).
      rewrite orb_true_r. reflexivity.
Qed.

(** X4: after any run of white space and quotes that holds a quote, the
    token runs up to the next quote, white space included: an empty
    quoted string is not a token, it makes the text after it one. *)
Theorem get_token_after_quotes (sp rest token : list Z) (c : Z) (q : list Z)
    (max_len : nat) (errno : Z) :
  Forall (fun x => is_ws x = true \/ x = 34) sp ->
  34 ∈ sp ->
  plain c ->
  Forall (fun x => x <> 34) q ->
  (S (length q) < max_len)%nat ->
  (S (length q) < length token)%nat ->
  get_token (of_bytes (sp ++ (c :: q) ++ 34 :: rest)) token max_len errno
  = Ret (Z.of_nat (S (length q)), of_bytes rest,
         (c :: q) ++ 0 :: drop (S (S (length q))) token, errno).
Proof.
  intros Hsp Hin Hc Hq Hmax Htok. unfold get_token.
  destruct token as [|t0 tk]; [simpl in Htok; lia|].
  rewrite of_bytes_app.
  destruct (get_token_loop_skip_quotes sp (of_bytes ((c :: q) ++ 34 :: rest))
              t0 tk max_len false errno Hsp) as [t0' ->].
  rewrite bool_decide_eq_true_2 by exact Hin.
  cbn [orb app of_bytes map get_token_loop].
  rewrite store_lt by (simpl; lia). cbn [obind].
  rewrite classify_plain by exact Hc.
  destruct (Nat.eqb_spec 1 max_len) as [E | _]; [lia|].
  pose proof (get_token_loop_word q [c] tk rest 34 true errno max_len) as H.
  simpl in H. simpl. unfold of_bytes in H. rewrite H; clear H.
  - reflexivity.
  - congruence.
  - eapply Forall_impl; [exact Hq|]. intros x Hx. auto.
  - left. reflexivity.
  - lia.
  - simpl in Htok. lia.
Qed.

Lemma get_token_after_quotes_witness :
  get_token
    (of_bytes ([34; 34; 32] ++ (70 :: bytes "ILE ") ++ 34 :: bytes "a.bin"))
    (replicate 255 0) MAX_TOKEN_LEN 0
  = Ret (Z.of_nat (S (length (bytes "ILE "))), of_bytes (bytes "a.bin"),
         (70 :: bytes "ILE ")
         ++ 0 :: drop (S (S (length (bytes "ILE ")))) (replicate 255 0), 0).
Proof.
  apply (get_token_after_quotes [34; 34; 32] (bytes "a.bin")
           (replicate 255 0) 70 (bytes "ILE ") MAX_TOKEN_LEN 0).
  - repeat (apply List.Forall_cons;
              [first [right; reflexivity | left; reflexivity]|]).
    apply List.Forall_nil.
  - apply list_elem_of_here.
  - split; [reflexivity | discriminate].
  - all_bytes.
  - vm_compute. lia.
  - vm_compute. lia.
Defined.

(** The calls of get_token over the words of a text. *)
Lemma token_seq_loop_render (ts : list word) :
  forall (fuel : nat) (token : list Z) (errno : Z),
    Forall wf_word ts ->
    length token = MAX_TOKEN_LEN ->
    (length ts < fuel)%nat ->
    token_seq_loop fuel (of_bytes (render ts)) token MAX_TOKEN_LEN errno
    = Ret (map body ts).
Proof.
  induction ts as [|t ts IH]; intros fuel token errno Hts Hlen Hfuel.
  - destruct fuel as [|fuel]; [lia|]. reflexivity.
  - destruct fuel as [|fuel]; [simpl in Hfuel; lia|].
    inversion Hts as [|? ? Ht Hts']; subst.
    cbn [render token_seq_loop].
    destruct (get_token_word t (render ts) token errno Ht Hlen)
      as (tmp' & E & Hl & Hs).
    rewrite E. cbn [obind]. rewrite word_len_pos by exact Ht.
    rewrite Hs. cbn [obind].
    rewrite (IH fuel tmp' errno Hts' Hl) by (simpl in Hfuel; lia).
    reflexivity.
Qed.

(** X5: the tokenizer undoes the layout of a text: on words laid out with
    white space between them, the successive calls of get_token give the
    words, one by one, and then 0. *)
Theorem token_seq_render (ts : list word) (token : list Z) (errno : Z) :
  Forall wf_word ts ->
  length token = MAX_TOKEN_LEN ->
  token_seq (of_bytes (render ts)) token MAX_TOKEN_LEN errno
  = Ret (map body ts).
Proof.
  intros Hts Hlen. unfold token_seq.
  apply token_seq_loop_render; [assumption | assumption |].
  unfold of_bytes. rewrite length_map.
  pose proof (render_length ts). lia.
Qed.

Lemma token_seq_render_witness :
  token_seq
    (of_bytes (render [mk_word [32; 32] "TRACK" 32; mk_word [] "02" 32;
                       mk_word [] "MODE2/2352" 10]))
    (replicate 255 0) MAX_TOKEN_LEN 0
  = Ret (map body [mk_word [32; 32] "TRACK" 32; mk_word [] "02" 32;
                   mk_word [] "MODE2/2352" 10]).
Proof.
  apply (token_seq_render
           [mk_word [32; 32] "TRACK" 32; mk_word [] "02" 32;
            mk_word [] "MODE2/2352" 10] (replicate 255 0) 0).
  - repeat (apply List.Forall_cons; [wf_word_tac|]). apply List.Forall_nil.
  - reflexivity.
Defined.

(** ** More on the token scanner *)

(** More fuel does not change what the loop returns. *)
Lemma find_token_loop_mono (token : list Z) :
  forall (fuel fuel' : nat) (fd : list read1) (tmp : list Z) (errno : Z)
         (r : Z * list read1 * Z),
    find_token_loop fuel fd tmp token errno = Ret r ->
    (fuel <= fuel')%nat ->
    find_token_loop fuel' fd tmp token errno = Ret r.
Proof.
  induction fuel as [|fuel IH]; intros fuel' fd tmp errno r H Hle;
    [discriminate|].
  destruct fuel' as [|fuel']; [lia|].
  cbn [find_token_loop] in *.
  destruct (strncmp tmp token (length token)) as [d| |]; cbn [obind] in *;
    try discriminate.
  destruct (d =? 0); [exact H|].
  destruct (get_token fd tmp (length token) errno)
    as [[[[rv fd1] tmp1] e1]| |]; cbn [obind] in *; try discriminate.
  destruct (rv <=? 0); [exact H|].
  apply IH; [exact H | lia].
Qed.

(** One turn of the loop: the working token does not match, and
    get_token reads another one. *)
Lemma find_token_loop_step (token : list Z) (fd : list read1)
    (tmp : list Z) (e rv : Z) (fd1 : list read1) (tmp1 : list Z) (e1 : Z)
    (r : Z * list read1 * Z) :
  (exists d, strncmp tmp token (length token) = Ret d /\ d <> 0) ->
  get_token fd tmp (length token) e = Ret (rv, fd1, tmp1, e1) ->
  0 < rv ->
  (exists f, find_token_loop f fd1 tmp1 token e1 = Ret r) ->
  exists f, find_token_loop f fd tmp token e = Ret r.
Proof.
  intros (d & Hd & Hd0) Hg Hrv [f Hf]. exists (S f).
  cbn [find_token_loop]. rewrite Hd. cbn [obind].
  destruct (Z.eqb_spec d 0); [contradiction|].
  rewrite Hg. cbn [obind].
  destruct (Z.leb_spec rv 0); [lia|]. exact Hf.
Qed.

(** A string shorter than the target does not match it. *)
Lemma strncmp_shorter (l junk token : list Z) :
  Forall (fun c => c <> 0) token ->
  (length l < length token)%nat ->
  (length token <= length (l ++ 0%Z :: junk))%nat ->
  exists d, strncmp (l ++ 0 :: junk) token (length token) = Ret d /\ d <> 0.
Proof.
  intros Hnz Hlt Hlen.
  destruct (strncmp_total token (l ++ 0 :: junk) (length token) Hlen)
    as [d Hd].
  exists d. split; [exact Hd|]. intros ->.
  apply strncmp_0_take in Hd; [|exact Hnz].
  assert (H0 : token !! length l = Some 0).
  { rewrite <- Hd. rewrite lookup_take_lt by lia.
    rewrite lookup_app_r by lia. rewrite Nat.sub_diag. reflexivity. }
  rewrite Forall_lookup in Hnz. apply (Hnz _ _ H0). reflexivity.
Qed.

(** A piece as long as the target and different from it does not match. *)
Lemma strncmp_other (w junk token : list Z) :
  Forall (fun c => c <> 0) token ->
  length w = length token ->
  w <> token ->
  exists d, strncmp (w ++ junk) token (length token) = Ret d /\ d <> 0.
Proof.
  intros Hnz Hlen Hne.
  destruct (strncmp_total token (w ++ junk) (length token)) as [d Hd].
  { rewrite length_app. lia. }
  exists d. split; [exact Hd|]. intros ->.
  apply strncmp_0_take in Hd; [|exact Hnz].
  rewrite <- Hlen in Hd. rewrite take_app_length in Hd. contradiction.
Qed.

Section FindTokenFacts.

Variable token : list Z.
Hypothesis token_ne : token <> [].
Hypothesis token_nz : Forall (fun c => c <> 0) token.

Local Notation "'mismatch' tmp" :=
  (exists d, strncmp tmp token (length token) = Ret d /\ d <> 0)
  (at level 10, tmp at level 9).

(** The turns of the loop over one word: the word is read in pieces of
    strlen (token) bytes, none of which is the target. *)
Lemma find_token_loop_word (rest : list Z) (e : Z) (r : Z * list read1 * Z) :
  (forall sp' tmp' : list Z,
     Forall (fun c => is_ws c = true) sp' ->
     length tmp' = S (length token) ->
     mismatch tmp' ->
     exists f, find_token_loop f (of_bytes (sp' ++ rest)) tmp' token e
               = Ret r) ->
  forall (k : nat) (l sp : list Z) (d : Z) (tmp : list Z),
    (length l <= k)%nat ->
    Forall plain l ->
    Forall (fun c => is_ws c = true) sp ->
    is_ws d = true ->
    token ∉ chunks k (length token) l ->
    length tmp = S (length token) ->
    mismatch tmp ->
    exists f, find_token_loop f (of_bytes (sp ++ l ++ d :: rest)) tmp token e
              = Ret r.
Proof.
  intros K.
  assert (Hn : (0 < length token)%nat).
  { destruct token; [congruence | simpl; lia]. }
  assert (Hnil : forall (sp : list Z) (d : Z) (tmp : list Z),
            Forall (fun c => is_ws c = true) sp ->
            is_ws d = true ->
            length tmp = S (length token) ->
            mismatch tmp ->
            exists f, find_token_loop f (of_bytes (sp ++ [] ++ d :: rest)) tmp
                        token e = Ret r).
  { intros sp d tmp Hsp Hd Hlen Hmis. simpl.
    replace (sp ++ d :: rest) with ((sp ++ [d]) ++ rest)
      by (rewrite <- app_assoc; reflexivity).
    apply K; [|exact Hlen|exact Hmis].
    apply Forall_app. split; [exact Hsp|]. constructor; [exact Hd|constructor]. }
  induction k as [|k IH]; intros l sp d tmp Hk Hl Hsp Hd Hch Hlen Hmis.
  { destruct l; [|simpl in Hk; lia]. apply Hnil; assumption. }
  destruct l as [|c l']; [apply Hnil; assumption|].
  assert (Hlne : c :: l' <> []) by discriminate.
  cbn [chunks] in Hch.
  assert (Hlk : (length (drop (length token) (c :: l')) <= k)%nat).
  { rewrite length_drop. simpl in *. lia. }
  remember (c :: l') as l eqn:El. clear El c l' Hk.
  destruct (Nat.lt_ge_cases (length l) (length token)) as [Hshort | Hlong].
  - (* the word is shorter than the target: one token *)
    eapply find_token_loop_step; [exact Hmis | | |].
    + apply (get_token_plain sp l rest tmp d (length token) e); try assumption.
      lia.
    + destruct l; [congruence | simpl; lia].
    + specialize (K [] (l ++ 0 :: drop (S (length l)) tmp)).
      simpl in K. apply K.
      * constructor.
      * rewrite length_app. simpl. rewrite length_drop. lia.
      * apply strncmp_shorter; [exact token_nz | exact Hshort |].
        rewrite length_app. simpl. rewrite length_drop. lia.
  - (* the first strlen (token) bytes make a token, the rest follows *)
    apply not_elem_of_cons in Hch. destruct Hch as [Hw Hch].
    assert (Hwl : length (take (length token) l) = length token)
      by (rewrite length_take; lia).
    pose proof (get_token_cut sp (take (length token) l)
                  (drop (length token) l ++ d :: rest) tmp e Hsp) as Hcut.
    rewrite Hwl in Hcut.
    rewrite (app_assoc (take _ l)), take_drop in Hcut.
    destruct (Nat.ltb_spec (length token) (length tmp)) as [_|]; [|lia].
    eapply find_token_loop_step; [exact Hmis | | |].
    + apply Hcut.
      * intros E. rewrite E in Hwl. simpl in Hwl. lia.
      * apply Forall_take. exact Hl.
    + lia.
    + apply (IH (drop (length token) l) [] d).
      * exact Hlk.
      * apply Forall_drop. exact Hl.
      * constructor.
      * exact Hd.
      * exact Hch.
      * rewrite length_app. simpl. rewrite length_drop. lia.
      * apply strncmp_other; [exact token_nz | exact Hwl | congruence].
Qed.

(** The turns of the loop over the words of a text. *)
Lemma find_token_loop_words (tail : list Z) (e : Z)
    (r : Z * list read1 * Z) :
  (forall sp' tmp' : list Z,
     Forall (fun c => is_ws c = true) sp' ->
     length tmp' = S (length token) ->
     mismatch tmp' ->
     exists f, find_token_loop f (of_bytes (sp' ++ tail)) tmp' token e
               = Ret r) ->
  forall (ts : list word) (sp tmp : list Z),
    Forall wf_word ts ->
    Forall (fun t => token ∉ cut_tokens (length token) (body t)) ts ->
    Forall (fun c => is_ws c = true) sp ->
    length tmp = S (length token) ->
    mismatch tmp ->
    exists f, find_token_loop f (of_bytes (sp ++ render ts ++ tail)) tmp
                token e = Ret r.
Proof.
  intros K. induction ts as [|t ts IH]; intros sp tmp Hts Hch Hsp Hlen Hmis.
  - simpl. apply K; assumption.
  - inversion Hts as [|? ? Ht Hts']; subst.
    inversion Hch as [|? ? Hc Hch']; subst.
    destruct Ht as [Hlead _ Hplain _ _ Hdelim].
    cbn [render]. unfold render1.
    replace (sp ++ ((lead t ++ body t ++ [delim t]) ++ render ts) ++ tail)
      with ((sp ++ lead t) ++ body t ++ delim t :: (render ts ++ tail))
      by (rewrite <- !app_assoc; reflexivity).
    apply (find_token_loop_word (render ts ++ tail) e r) with
      (k := length (body t)); try assumption.
    + intros sp' tmp' Hsp' Hlen' Hmis'. apply IH; assumption.
    + lia.
    + apply Forall_app. split; assumption.
Qed.

(** X6: on a text of words none of which, cut into pieces of
    strlen (token) bytes, has the target among its pieces, find_token
    finds the target that follows them: it returns 0 and leaves the
    stream right after the last byte of the target.  Without such a
    target after the words it uses up the stream and returns -1. *)
Theorem find_token_over_words (ts : list word) (sp rest : list Z)
    (errno : Z) :
  Forall plain token ->
  Forall wf_word ts ->
  Forall (fun t => token ∉ cut_tokens (length token) (body t)) ts ->
  Forall (fun c => is_ws c = true) sp ->
  find_token true (of_bytes (render ts ++ sp ++ token ++ rest)) token errno
    = Ret (0, of_bytes rest, errno) /\
  find_token true (of_bytes (render ts)) token errno = Ret (-1, [], errno).
Proof.
  intros Hplain Hts Hch Hsp.
  assert (Hn : (0 < length token)%nat).
  { destruct token; [congruence | simpl; lia]. }
  assert (Hinit : mismatch (replicate (S (length token)) 0)).
  { destruct token as [|c tk] eqn:E; [congruence|].
    inversion token_nz; subst. cbn [length replicate strncmp hd].
    destruct (Z.eqb_spec 0 c) as [|NE]; [congruence|].
    cbn [negb]. eexists. split; [reflexivity | lia]. }
  assert (Huse : forall (fd : list read1) (r : Z * list read1 * Z),
            (exists f, find_token_loop f fd (replicate (S (length token)) 0)
                         token errno = Ret r) ->
            find_token true fd token errno = Ret r).
  { intros fd r [f Hf]. unfold find_token. cbn [negb].
    destruct (find_token_loop_returns token (length fd + 2) fd
                (replicate (S (length token)) 0) errno)
      as (rv & fd' & e' & E & _); [lia | apply length_replicate |].
    rewrite E.
    apply (find_token_loop_mono token _ (Nat.max f (length fd + 2))) in E;
      [|lia].
    apply (find_token_loop_mono token _ (Nat.max f (length fd + 2))) in Hf;
      [|lia].
    congruence. }
  split.
  - apply Huse.
    pose proof (find_token_loop_words (sp ++ token ++ rest) errno
                  (0, of_bytes rest, errno)) as H.
    specialize (fun K => H K ts [] (replicate (S (length token)) 0)).
    cbn [app] in H. apply H; try assumption.
    + intros sp' tmp' Hsp' Hlen' Hmis'.
      exists 2%nat. cbn [find_token_loop].
      destruct Hmis' as (d & -> & Hd). cbn [obind].
      destruct (Z.eqb_spec d 0); [contradiction|].
      pose proof (get_token_cut (sp' ++ sp) token rest tmp' errno) as Hcut.
      rewrite <- app_assoc in Hcut. rewrite Hcut.
      * destruct (Nat.ltb_spec (length token) (length tmp')); [|lia].
        cbn [obind]. destruct (Z.leb_spec (Z.of_nat (length token)) 0); [lia|].
        rewrite strncmp_take_0. reflexivity.
      * apply Forall_app. split; assumption.
      * exact token_ne.
      * exact Hplain.
    + constructor.
    + apply length_replicate.
  - apply Huse.
    pose proof (find_token_loop_words [] errno (-1, [], errno)) as H.
    specialize (fun K => H K ts [] (replicate (S (length token)) 0)).
    cbn [app] in H. rewrite app_nil_r in H. apply H; try assumption.
    + intros sp' tmp' Hsp' Hlen' Hmis'.
      exists 1%nat. cbn [find_token_loop].
      destruct Hmis' as (d & -> & Hd). cbn [obind].
      destruct (Z.eqb_spec d 0); [contradiction|].
      rewrite app_nil_r. unfold get_token.
      destruct tmp' as [|t0 tk]; [simpl in Hlen'; lia|].
      destruct (get_token_loop_skip sp' [] t0 tk (length token) false errno
                  Hsp') as [t0' E].
      rewrite app_nil_r in E. rewrite E. reflexivity.
    + constructor.
    + apply length_replicate.
Qed.

End FindTokenFacts.

Lemma find_token_over_words_witness :
  find_token true
    (of_bytes (render [mk_word [32] "FLAGS" 32; mk_word [] "DCP" 10;
                       mk_word [32] "PREGAP" 32; mk_word [] "00:02:00" 10]
               ++ [32; 32] ++ INDEX_lit ++ bytes " 01 00:00:00"))
    INDEX_lit 0
    = Ret (0, of_bytes (bytes " 01 00:00:00"), 0) /\
  find_token true
    (of_bytes (render [mk_word [32] "FLAGS" 32; mk_word [] "DCP" 10;
                       mk_word [32] "PREGAP" 32; mk_word [] "00:02:00" 10]))
    INDEX_lit 0
    = Ret (-1, [], 0).
Proof.
  apply (find_token_over_words INDEX_lit).
  - discriminate.
  - all_bytes.
  - all_bytes.
  - repeat (apply List.Forall_cons; [wf_word_tac|]). apply List.Forall_nil.
  - repeat (apply List.Forall_cons; [cbv beta; decide_true|]).
    apply List.Forall_nil.
  - all_bytes.
Defined.

(** ** More on the cue-sheet locator *)

Lemma items_text_length (l : list cue_item) :
  Forall wf_item l -> (length l <= length (items_text l))%nat.
Proof.
  induction 1 as [|i l Hi _ IH]; [simpl; lia|].
  cbn [items_text length]. rewrite length_app.
  enough (1 <= length (item_text i))%nat by lia.
  destruct i as [t | kw sp c q | t tn ta]; cbn [item_text render];
    unfold render1; rewrite !length_app; simpl; lia.
Qed.

Lemma wrap32_mul_l (a b : Z) : wrap32 (wrap32 a * b) = wrap32 (a * b).
Proof.
  unfold wrap32. f_equal.
  pose proof (Z.div_mod (a + 2 ^ 31) (2 ^ 32) ltac:(lia)) as H.
  replace ((a + 2 ^ 31) mod 2 ^ 32 - 2 ^ 31)
    with (a + (- ((a + 2 ^ 31) / 2 ^ 32)) * 2 ^ 32) by lia.
  replace ((a + - ((a + 2 ^ 31) / 2 ^ 32) * 2 ^ 32) * b + 2 ^ 31)
    with (a * b + 2 ^ 31 + (- ((a + 2 ^ 31) / 2 ^ 32) * b) * 2 ^ 32) by ring.
  apply Z.mod_add. lia.
Qed.

Lemma wrap32_mul_r (a b : Z) : wrap32 (a * wrap32 b) = wrap32 (a * b).
Proof. rewrite (Z.mul_comm a), wrap32_mul_l, Z.mul_comm. reflexivity. Qed.

(** The offset depends on the product of the three fields only. *)
Lemma cue_offset_product (m s f : Z) :
  cue_offset m s f = wrap32 (112500 * (m * s * f)).
Proof.
  unfold cue_offset.
  rewrite wrap32_mul_l, <- Z.mul_assoc, wrap32_mul_l.
  rewrite <- Z.mul_assoc, wrap32_mul_l.
  replace (m * 60 * (wrap32 (s * 75) * (f * 25)))
    with (wrap32 (s * 75) * (m * 60 * (f * 25))) by ring.
  rewrite wrap32_mul_l. f_equal. ring.
Qed.

Section CueItemFacts.

Variable PATH_MAX_LENGTH : nat.
Variable fill_pathname_basedir : list Z -> nat -> list Z.
Variable fill_pathname_join : list Z -> list Z -> nat -> list Z.
Variable cue_path : list Z.
Variable max_len : nat.

Local Notation "'loop'" :=
  (cue_loop PATH_MAX_LENGTH fill_pathname_basedir fill_pathname_join
     cue_path max_len).
Local Notation "'locate'" :=
  (find_first_data_track PATH_MAX_LENGTH fill_pathname_basedir
     fill_pathname_join cue_path max_len).
Local Notation "'path_of' name" :=
  (fill_pathname_join (fill_pathname_basedir cue_path PATH_MAX_LENGTH)
     name max_len) (at level 10, name at level 9).

(** The turns of the main loop over entries that are not a data track:
    each FILE entry sets the track path. *)
Lemma cue_loop_items (items : list cue_item) :
  forall (fuel : nat) (c : bool) (rest tmp : list Z) (e : Z)
         (tp : option (list Z)) (ev : list event),
    Forall wf_item items ->
    length tmp = MAX_TOKEN_LEN ->
    exists tmp',
      length tmp' = MAX_TOKEN_LEN /\
      loop (length items + fuel) c (of_bytes (items_text items ++ rest))
        tmp e tp ev
      = loop fuel c (of_bytes rest) tmp' e
          (match last_file items with
           | Some name => Some (path_of name)
           | None => tp
           end)
          (ev ++ file_events items).
Proof.
  induction items as [|i items IH]; intros fuel c rest tmp e tp ev Hit Htmp.
  - exists tmp. rewrite app_nil_r. auto.
  - inversion Hit as [|? ? Hi Hit']; subst.
    cbn [items_text length Nat.add]. rewrite <- app_assoc.
    destruct i as [t | kw sp c0 q | t tn ta]; cbn [item_text wf_item] in *.
    + destruct (cue_loop_other PATH_MAX_LENGTH fill_pathname_basedir
                  fill_pathname_join cue_path max_len t
                  (length items + fuel) c (items_text items ++ rest) tmp e
                  tp ev Hi Htmp) as (tmp1 & Hl1 & E1).
      rewrite E1.
      destruct (IH fuel c rest tmp1 e tp ev Hit' Hl1) as (tmp2 & Hl2 & E2).
      exists tmp2. split; [exact Hl2|]. rewrite E2.
      cbn [last_file file_events]. destruct (last_file items); reflexivity.
    + destruct Hi as (Hkw & HF & Hsp & Hc & Hq & Hnz & Hlen).
      rewrite <- (app_assoc (render1 kw)).
      destruct (cue_loop_file PATH_MAX_LENGTH fill_pathname_basedir
                  fill_pathname_join cue_path max_len kw sp c0 q
                  (length items + fuel) c (items_text items ++ rest) tmp e
                  tp ev Hkw HF Hsp Hc Hq Hnz Hlen Htmp) as (tmp1 & Hl1 & E1).
      rewrite E1.
      destruct (IH fuel c rest tmp1 e (Some (path_of (c0 :: q)))
                  (ev ++ [Acquire CueDir; Release CueDir]) Hit' Hl1)
        as (tmp2 & Hl2 & E2).
      exists tmp2. split; [exact Hl2|]. rewrite E2.
      cbn [last_file file_events]. rewrite <- app_assoc.
      destruct (last_file items); reflexivity.
    + destruct Hi as (Ht & HT & Htn & Hta & HA).
      destruct (cue_loop_audio PATH_MAX_LENGTH fill_pathname_basedir
                  fill_pathname_join cue_path max_len t tn ta
                  (length items + fuel) c (items_text items ++ rest) tmp e
                  tp ev Ht HT Htn Hta HA Htmp) as (tmp1 & Hl1 & E1).
      rewrite E1.
      destruct (IH fuel c rest tmp1 e tp ev Hit' Hl1) as (tmp2 & Hl2 & E2).
      exists tmp2. split; [exact Hl2|]. rewrite E2.
      cbn [last_file file_events]. destruct (last_file items); reflexivity.
Qed.

(** The locator on entries that are not a data track, and then the first
    data track. *)
Lemma locate_items_data (items : list cue_item) (cs : cue_sheet)
    (env : cue_env) :
  Forall wf_item items ->
  wf_data_track cs ->
  env_init env = None ->
  env_open env = Opened (of_bytes (items_text items ++ data_track_text cs)) ->
  length (env_junk env) = MAX_TOKEN_LEN ->
  env_calloc_ok env = true ->
  locate env
  = Ret (data_track_result (body (cs_stamp cs)) (env_errno env)
           (match last_file items with
            | Some name => Some (path_of name)
            | None => None
            end)
           ([Acquire TmpToken; Acquire Handle] ++ file_events items)).
Proof.
  intros Hit Hd Hinit Hopen Hjunk Hcalloc.
  unfold find_first_data_track. rewrite Hinit, Hopen.
  rewrite store_lt by (rewrite Hjunk; unfold MAX_TOKEN_LEN; lia).
  cbn [obind]. rewrite Hcalloc.
  assert (Hfuel : exists r,
            S (length (of_bytes (items_text items ++ data_track_text cs)))
            = (length items + S r)%nat).
  { exists (length (items_text items ++ data_track_text cs)
            - length items)%nat.
    unfold of_bytes. rewrite length_map, length_app.
    pose proof (items_text_length items Hit). lia. }
  destruct Hfuel as [r ->].
  destruct (cue_loop_items items (S r) true (data_track_text cs)
              (<[0%nat:=0]> (env_junk env)) (env_errno env) None
              ([Acquire TmpToken] ++ [Acquire Handle]) Hit)
    as (tmp1 & Hl1 & E1).
  { rewrite length_insert. exact Hjunk. }
  rewrite E1.
  rewrite (cue_loop_data PATH_MAX_LENGTH fill_pathname_basedir
             fill_pathname_join cue_path max_len cs r tmp1 (env_errno env) _ _
             Hd Hl1).
  reflexivity.
Qed.

(** X7: the track path is joined from the name of the last FILE entry
    before the first track that is not AUDIO; when no FILE entry comes
    before that track, track_path is not written, and the call returns 0
    all the same when the stamp parses. *)
Theorem find_first_data_track_last_file (items : list cue_item)
    (cs : cue_sheet) (env : cue_env) :
  Forall wf_item items ->
  wf_data_track cs ->
  env_init env = None ->
  env_open env = Opened (of_bytes (items_text items ++ data_track_text cs)) ->
  length (env_junk env) = MAX_TOKEN_LEN ->
  env_calloc_ok env = true ->
  exists res,
    locate env = Ret res /\
    cue_track_path res
    = match last_file items with
      | Some name => Some (path_of name)
      | None => None
      end /\
    (3 <= fst (sscanf_msf (body (cs_stamp cs))) -> cue_rv res = 0).
Proof.
  intros Hit Hd Hinit Hopen Hjunk Hcalloc.
  rewrite (locate_items_data items cs env) by assumption.
  eexists. split; [reflexivity|].
  unfold data_track_result.
  destruct (sscanf_msf (body (cs_stamp cs))) as [n [[m s] f]].
  split; [reflexivity|]. cbn [fst cue_rv]. intros Hn.
  destruct (Z.ltb_spec n 3); [lia | reflexivity].
Qed.

(** X8: the offset is 112500 * m * s * f reduced to 32 bits: it depends
    on the product of the three fields of the stamp only, and it is 0 as
    soon as one field is 0. *)
Theorem find_first_data_track_offset_product (items : list cue_item)
    (cs : cue_sheet) (m s f : Z) (env : cue_env) :
  Forall wf_item items ->
  wf_data_track cs ->
  0 <= m < 100 -> 0 <= s < 100 -> 0 <= f < 100 ->
  body (cs_stamp cs) = msf_text m s f ->
  env_init env = None ->
  env_open env = Opened (of_bytes (items_text items ++ data_track_text cs)) ->
  length (env_junk env) = MAX_TOKEN_LEN ->
  env_calloc_ok env = true ->
  exists res,
    locate env = Ret res /\
    cue_rv res = 0 /\
    cue_offset_out res = Some (wrap32 (112500 * (m * s * f))) /\
    (m = 0 \/ s = 0 \/ f = 0 -> cue_offset_out res = Some 0).
Proof.
  intros Hit Hd Hm Hs Hf Hstamp Hinit Hopen Hjunk Hcalloc.
  rewrite (locate_items_data items cs env) by assumption.
  eexists. split; [reflexivity|].
  unfold data_track_result. rewrite Hstamp.
  rewrite sscanf_msf_text by assumption.
  cbn [Z.ltb Z.compare Pos.compare Pos.compare_cont cue_rv cue_offset_out].
  rewrite cue_offset_product.
  split; [reflexivity|]. split; [reflexivity|].
  intros H0. f_equal.
  replace (m * s * f) with 0 by (destruct H0 as [-> | [-> | ->]]; ring).
  reflexivity.
Qed.

(** X9: a cue sheet without a track that is not AUDIO makes the locator
    return -EINVAL, with every block freed and the handle closed; the
    track path has been written all the same if there was a FILE
    entry. *)
Theorem find_first_data_track_no_data_track (items : list cue_item)
    (env : cue_env) :
  Forall wf_item items ->
  env_init env = None ->
  env_open env = Opened (of_bytes (items_text items)) ->
  length (env_junk env) = MAX_TOKEN_LEN ->
  locate env
  = Ret {| cue_rv := - EINVAL;
           cue_offset_out := None;
           cue_track_path :=
             match last_file items with
             | Some name => Some (path_of name)
             | None => None
             end;
           cue_errno := env_errno env;
           cue_events := [Acquire TmpToken; Acquire Handle]
                         ++ file_events items
                         ++ [Release TmpToken; Release Handle] |}.
Proof.
  intros Hit Hinit Hopen Hjunk.
  unfold find_first_data_track. rewrite Hinit, Hopen.
  rewrite store_lt by (rewrite Hjunk; unfold MAX_TOKEN_LEN; lia).
  cbn [obind].
  assert (Hfuel : exists r,
            S (length (of_bytes (items_text items)))
            = (length items + S r)%nat).
  { exists (length (items_text items) - length items)%nat.
    unfold of_bytes. rewrite length_map.
    pose proof (items_text_length items Hit). lia. }
  destruct Hfuel as [r ->].
  destruct (cue_loop_items items (S r) (env_calloc_ok env) []
              (<[0%nat:=0]> (env_junk env)) (env_errno env) None
              ([Acquire TmpToken] ++ [Acquire Handle]) Hit)
    as (tmp1 & Hl1 & E1).
  { rewrite length_insert. exact Hjunk. }
  rewrite app_nil_r in E1. rewrite E1.
  cbn [cue_loop of_bytes map get_token get_token_loop obind].
  change (0 <=? 0) with true. cbv iota.
  rewrite <- app_assoc. reflexivity.
Qed.

End CueItemFacts.

(** *** A cue sheet with two FILE entries *)

Lemma example_items_wf : Forall wf_item example_items.
Proof.
  unfold example_items.
  repeat (apply List.Forall_cons;
          [ cbn [wf_item];
            first
              [ passed_over_tac
              | split; [wf_word_tac|]; split; [reflexivity|];
                split; [all_bytes|];
                split; [split; [reflexivity | discriminate]|];
                split; [all_bytes|]; split; [all_bytes|];
                apply Nat.ltb_lt; vm_compute; reflexivity
              | split; [wf_word_tac|]; split; [reflexivity|];
                split; [wf_word_tac|]; split; [wf_word_tac|]; reflexivity ]
          | ]).
  apply List.Forall_nil.
Qed.

Lemma example_data_track_wf : wf_data_track (example_cue "00:02:00").
Proof. apply wf_data, example_cue_wf, example_stamp_0200_wf. Qed.

Lemma find_first_data_track_last_file_witness :
  exists res,
    find_first_data_track 4096 example_basedir example_join
      (bytes "roms/game.cue") 4096
      (example_env (items_text example_items
                    ++ data_track_text (example_cue "00:02:00")) 0) = Ret res /\
    cue_track_path res
    = match last_file example_items with
      | Some name =>
          Some (example_join (example_basedir (bytes "roms/game.cue") 4096)
                  name 4096)
      | None => None
      end /\
    (3 <= fst (sscanf_msf (body (cs_stamp (example_cue "00:02:00")))) ->
     cue_rv res = 0).
Proof.
  apply (find_first_data_track_last_file 4096 example_basedir example_join
           (bytes "roms/game.cue") 4096 example_items
           (example_cue "00:02:00")
           (example_env (items_text example_items
                         ++ data_track_text (example_cue "00:02:00")) 0)).
  - exact example_items_wf.
  - exact example_data_track_wf.
  - reflexivity.
  - reflexivity.
  - reflexivity.
  - reflexivity.
Defined.

Lemma find_first_data_track_offset_product_witness :
  exists res,
    find_first_data_track 4096 example_basedir example_join
      (bytes "roms/game.cue") 4096
      (example_env (items_text example_items
                    ++ data_track_text (example_cue "00:02:00")) 0) = Ret res /\
    cue_rv res = 0 /\
    cue_offset_out res = Some (wrap32 (112500 * (0 * 2 * 0))) /\
    (0 = 0 \/ 2 = 0 \/ 0 = 0 -> cue_offset_out res = Some 0).
Proof.
  apply (find_first_data_track_offset_product 4096 example_basedir
           example_join (bytes "roms/game.cue") 4096 example_items
           (example_cue "00:02:00") 0 2 0
           (example_env (items_text example_items
                         ++ data_track_text (example_cue "00:02:00")) 0)).
  - exact example_items_wf.
  - exact example_data_track_wf.
  - lia.
  - lia.
  - lia.
  - reflexivity.
  - reflexivity.
  - reflexivity.
  - reflexivity.
  - reflexivity.
Defined.

Lemma find_first_data_track_no_data_track_witness :
  find_first_data_track 4096 example_basedir example_join
    (bytes "roms/game.cue") 4096
    (example_env (items_text example_items) 0)
  = Ret {| cue_rv := - EINVAL;
           cue_offset_out := None;
           cue_track_path :=
             match last_file example_items with
             | Some name =>
                 Some (example_join
                         (example_basedir (bytes "roms/game.cue") 4096)
                         name 4096)
             | None => None
             end;
           cue_errno := env_errno (example_env (items_text example_items) 0);
           cue_events := [Acquire TmpToken; Acquire Handle]
                         ++ file_events example_items
                         ++ [Release TmpToken; Release Handle] |}.
Proof.
  apply (find_first_data_track_no_data_track 4096 example_basedir
           example_join (bytes "roms/game.cue") 4096 example_items
           (example_env (items_text example_items) 0)).
  - exact example_items_wf.
  - reflexivity.
  - reflexivity.
  - reflexivity.
Defined.

(** ** More on the signature matcher *)

(** A rule at whose offset the read is short ends the loop with -errno,
    without a name; errno is as it was. *)
Lemma detect_system_loop_short (e : magic_entry) (tbl : list magic_entry)
    (fd : intfstream) (magic : list Z) (errno : Z) (bs : list Z) :
  length magic = MAGIC_LEN ->
  me_system_name e <> None ->
  st_read_at fd (me_offset e) MAGIC_LEN = RdData bs ->
  (length (take MAGIC_LEN bs) < MAGIC_LEN)%nat ->
  exists fd',
    detect_system_loop (e :: tbl) fd magic errno
      = Ret (- errno, None, fd', errno) /\
    st_seeks fd' = st_seeks fd ++ [me_offset e].
Proof.
  intros Hmagic Hname Hrd Hl.
  destruct (me_system_name e) as [name|] eqn:En; [|congruence].
  destruct (seek_read_data fd (me_offset e) MAGIC_LEN bs magic errno Hrd)
    as (fd' & E & _ & _ & Hseeks); [lia|].
  exists fd'. split; [|exact Hseeks].
  cbn [detect_system_loop]. rewrite En, E. cbn [obind].
  destruct (Z.ltb_spec (Z.of_nat (length (take MAGIC_LEN bs)))
              (Z.of_nat MAGIC_LEN)); [reflexivity | lia].
Qed.

(** X10: on a file of fewer than 0x838840 + 17 bytes that does not begin
    with the ps1 pattern, detect_system names no system and returns
    -errno with errno as it was on entry (0 when no error was pending):
    the read at offset 0 or the read for the pcecd rule is short, and
    neither the scd rule nor the PSP GAME probe is tried. *)
Theorem detect_system_short_image (content magic : list Z) (errno : Z) :
  length magic = MAGIC_LEN ->
  Z.of_nat (length content) < 0x838840 + 17 ->
  take MAGIC_LEN content <> me_magic rule_ps1 ->
  exists fd',
    detect_system (file_stream content) magic errno
      = Ret (- errno, None, fd', errno) /\
    (st_seeks fd' = [0] \/ st_seeks fd' = [0; 0x838840]).
Proof.
  intros Hmagic Hlen Hne.
  unfold detect_system, detect_system_with, MAGIC_NUMBERS.
  pose proof (file_stream_read_at content 0 MAGIC_LEN ltac:(lia)) as Hrd0.
  change (bytes_at content 0) with (drop 0 content) in Hrd0.
  rewrite drop_0 in Hrd0.
  destruct (Nat.lt_ge_cases (length content) MAGIC_LEN) as [Hs | Hl].
  - destruct (detect_system_loop_short rule_ps1 [rule_pcecd; rule_scd; rule_end]
                (file_stream content) magic errno (take MAGIC_LEN content)
                Hmagic ltac:(discriminate) Hrd0) as (fd' & E & Hseeks).
    { rewrite !length_take. lia. }
    exists fd'. split; [exact E|]. left. exact Hseeks.
  - destruct (detect_system_loop_pass rule_ps1 [rule_pcecd; rule_scd; rule_end]
                (file_stream content) magic errno (take MAGIC_LEN content)
                Hmagic) as (fd1 & magic1 & E1 & Hl1 & Hrd1 & Hs1).
    { split; [discriminate | reflexivity]. }
    { exact Hrd0. }
    { rewrite !length_take. lia. }
    { rewrite take_take, Nat.min_id. exact Hne. }
    rewrite E1.
    destruct (detect_system_loop_short rule_pcecd [rule_scd; rule_end]
                fd1 magic1 errno
                (take MAGIC_LEN (bytes_at content 0x838840))
                Hl1 ltac:(discriminate)) as (fd' & E & Hseeks).
    { rewrite Hrd1. apply file_stream_read_at. lia. }
    { rewrite !length_take, bytes_at_length by lia.
      unfold MAGIC_LEN in *. lia. }
    exists fd'. split; [exact E|]. right.
    rewrite Hseeks, Hs1. reflexivity.
Qed.

Lemma detect_system_short_image_witness :
  exists fd',
    detect_system (file_stream (replicate 2048 0)) (replicate 17 0) 0
      = Ret (- 0, None, fd', 0) /\
    (st_seeks fd' = [0] \/ st_seeks fd' = [0; 0x838840]).
Proof.
  apply (detect_system_short_image (replicate 2048 0) (replicate 17 0) 0).
  - reflexivity.
  - vm_compute. reflexivity.
  - vm_compute. discriminate.
Defined.

(** The PSP GAME probe when the read delivers eight bytes. *)
Lemma detect_system_fallback_full (fd : intfstream) (magic : list Z)
    (errno : Z) (bs : list Z) :
  length magic = MAGIC_LEN ->
  st_read_at fd 0x8008 8 = RdData bs ->
  length (take 8 bs) = 8%nat ->
  exists fd',
    detect_system_fallback fd magic errno
      = Ret (if bool_decide (take 8 bs = PSP_GAME_lit)
             then (0, Some "psp"%string, fd', errno)
             else (- EINVAL, None, fd', errno)) /\
    st_read_at fd' = st_read_at fd /\
    st_size fd' = st_size fd /\
    st_pos fd' = 0x8008 + 8 /\
    st_seeks fd' = st_seeks fd ++ [0x8008].
Proof.
  intros Hmagic Hrd Hl. unfold detect_system_fallback.
  unfold intfstream_read, intfstream_seek.
  cbn [st_read_at st_pos st_size st_seeks]. rewrite Hrd.
  rewrite store_bytes_fit by (rewrite Hl, Hmagic; unfold MAGIC_LEN; lia).
  cbn [obind]. rewrite Hl. change (0 <? Z.of_nat 8) with true. cbv iota.
  rewrite store_app_at; [|exact Hl|].
  2:{ intros E. apply (f_equal length) in E. rewrite length_drop, Hmagic in E.
      unfold MAGIC_LEN in E. simpl in E. lia. }
  cbn [obind].
  set (rest := drop 1 (drop 8 magic)).
  destruct (cstr_app_nul_prefix (take 8 bs) rest) as (s & Hs & Hcase).
  eexists. split.
  { unfold string_is_empty, string_is_equal. rewrite Hs.
    destruct (take 8 bs) as [|b0 bs'] eqn:Eb; [simpl in Hl; lia|].
    cbn [app load lookup list_lookup obind].
    destruct (Z.eqb_spec b0 0) as [-> | Hb0].
    - rewrite bool_decide_eq_false_2; [reflexivity|].
      unfold PSP_GAME_lit. congruence.
    - cbn [obind]. destruct Hcase as [-> | [Hlt H0]].
      + unfold bytes_eqb. destruct (bool_decide _); reflexivity.
      + rewrite bytes_eqb_neq.
        2:{ intros ->. rewrite Hl in Hlt. vm_compute in Hlt. lia. }
        rewrite bool_decide_eq_false_2; [reflexivity|].
        intros E. rewrite E in H0.
        assert (Hno : 0 ∉ PSP_GAME_lit) by decide_true.
        contradiction. }
  cbn [st_read_at st_size st_pos st_seeks]. auto.
Qed.

(** X11: when the three rules of the table are read in full and none
    matches, the eight bytes at 0x8008 decide: PSP GAME gives 0 and the
    name psp, anything else gives -EINVAL and no name. *)
Theorem detect_system_psp_fallback (fd : intfstream) (magic : list Z)
    (errno : Z) (bs : list Z) :
  length magic = MAGIC_LEN ->
  (forall e, e ∈ MAGIC_NUMBERS -> me_system_name e <> None ->
     exists rs, st_read_at fd (me_offset e) MAGIC_LEN = RdData rs /\
                length (take MAGIC_LEN rs) = MAGIC_LEN /\
                take MAGIC_LEN rs <> me_magic e) ->
  st_read_at fd 0x8008 8 = RdData bs ->
  length (take 8 bs) = 8%nat ->
  exists fd',
    detect_system fd magic errno
      = Ret (if bool_decide (take 8 bs = PSP_GAME_lit)
             then (0, Some "psp"%string, fd', errno)
             else (- EINVAL, None, fd', errno)) /\
    st_seeks fd' = st_seeks fd ++ [0; 0x838840; 0; 0x8008].
Proof.
  intros Hmagic Hrules Hrd Hl.
  unfold detect_system, detect_system_with, MAGIC_NUMBERS.
  destruct (Hrules rule_ps1) as (r1 & Hr1 & Hl1 & Hn1);
    [apply list_elem_of_here | discriminate |].
  destruct (Hrules rule_pcecd) as (r2 & Hr2 & Hl2 & Hn2);
    [apply list_elem_of_further, list_elem_of_here | discriminate |].
  destruct (Hrules rule_scd) as (r3 & Hr3 & Hl3 & Hn3);
    [do 2 apply list_elem_of_further; apply list_elem_of_here
    | discriminate |].
  destruct (detect_system_loop_pass rule_ps1 [rule_pcecd; rule_scd; rule_end]
              fd magic errno r1 Hmagic) as (fd1 & m1 & E1 & Hm1 & Hrd1 & Hs1);
    [split; [discriminate | reflexivity] | assumption..|].
  rewrite E1.
  destruct (detect_system_loop_pass rule_pcecd [rule_scd; rule_end]
              fd1 m1 errno r2 Hm1) as (fd2 & m2 & E2 & Hm2 & Hrd2 & Hs2);
    [split; [discriminate | reflexivity] | rewrite Hrd1; assumption
    | assumption.. |].
  rewrite E2.
  destruct (detect_system_loop_pass rule_scd [rule_end]
              fd2 m2 errno r3 Hm2) as (fd3 & m3 & E3 & Hm3 & Hrd3 & Hs3);
    [split; [discriminate | reflexivity] | rewrite Hrd2, Hrd1; assumption
    | assumption.. |].
  rewrite E3. cbn [detect_system_loop rule_end me_system_name].
  destruct (detect_system_fallback_full fd3 m3 errno bs Hm3)
    as (fd' & E & _ & _ & _ & Hs); [rewrite Hrd3, Hrd2, Hrd1; assumption
                                   | assumption |].
  exists fd'. split; [exact E|].
  rewrite Hs, Hs3, Hs2, Hs1, <- !app_assoc. reflexivity.
Qed.

Lemma detect_system_psp_fallback_witness :
  exists fd',
    detect_system example_psp_stream (replicate 17 7) 0
      = Ret (if bool_decide (take 8 PSP_GAME_lit = PSP_GAME_lit)
             then (0, Some "psp"%string, fd', 0)
             else (- EINVAL, None, fd', 0)) /\
    st_seeks fd' = st_seeks example_psp_stream ++ [0; 0x838840; 0; 0x8008].
Proof.
  apply (detect_system_psp_fallback example_psp_stream (replicate 17 7) 0
           PSP_GAME_lit).
  - reflexivity.
  - intros e He Hname.
    exists (replicate MAGIC_LEN 0).
    repeat (apply elem_of_cons in He; destruct He as [-> | He]);
      [ | | | contradiction | apply elem_of_nil in He; contradiction ];
      (split; [reflexivity|]; split; [reflexivity | vm_compute; discriminate]).
  - reflexivity.
  - reflexivity.
Defined.

(** The PSP GAME probe names a system only after a read that delivered
    at least one byte, and eight bytes only if they are PSP GAME. *)
Lemma detect_system_fallback_sound (fd : intfstream) (magic : list Z)
    (errno rv : Z) (name : string) (fd' : intfstream) (errno' : Z) :
  length magic = MAGIC_LEN ->
  detect_system_fallback fd magic errno = Ret (rv, Some name, fd', errno') ->
  rv = 0 /\ errno' = errno /\ name = "psp"%string /\
  exists bs, st_read_at fd 0x8008 8 = RdData bs /\
             take 8 bs <> [] /\
             (length (take 8 bs) = 8%nat -> take 8 bs = PSP_GAME_lit).
Proof.
  intros Hmagic H. unfold detect_system_fallback in H.
  step_in H. destruct a as [[[n fd1] magic1] errno1].
  apply intfstream_read_inv in E.
  destruct E as (_ & _ & _ & Hl1 & Hcase).
  cbn [intfstream_seek st_read_at st_pos] in Hcase.
  step_in H; [|discriminate].
  destruct Hcase as [(e & _ & -> & _) | (bs & Hrd & -> & -> & ->)];
    [discriminate|].
  step_in H. step_in H. step_in H; [discriminate|].
  step_in H. step_in H; [|discriminate].
  inversion H; subst. split; [reflexivity|]. split; [reflexivity|].
  split; [reflexivity|].
  exists bs. split; [exact Hrd|]. split.
  { intros E9. rewrite E9 in E. simpl in E. discriminate. }
  intros Hl8.
  destruct (drop (length (take 8 bs)) magic) as [|d0 dr] eqn:Ed.
  { apply (f_equal length) in Ed. rewrite length_drop, Hl8, Hmagic in Ed.
    vm_compute in Ed. discriminate. }
  rewrite store_app_at in E0 by (auto; discriminate).
  inversion E0; subst a. clear E0.
  destruct (cstr_app_nul_prefix (take 8 bs) (drop 0 dr))
    as (s & Hs & Hor).
  unfold string_is_equal in E3. rewrite Hs in E3. cbn [obind] in E3.
  inversion E3 as [Heq]. clear E3.
  unfold bytes_eqb in Heq. apply bool_decide_eq_true_1 in Heq. subst s.
  destruct Hor as [<- | [Hlt _]]; [reflexivity|].
  rewrite Hl8 in Hlt. vm_compute in Hlt. lia.
Qed.

(** A name that the loop over a table assigns is the name of a rule
    whose pattern the stream carries at the offset of the rule, or it
    comes from the PSP GAME probe. *)
Lemma detect_system_loop_sound (tbl : list magic_entry) :
  forall (fd : intfstream) (magic : list Z) (errno rv : Z) (name : string)
         (fd' : intfstream) (errno' : Z),
    length magic = MAGIC_LEN ->
    Forall (fun e => me_system_name e = None \/ named e) tbl ->
    detect_system_loop tbl fd magic errno = Ret (rv, Some name, fd', errno') ->
    rv = 0 /\ errno' = errno /\
    ((exists e, e ∈ tbl /\ me_system_name e = Some name /\
                rule_matches fd e) \/
     (name = "psp"%string /\
      exists bs, st_read_at fd 0x8008 8 = RdData bs /\
                 take 8 bs <> [] /\
                 (length (take 8 bs) = 8%nat -> take 8 bs = PSP_GAME_lit))).
Proof.
  induction tbl as [|e tbl IH]; intros fd magic errno rv name fd' errno'
    Hmagic Htbl H; [discriminate|].
  inversion Htbl as [|? ? He Htbl']; subst.
  cbn [detect_system_loop] in H.
  destruct (me_system_name e) as [nm|] eqn:En.
  2:{ apply detect_system_fallback_sound in H; [|exact Hmagic].
      destruct H as (-> & -> & -> & Hbs). auto. }
  destruct He as [He | [_ Hlen]]; [discriminate|].
  step_in H. destruct a as [[[n fd1] magic1] errno1].
  apply intfstream_read_inv in E.
  destruct E as (Hrd1 & _ & _ & Hl1 & Hcase).
  cbn [intfstream_seek st_read_at st_pos] in Hrd1, Hcase.
  step_in H; [discriminate|].
  destruct Hcase as [(x & _ & -> & _) | (bs & Hrd & -> & -> & ->)].
  { vm_compute in E. discriminate. }
  apply Z.ltb_ge in E.
  assert (Hl : length (take MAGIC_LEN bs) = MAGIC_LEN).
  { pose proof (length_take_le bs MAGIC_LEN) as Hle.
    rewrite length_take in *. lia. }
  unfold string_is_equal_fast in H.
  rewrite length_app, length_drop, Hl, Hmagic, Hlen in H.
  replace (MAGIC_LEN + (MAGIC_LEN - MAGIC_LEN))%nat with MAGIC_LEN in H by lia.
  rewrite Nat.leb_refl in H. cbn [andb obind] in H.
  rewrite take_app_length' in H by (symmetry; exact Hl).
  replace (take MAGIC_LEN (me_magic e)) with (me_magic e) in H
    by (rewrite <- Hlen at 1; rewrite firstn_all; reflexivity).
  destruct (bytes_eqb (me_magic e) (take MAGIC_LEN bs)) eqn:Heq.
  - inversion H; subst. split; [reflexivity|]. split; [reflexivity|].
    left. exists e. split; [apply list_elem_of_here|]. split; [exact En|].
    split; [congruence|]. exists bs. split; [exact Hrd|].
    unfold bytes_eqb in Heq. apply bool_decide_eq_true_1 in Heq.
    symmetry. exact Heq.
  - apply IH in H; [|rewrite length_app, length_drop, Hl, Hmagic; lia
                    |exact Htbl'].
    destruct H as (-> & -> & Hor). split; [reflexivity|].
    split; [reflexivity|].
    destruct Hor as [(e0 & Hin & Hnm & Hm) | (-> & bs0 & Hb & Hb')].
    + left. exists e0. split; [apply list_elem_of_further; exact Hin|].
      split; [exact Hnm|]. apply (rule_matches_ext fd fd1); assumption.
    + right. split; [reflexivity|]. exists bs0. rewrite <- Hrd1. auto.
Qed.

(** X12: a name that detect_system assigns comes with the return value 0
    and errno as it was, and it is justified by the stream: it is the
    name of a rule whose pattern the stream carries at the offset of the
    rule, or it is psp after a read at 0x8008 that delivered a byte, and
    PSP GAME if it delivered eight. *)
Theorem detect_system_name_sound (fd : intfstream) (magic : list Z)
    (errno rv : Z) (name : string) (fd' : intfstream) (errno' : Z) :
  length magic = MAGIC_LEN ->
  detect_system fd magic errno = Ret (rv, Some name, fd', errno') ->
  rv = 0 /\ errno' = errno /\
  ((exists e, e ∈ MAGIC_NUMBERS /\ me_system_name e = Some name /\
              rule_matches fd e) \/
   (name = "psp"%string /\
    exists bs, st_read_at fd 0x8008 8 = RdData bs /\
               take 8 bs <> [] /\
               (length (take 8 bs) = 8%nat -> take 8 bs = PSP_GAME_lit))).
Proof.
  intros Hmagic H.
  apply (detect_system_loop_sound MAGIC_NUMBERS fd magic errno rv name fd'
           errno' Hmagic); [|exact H].
  unfold MAGIC_NUMBERS.
  repeat (apply List.Forall_cons;
          [first [left; reflexivity
                 | right; split; [discriminate | reflexivity]]|]).
  apply List.Forall_nil.
Qed.

Lemma detect_system_name_sound_witness :
  0 = 0 /\ 0 = 0 /\
  ((exists e, e ∈ MAGIC_NUMBERS /\ me_system_name e = Some "ps1"%string /\
              rule_matches example_both_stream e) \/
   ("ps1"%string = "psp"%string /\
    exists bs, st_read_at example_both_stream 0x8008 8 = RdData bs /\
               take 8 bs <> [] /\
               (length (take 8 bs) = 8%nat -> take 8 bs = PSP_GAME_lit))).
Proof.
  apply (detect_system_name_sound example_both_stream
           (replicate 17 0) 0 0 "ps1"%string
           {| st_read_at := st_read_at example_both_stream;
              st_size := st_size example_both_stream;
              st_pos := 0 + 17; st_seeks := [0] |} 0).
  - reflexivity.
  - reflexivity.
Defined.

(** ** More on the PSP scanner *)

(** X13: the scan ends at the first offset below 100000 where a listed
    prefix stands: with ten bytes there, detect_psp_game returns success
    with these ten bytes and a terminator, after one probe at each
    offset up to that one and the second read there. *)
Theorem detect_psp_game_first_prefix (content game_id : list Z) (errno : Z)
    (p : Z) :
  0 <= p < 100000 ->
  (Z.to_nat p + 10 <= length content)%nat ->
  psp_prefix_at content p ->
  (forall q, 0 <= q < p -> ~ psp_prefix_at content q) ->
  (11 <= length game_id)%nat ->
  exists fd',
    detect_psp_game (file_stream content) game_id errno
      = Ret (true, fd',
             take 10 (bytes_at content p) ++ 0 :: drop 11 game_id, errno) /\
    st_seeks fd' = seqZ 0 (p + 1) ++ [p].
Proof.
  intros Hp Hfull Hhit Hmiss Hcap. unfold detect_psp_game.
  rewrite (to_nat_split 100000 (Z.to_nat p)) by lia.
  set (n := Z.to_nat (100000 - Z.of_nat (Z.to_nat p) - 1)).
  destruct (psp_loop_scan content (Z.to_nat p) (S n) 0
              (file_stream content) game_id errno)
    as (fd1 & g1 & E1 & Hrd1 & Hs1 & Hl1 & Hd1); try reflexivity; try lia.
  { intros q Hq. apply Hmiss. lia. }
  rewrite Z2Nat.id in * by lia. rewrite Z.add_0_l in *.
  destruct (psp_loop_hit content n p fd1 g1 errno)
    as (fd2 & E2 & Hs2); try assumption; try lia.
  assert (Hd : drop 11 g1 = drop 11 game_id).
  { replace (drop 11 g1) with (drop 5 (drop 6 g1))
      by (rewrite drop_drop; reflexivity).
    rewrite Hd1, drop_drop. reflexivity. }
  exists fd2. rewrite E1, E2, Hd. split; [reflexivity|].
  rewrite Hs2, Hs1. cbn [file_stream st_seeks app].
  rewrite (seqZ_app 0 p 1) by lia.
  rewrite <- app_assoc. reflexivity.
Qed.

Lemma detect_psp_game_first_prefix_witness :
  exists fd',
    detect_psp_game
      (file_stream (replicate 300 0 ++ bytes "NPJH-50465" ++ replicate 20 1))
      (replicate 11 9) 0
    = Ret (true, fd',
           take 10 (bytes_at (replicate 300 0 ++ bytes "NPJH-50465"
                              ++ replicate 20 1) 300)
           ++ 0 :: drop 11 (replicate 11 9), 0) /\
    st_seeks fd' = seqZ 0 (300 + 1) ++ [300].
Proof.
  apply (detect_psp_game_first_prefix
           (replicate 300 0 ++ bytes "NPJH-50465" ++ replicate 20 1)
           (replicate 11 9) 0 300).
  - lia.
  - vm_compute. lia.
  - unfold psp_prefix_at. decide_true.
  - intros q Hq. unfold psp_prefix_at, bytes_at.
    assert (Hq' : exists k : nat, (k < 300)%nat /\ q = Z.of_nat k).
    { exists (Z.to_nat q). lia. }
    destruct Hq' as (k & Hk & ->). rewrite Nat2Z.id.
    rewrite drop_app_le by (rewrite length_replicate; lia).
    rewrite drop_replicate.
    intros Hin.
    pose proof psp_prefixes_first_letter as Hfirst.
    rewrite Forall_forall in Hfirst. apply Hfirst in Hin.
    destruct (300 - k)%nat as [|m] eqn:Em; [lia|].
    simpl in Hin. destruct Hin; discriminate.
  - simpl. lia.
Defined.

Lemma psp_prefixes_twin :
  Forall (fun x => x !! 3%nat <> x !! 4%nat) PSP_PREFIXES.
Proof.
  unfold PSP_PREFIXES.
  repeat (apply List.Forall_cons; [discriminate|]). apply List.Forall_nil.
Qed.

(** A listed prefix at an offset takes five bytes of the file. *)
Lemma psp_prefix_at_full (content : list Z) (pos : Z) :
  0 <= pos ->
  psp_prefix_at content pos ->
  (Z.to_nat pos + 5 <= length content)%nat.
Proof.
  intros Hpos Hin. unfold psp_prefix_at in Hin.
  pose proof psp_prefixes_shape as Hshape. rewrite Forall_forall in Hshape.
  apply Hshape in Hin. destruct Hin as [Hl _].
  rewrite length_take, bytes_at_length in Hl by exact Hpos. lia.
Qed.

(** The test on a buffer whose bytes 3 and 4 are the same. *)
Lemma psp_prefix_test_twin (g : list Z) (c : Z) :
  g !! 3%nat = Some c ->
  g !! 4%nat = Some c ->
  g !! 5%nat = Some 0 ->
  psp_prefix_test g = Ret false.
Proof.
  intros H3 H4 H5.
  rewrite <- (take_drop_middle g 5 0 H5).
  assert (Hl : length (take 5 g) = 5%nat).
  { apply lookup_lt_Some in H5. rewrite length_take. lia. }
  rewrite psp_prefix_test_full by exact Hl.
  rewrite bool_decide_eq_false_2; [reflexivity|].
  intros Hin. pose proof psp_prefixes_twin as Htwin.
  rewrite Forall_forall in Htwin. apply Htwin in Hin. apply Hin.
  rewrite !lookup_take_lt by lia. congruence.
Qed.

(** One probe on a file at an offset inside the file: the read delivers
    up to five bytes, the rest of the buffer stays, and the test is made
    on the buffer so filled. *)
Lemma psp_loop_probe (content : list Z) (n : nat) (pos : Z) (fd : intfstream)
    (game_id : list Z) (errno : Z) :
  st_read_at fd = st_read_at (file_stream content) ->
  0 <= pos ->
  (Z.to_nat pos < length content)%nat ->
  (6 <= length game_id)%nat ->
  let bs := take 5 (bytes_at content pos) in
  let g1 := <[5%nat:=0]> (bs ++ drop (length bs) game_id) in
  exists fd1,
    st_read_at fd1 = st_read_at fd /\
    st_seeks fd1 = st_seeks fd ++ [pos] /\
    psp_loop (S n) pos fd game_id errno
    = do hit <- psp_prefix_test g1 ;;
      if hit then
        do '(r, fd2, g2, errno2) <-
           intfstream_read (intfstream_seek fd1 pos SEEK_SET) g1 10 errno ;;
        if 0 <? r then
          do g3 <- store g2 10 0 ;; Ret (true, fd2, g3, errno2)
        else Ret (false, fd2, g2, errno2)
      else psp_loop n (pos + 1) fd1 g1 errno.
Proof.
  intros Hfd Hpos Hin Hcap bs g1.
  assert (Hrd : st_read_at fd pos 5 = RdData bs).
  { rewrite Hfd. apply file_stream_read_at. exact Hpos. }
  assert (Hl : (1 <= length bs <= 5)%nat).
  { unfold bs. rewrite length_take, bytes_at_length by exact Hpos. lia. }
  destruct (seek_read_data fd pos 5 bs game_id errno Hrd)
    as (fd1 & E & Hrd1 & _ & Hs1).
  { unfold bs. rewrite take_take, Nat.min_id. fold bs. lia. }
  replace (take 5 bs) with bs in E
    by (unfold bs; rewrite take_take, Nat.min_id; reflexivity).
  exists fd1. split; [exact Hrd1|]. split; [exact Hs1|].
  cbn [psp_loop]. rewrite E. cbn [obind].
  destruct (Z.ltb_spec 0 (Z.of_nat (length bs))); [|lia].
  rewrite store_lt by (rewrite length_app, length_drop; lia).
  cbn [obind]. fold g1. reflexivity.
Qed.

(** The verdict of the scan of [n] offsets of a file of five bytes or
    more, from an offset on.  Near the end of the file the reads are
    short, and bytes 3 and 4 of the buffer are both the last byte of the
    file. *)
Lemma psp_loop_file (content : list Z) (c : Z) (n : nat) :
  (5 <= length content)%nat ->
  content !! (length content - 1)%nat = Some c ->
  forall (pos : Z) (fd : intfstream) (game_id : list Z) (errno : Z),
    st_read_at fd = st_read_at (file_stream content) ->
    0 <= pos ->
    (11 <= length game_id)%nat ->
    (Z.of_nat (length content) - 4 <= pos -> game_id !! 4%nat = Some c) ->
    (Z.of_nat (length content) - 4 < pos -> game_id !! 3%nat = Some c) ->
    exists rv fd' game_id',
      psp_loop n pos fd game_id errno = Ret (rv, fd', game_id', errno) /\
      (rv = false ->
       forall q, pos <= q < pos + Z.of_nat n -> ~ psp_prefix_at content q) /\
      (rv = true ->
       exists p, pos <= p < pos + Z.of_nat n /\
                 psp_prefix_at content p /\
                 (forall q, pos <= q < p -> ~ psp_prefix_at content q) /\
                 take 5 game_id' = take 5 (bytes_at content p)).
Proof.
  intros HL Hc.
  induction n as [|n IH]; intros pos fd game_id errno Hfd Hpos Hcap H4 H3.
  { exists false, fd, game_id. split; [reflexivity|].
    split; [intros _ q Hq; lia | discriminate]. }
  destruct (Z.lt_ge_cases pos (Z.of_nat (length content))) as [Hin | Hout].
  2:{ (* past the end: the read delivers nothing *)
      destruct (psp_loop_stop n pos fd game_id errno)
        as (fd' & errno' & E & _ & He).
      { right. exists []. split; [|apply take_nil].
        rewrite Hfd, file_stream_read_at by exact Hpos.
        unfold bytes_at. rewrite drop_ge by lia. rewrite take_nil.
        reflexivity. }
      rewrite He in E.
      2:{ rewrite Hfd, file_stream_read_at by exact Hpos. eauto. }
      exists false, fd', game_id. split; [exact E|].
      split; [|discriminate].
      intros _ q Hq Hpre. apply psp_prefix_at_full in Hpre; lia. }
  destruct (psp_loop_probe content n pos fd game_id errno Hfd Hpos)
    as (fd1 & Hrd1 & _ & E); [lia | lia |].
  set (bs := take 5 (bytes_at content pos)) in *.
  set (g1 := <[5%nat:=0]> (bs ++ drop (length bs) game_id)) in *.
  assert (Hbl : length bs = Nat.min 5 (length content - Z.to_nat pos)).
  { unfold bs. rewrite length_take, bytes_at_length by exact Hpos.
    reflexivity. }
  assert (Hg1 : length g1 = length game_id).
  { unfold g1. rewrite length_insert, length_app, length_drop. lia. }
  assert (Hbs : forall i : nat, (i < length bs)%nat ->
                  bs !! i = content !! (Z.to_nat pos + i)%nat).
  { intros i Hi. unfold bs. rewrite lookup_take_lt by lia.
    unfold bytes_at. apply lookup_drop. }
  assert (Hold : forall i : nat, (length bs <= i < 5)%nat ->
                   g1 !! i = game_id !! i).
  { intros i Hi. unfold g1. rewrite list_lookup_insert_ne by lia.
    rewrite lookup_app_r by lia. rewrite lookup_drop. f_equal. lia. }
  assert (Hnew : forall i : nat, (i < length bs)%nat ->
                   g1 !! i = content !! (Z.to_nat pos + i)%nat).
  { intros i Hi. unfold g1. rewrite list_lookup_insert_ne by lia.
    rewrite lookup_app_l by lia. apply Hbs. exact Hi. }
  assert (H5 : g1 !! 5%nat = Some 0).
  { unfold g1. apply list_lookup_insert_eq.
    rewrite length_app, length_drop. lia. }
  assert (Hnext4 : Z.of_nat (length content) - 4 <= pos + 1 ->
                   g1 !! 4%nat = Some c).
  { intros Hn4.
    destruct (Nat.lt_ge_cases 4 (length bs)) as [Hfull | Hshort].
    - rewrite Hnew by lia. rewrite <- Hc. f_equal. lia.
    - rewrite Hold by lia. apply H4. lia. }
  assert (Hnext3 : Z.of_nat (length content) - 4 < pos + 1 ->
                   g1 !! 3%nat = Some c).
  { intros Hn3.
    destruct (Nat.lt_ge_cases 3 (length bs)) as [Hfull | Hshort].
    - rewrite Hnew by lia. rewrite <- Hc. f_equal. lia.
    - rewrite Hold by lia. apply H3. lia. }
  assert (Hgo : psp_prefix_test g1 = Ret false ->
                ~ psp_prefix_at content pos ->
                exists rv fd' game_id',
                  psp_loop (S n) pos fd game_id errno
                    = Ret (rv, fd', game_id', errno) /\
                  (rv = false ->
                   forall q, pos <= q < pos + Z.of_nat (S n) ->
                             ~ psp_prefix_at content q) /\
                  (rv = true ->
                   exists p, pos <= p < pos + Z.of_nat (S n) /\
                             psp_prefix_at content p /\
                             (forall q, pos <= q < p ->
                                        ~ psp_prefix_at content q) /\
                             take 5 game_id' = take 5 (bytes_at content p))).
  { intros Htest Hmiss. rewrite E, Htest. cbn [obind].
    destruct (IH (pos + 1) fd1 g1 errno)
      as (rv & fd' & g' & E' & Hf & Ht); try assumption; try lia.
    { congruence. }
    exists rv, fd', g'. split; [exact E'|]. split.
    - intros Hrv q Hq. destruct (Z.eq_dec q pos) as [-> | Hne];
        [exact Hmiss|]. apply (Hf Hrv). lia.
    - intros Hrv. destruct (Ht Hrv) as (p & Hp & Hpre & Hfirst & Hid).
      exists p. split; [lia|]. split; [exact Hpre|]. split; [|exact Hid].
      intros q Hq. destruct (Z.eq_dec q pos) as [-> | Hne];
        [exact Hmiss|]. apply Hfirst. lia. }
  destruct (Nat.lt_ge_cases (length bs) 5) as [Hshort | Hfull].
  - (* a short read: bytes 3 and 4 are the last byte of the file *)
    apply Hgo.
    + apply (psp_prefix_test_twin g1 c);
        [apply Hnext3; lia | apply Hnext4; lia | exact H5].
    + intros Hpre. apply psp_prefix_at_full in Hpre; lia.
  - (* five bytes *)
    assert (Hg1' : g1 = bs ++ 0 :: drop 6 game_id).
    { unfold g1. rewrite insert_app_r_alt by lia.
      replace (5 - length bs)%nat with 0%nat by lia.
      replace (length bs) with 5%nat by lia.
      destruct (drop 5 game_id) as [|x t] eqn:Ed.
      { apply (f_equal length) in Ed. rewrite length_drop in Ed.
        simpl in Ed. lia. }
      cbn [insert list_insert]. f_equal. f_equal.
      replace (drop 6 game_id) with (drop 1 (drop 5 game_id))
        by (rewrite drop_drop; reflexivity).
      rewrite Ed. reflexivity. }
    destruct (decide (bs ∈ PSP_PREFIXES)) as [Hpre | Hmiss];
      [change (psp_prefix_at content pos) in Hpre
      |change (~ psp_prefix_at content pos) in Hmiss].
    + (* the prefix stands here *)
      assert (Htest : psp_prefix_test g1 = Ret true).
      { rewrite Hg1', psp_prefix_test_full by lia.
        rewrite bool_decide_eq_true_2 by exact Hpre. reflexivity. }
      rewrite E, Htest. cbn [obind].
      assert (Hrd10 : st_read_at fd1 pos 10
                      = RdData (take 10 (bytes_at content pos))).
      { rewrite Hrd1, Hfd. apply file_stream_read_at. exact Hpos. }
      assert (Hl10 : (5 <= length (take 10 (bytes_at content pos)) <= 10)%nat).
      { rewrite length_take, bytes_at_length by exact Hpos. lia. }
      destruct (seek_read_data fd1 pos 10 _ g1 errno Hrd10)
        as (fd2 & E2 & _ & _ & _).
      { rewrite take_take, Nat.min_id. lia. }
      rewrite take_take, Nat.min_id in E2. rewrite E2. cbn [obind].
      destruct (Z.ltb_spec 0 (Z.of_nat (length (take 10 (bytes_at content pos)))));
        [|lia].
      rewrite store_lt by (rewrite length_app, length_drop; lia).
      cbn [obind].
      eexists true, fd2, _. split; [reflexivity|].
      split; [discriminate|]. intros _.
      exists pos. split; [lia|]. split; [exact Hpre|].
      split; [intros q Hq; lia|].
      rewrite take_insert_ge by lia.
      rewrite take_app_le by lia.
      rewrite take_take. reflexivity.
    + apply Hgo; [|exact Hmiss].
      rewrite Hg1'. rewrite psp_prefix_test_full by lia.
      rewrite bool_decide_eq_false_2 by exact Hmiss. reflexivity.
Qed.

(** X14: on a file of five bytes or more detect_psp_game returns success
    exactly when a listed prefix stands at some offset below 100000, and
    then the identifier begins with the prefix at the first such
    offset. *)
Theorem detect_psp_game_verdict (content game_id : list Z) (errno : Z) :
  (5 <= length content)%nat ->
  (11 <= length game_id)%nat ->
  exists rv fd' game_id',
    detect_psp_game (file_stream content) game_id errno
      = Ret (rv, fd', game_id', errno) /\
    (rv = true <-> exists p, 0 <= p < 100000 /\ psp_prefix_at content p) /\
    (rv = true ->
     exists p, 0 <= p < 100000 /\
               psp_prefix_at content p /\
               (forall q, 0 <= q < p -> ~ psp_prefix_at content q) /\
               take 5 game_id' = take 5 (bytes_at content p)).
Proof.
  intros HL Hcap. unfold detect_psp_game.
  destruct (content !! (length content - 1)%nat) as [c|] eqn:Hc.
  2:{ apply lookup_ge_None in Hc. lia. }
  destruct (psp_loop_file content c (Z.to_nat 100000) HL Hc 0
              (file_stream content) game_id errno)
    as (rv & fd' & g' & E & Hf & Ht); try reflexivity; try lia.
  rewrite Z2Nat.id in Hf, Ht by lia. rewrite Z.add_0_l in Hf, Ht.
  exists rv, fd', g'. split; [exact E|]. split; [|exact Ht].
  split.
  - intros Hrv. destruct (Ht Hrv) as (p & Hp & Hpre & _). eauto.
  - intros (p & Hp & Hpre). destruct rv; [reflexivity|].
    exfalso. apply (Hf eq_refl p Hp Hpre).
Qed.

Lemma detect_psp_game_verdict_witness :
  exists rv fd' game_id',
    detect_psp_game (file_stream (bytes "xxUCES-0042")) (replicate 11 9) 0
      = Ret (rv, fd', game_id', 0) /\
    (rv = true <->
     exists p, 0 <= p < 100000 /\ psp_prefix_at (bytes "xxUCES-0042") p) /\
    (rv = true ->
     exists p, 0 <= p < 100000 /\
               psp_prefix_at (bytes "xxUCES-0042") p /\
               (forall q, 0 <= q < p ->
                          ~ psp_prefix_at (bytes "xxUCES-0042") q) /\
               take 5 game_id' = take 5 (bytes_at (bytes "xxUCES-0042") p)).
Proof.
  apply (detect_psp_game_verdict (bytes "xxUCES-0042") (replicate 11 9) 0).
  - vm_compute. lia.
  - vm_compute. lia.
Defined.

(** ** More on the serial scanner *)

Lemma serial_run_chars (l : list Z) :
  forall k : nat,
    (k <= serial_run l)%nat ->
    Forall (fun c => serial_char c = true) (take k l).
Proof.
  induction l as [|c l IH]; intros k Hk.
  - rewrite take_nil. constructor.
  - destruct k as [|k]; [constructor|].
    simpl in *. destruct (serial_char c) eqn:Hc; [|lia].
    constructor; [exact Hc | apply IH; lia].
Qed.

(** What one probe that returns has done: one seek, and a serial found
    is a string of 4 to 8 serial characters. *)
Lemma serial_probe_inv (pos : Z) (fd : intfstream) (game_id : list Z)
    (errno : Z) (found : bool) (fd' : intfstream) (game_id' : list Z)
    (errno' : Z) :
  serial_probe pos fd game_id errno = Ret (found, fd', game_id', errno') ->
  st_seeks fd' = st_seeks fd ++ [pos] /\
  (found = true ->
   exists s, cstr game_id' = Ret s /\ (4 <= length s <= 8)%nat /\
             Forall (fun c => serial_char c = true) s).
Proof.
  intros H.
  destruct (st_read_at fd pos 15) as [e | bs] eqn:Hrd.
  { destruct (serial_probe_nothing pos fd game_id errno)
      as (fd1 & e1 & E & _ & Hs); [left; eauto|].
    rewrite E in H. inversion H; subst. split; [exact Hs | discriminate]. }
  destruct (decide (take 15 bs = [])) as [Hnil | Hne].
  { destruct (serial_probe_nothing pos fd game_id errno)
      as (fd1 & e1 & E & _ & Hs); [right; eauto|].
    rewrite E in H. inversion H; subst. split; [exact Hs | discriminate]. }
  destruct (Nat.le_gt_cases (length game_id) 15) as [Hsmall | Hcap].
  { rewrite (serial_probe_overflow pos fd game_id errno bs Hrd Hne Hsmall)
      in H. discriminate. }
  pose proof (serial_probe_data pos fd game_id errno bs Hrd Hne) as Hd.
  cbv zeta in Hd.
  destruct Hd as (fd1 & g1 & E & _ & Hs & _ & _ & Hstr); [lia|].
  rewrite E in H. inversion H; subst. split; [exact Hs|].
  intros Hk. specialize (Hstr Hk). eexists. split; [exact Hstr|].
  apply andb_true_iff in Hk. destruct Hk as [Hk3 Hk9].
  apply Nat.ltb_lt in Hk3, Hk9.
  set (g15 := <[15%nat:=0]> (take 15 bs ++ drop (length (take 15 bs)) game_id))
    in *.
  assert (Hle : (serial_run (take 15 g15) <= serial_run g15)%nat)
    by (rewrite serial_run_take; lia).
  split.
  - rewrite length_take. pose proof (serial_run_le g15). lia.
  - apply serial_run_chars. exact Hle.
Qed.

(** What a scan that returns has done. *)
Lemma serial_loop_inv (n : nat) :
  forall (pos : Z) (fd : intfstream) (game_id : list Z) (errno : Z)
         (rv : bool) (fd' : intfstream) (game_id' : list Z) (errno' : Z),
    serial_loop n pos fd game_id errno = Ret (rv, fd', game_id', errno') ->
    exists k : nat,
      (k <= n)%nat /\
      st_seeks fd' = st_seeks fd ++ seqZ pos (Z.of_nat k) /\
      (rv = false -> k = n) /\
      (rv = true ->
       (0 < k)%nat /\
       exists s, cstr game_id' = Ret s /\ (4 <= length s <= 8)%nat /\
                 Forall (fun c => serial_char c = true) s).
Proof.
  induction n as [|n IH]; intros pos fd game_id errno rv fd' game_id' errno' H.
  - inversion H; subst. exists 0%nat. rewrite app_nil_r.
    repeat split; auto; discriminate.
  - cbn [serial_loop] in H. step_in H.
    destruct a as [[[found fd1] g1] e1].
    apply serial_probe_inv in E. destruct E as [Hs1 Hstr].
    destruct found.
    + inversion H; subst. exists 1%nat.
      split; [lia|]. split; [rewrite Hs1; reflexivity|].
      split; [discriminate|]. intros _. split; [lia | auto].
    + apply IH in H. destruct H as (k & Hk & Hs & Hf & Ht).
      exists (S k). split; [lia|]. split.
      * rewrite Hs, Hs1, <- app_assoc. f_equal.
        rewrite Nat2Z.inj_succ, (seqZ_cons pos) by lia.
        simpl. f_equal. f_equal; lia.
      * split; [intros Hrv; rewrite (Hf Hrv); reflexivity|].
        intros Hrv. destruct (Ht Hrv) as [_ Hstr']. split; [lia | exact Hstr'].
Qed.

(** X15: no read result ends the scan of the serial scanner early: when
    it reports no serial it has made a seek to each of the 10000 offsets
    0..9999, also on a stream that is shorter or whose reads fail; when
    it reports one it has made a seek to each offset up to the one where
    it found it. *)
Theorem detect_serial_ascii_game_seeks (fd : intfstream) (game_id : list Z)
    (errno : Z) (rv : bool) (fd' : intfstream) (game_id' : list Z)
    (errno' : Z) :
  detect_serial_ascii_game fd game_id errno
    = Ret (rv, fd', game_id', errno') ->
  exists k, 0 <= k <= 10000 /\
            st_seeks fd' = st_seeks fd ++ seqZ 0 k /\
            (rv = false -> k = 10000) /\
            (rv = true -> 0 < k).
Proof.
  intros H. unfold detect_serial_ascii_game in H.
  apply serial_loop_inv in H. destruct H as (k & Hk & Hs & Hf & Ht).
  exists (Z.of_nat k). split; [lia|]. split; [exact Hs|]. split.
  - intros Hrv. rewrite (Hf Hrv). lia.
  - intros Hrv. destruct (Ht Hrv). lia.
Qed.

(** X16: a serial that the scanner reports is a string of 4 to 8
    characters among - 0-9 A-Z, on every stream. *)
Theorem detect_serial_ascii_game_reports_serial (fd : intfstream)
    (game_id : list Z) (errno : Z) (fd' : intfstream) (game_id' : list Z)
    (errno' : Z) :
  detect_serial_ascii_game fd game_id errno
    = Ret (true, fd', game_id', errno') ->
  exists s, cstr game_id' = Ret s /\ (4 <= length s <= 8)%nat /\
            Forall (fun c => serial_char c = true) s.
Proof.
  intros H. unfold detect_serial_ascii_game in H.
  apply serial_loop_inv in H. destruct H as (k & _ & _ & _ & Ht).
  destruct (Ht eq_refl) as [_ Hstr]. exact Hstr.
Qed.

Lemma detect_serial_ascii_game_seeks_witness :
  exists k, 0 <= k <= 10000 /\
            st_seeks {| st_read_at := st_read_at (file_stream example_serial_image);
                        st_size := 10020; st_pos := 17;
                        st_seeks := [0; 1; 2] |}
            = st_seeks (file_stream example_serial_image) ++ seqZ 0 k /\
            (true = false -> k = 10000) /\
            (true = true -> 0 < k).
Proof.
  apply (detect_serial_ascii_game_seeks
           (file_stream example_serial_image) (replicate 16 0) 0 true
           {| st_read_at := st_read_at (file_stream example_serial_image);
              st_size := 10020; st_pos := 17; st_seeks := [0; 1; 2] |}
           (bytes "-1234XYZ" ++ 0 :: replicate 6 200 ++ [0]) 0).
  vm_compute. reflexivity.
Defined.

Lemma detect_serial_ascii_game_reports_serial_witness :
  exists s,
    cstr (bytes "-1234XYZ" ++ 0 :: replicate 6 200 ++ [0]) = Ret s /\
    (4 <= length s <= 8)%nat /\
    Forall (fun c => serial_char c = true) s.
Proof.
  apply (detect_serial_ascii_game_reports_serial
           (file_stream example_serial_image) (replicate 16 0) 0
           {| st_read_at := st_read_at (file_stream example_serial_image);
              st_size := 10020; st_pos := 17; st_seeks := [0; 1; 2] |}
           (bytes "-1234XYZ" ++ 0 :: replicate 6 200 ++ [0]) 0).
  vm_compute. reflexivity.
Defined.

(** ** More on the boot-record resolver *)

(** The walk of the code over records that are not SYSTEM.CNF;1. *)
Lemma dir_scan_chain (W : list Z) (tmp off : nat) :
  dir_chain W tmp off ->
  length W = WINDOW ->
  forall fuel : nat,
    (WINDOW - tmp < fuel)%nat ->
    exists fuel',
      (WINDOW - off < fuel')%nat /\
      dir_scan fuel W tmp = dir_scan fuel' W off.
Proof.
  intros Hchain HW.
  induction Hchain as [tmp | tmp len off Hlen Hpos Hfield Hname Hchain IH];
    intros fuel Hfuel.
  - exists fuel. auto.
  - assert (Htmp : (tmp < WINDOW)%nat).
    { rewrite <- HW. eapply lookup_lt_Some. exact Hlen. }
    destruct fuel as [|fuel]; [lia|]. cbn [dir_scan].
    destruct (Nat.ltb_spec tmp WINDOW); [|lia].
    rewrite (load_lookup _ _ _ Hlen). cbn [obind].
    destruct (Z.eqb_spec len 0); [lia|].
    rewrite (name_field_app W tmp Hfield).
    destruct (strncasecmp_spec SYSTEM_CNF_lit
                ltac:(repeat constructor; discriminate)
                (name_field W tmp) (drop 12 (drop (tmp + 33) W)) Hfield)
      as (d & Hd & Hiff).
    change (length SYSTEM_CNF_lit) with 12%nat in Hd. rewrite Hd. cbn [obind].
    destruct (Z.eqb_spec d 0) as [Hd0 | _]; [apply Hiff in Hd0; contradiction|].
    apply IH. lia.
Qed.

(** The resolver up to the walk over the directory records, when the
    record of the root directory and the window of the root directory
    are read in full: what follows depends on the walk, and without a
    record found the call returns 0 and leaves game_id alone. *)
Lemma detect_ps1_game_sub_window (fp : intfstream) (game_id buffer : list Z)
    (scm : bool) (errno : Z) (pvd W : list Z) :
  length buffer = WINDOW ->
  st_read_at fp (root_record_offset fp scm) 6 = RdData pvd ->
  (6 <= length pvd)%nat ->
  st_read_at fp (sector_offset fp scm (record_sector pvd 0)) WINDOW
    = RdData W ->
  length W = WINDOW ->
  exists (fp3 : intfstream) (errno1 : Z)
         (k : option nat -> outcome (Z * intfstream * list Z * Z)),
    detect_ps1_game_sub fp game_id scm buffer errno
      = obind (dir_scan (S WINDOW) W 0) k /\
    st_read_at fp3 = st_read_at fp /\
    st_size fp3 = st_size fp /\
    k None = Ret (0, fp3, game_id, errno1) /\
    (forall tmp : nat, (WINDOW <= tmp)%nat ->
                       k (Some tmp) = Ret (0, fp3, game_id, errno1)).
Proof.
  intros Hbuf Hpvd Hpvdlen HW HWlen.
  assert (HWIN : WINDOW = 4096%nat) by reflexivity.
  unfold detect_ps1_game_sub.
  rewrite store_lt by lia. cbn [obind].
  destruct (probe_mode1_spec fp scm errno) as (fp1 & errno1 & Eprobe & Hrd1).
  assert (Hsz1 : st_size fp1 = st_size fp).
  { revert Eprobe. unfold probe_mode1.
    destruct scm; [intros E; inversion E; reflexivity|].
    destruct (Z.land _ _ =? 0); [|intros E; inversion E; reflexivity].
    intros E. step_in E. destruct a as [[[r f] m] e].
    apply intfstream_read_inv in E0. destruct E0 as (_ & Hsz & _).
    inversion E; subst. exact Hsz. }
  rewrite Eprobe. cbn [obind].
  set (buf0 := <[0%nat:=0]> buffer).
  assert (Hbuf0 : length buf0 = WINDOW)
    by (unfold buf0; rewrite length_insert; exact Hbuf).
  fold (root_record_offset fp scm).
  destruct (seek_read_data fp1 (root_record_offset fp scm) 6 pvd buf0 errno1)
    as (fp2 & E2 & Hrd2 & Hsz2 & _).
  { rewrite Hrd1. exact Hpvd. }
  { rewrite length_take. lia. }
  rewrite E2. cbn [obind].
  assert (Hl6 : length (take 6 pvd) = 6%nat) by (rewrite length_take; lia).
  rewrite read_cd_sector_spec by (rewrite length_app, Hl6; lia).
  cbn [obind]. rewrite record_sector_app by lia.
  replace (record_sector (take 6 pvd) 0) with (record_sector pvd 0).
  2:{ unfold record_sector. rewrite !(nth_lookup _ _ 0).
      rewrite !lookup_take_lt by lia. reflexivity. }
  fold (sector_offset fp scm (record_sector pvd 0)).
  set (buf1 := take 6 pvd ++ drop (length (take 6 pvd)) buf0).
  assert (Hbuf1 : length buf1 = WINDOW).
  { unfold buf1. rewrite length_app, length_drop. lia. }
  destruct (seek_read_data fp2 (sector_offset fp scm (record_sector pvd 0))
              WINDOW W buf1 errno1) as (fp3 & E3 & Hrd3 & Hsz3 & _).
  { rewrite Hrd2, Hrd1. exact HW. }
  { rewrite length_take. lia. }
  rewrite E3. cbn [obind].
  rewrite (take_ge W WINDOW) by lia.
  rewrite (drop_ge buf1) by lia. rewrite app_nil_r.
  eexists fp3, errno1, _. split; [reflexivity|].
  split; [congruence|]. split; [congruence|]. split; [reflexivity|].
  intros tmp Htmp. cbv beta.
  destruct (Nat.leb_spec WINDOW tmp); [reflexivity | lia].
Qed.

(** X17: a chain of directory records that leads to a record within the
    last 33 bytes of the 4096-byte window makes the resolver compare a
    name that lies outside its buffer: a read past the end of the local
    array. *)
Theorem detect_ps1_game_sub_reads_past_window (fp : intfstream)
    (game_id buffer : list Z) (scm : bool) (errno : Z) (pvd W : list Z)
    (off : nat) (len : Z) :
  length buffer = WINDOW ->
  st_read_at fp (root_record_offset fp scm) 6 = RdData pvd ->
  (6 <= length pvd)%nat ->
  st_read_at fp (sector_offset fp scm (record_sector pvd 0)) WINDOW
    = RdData W ->
  length W = WINDOW ->
  dir_chain W 0 off ->
  (WINDOW - 33 <= off)%nat ->
  W !! off = Some len ->
  len <> 0 ->
  detect_ps1_game_sub fp game_id scm buffer errno = Fault.
Proof.
  intros Hbuf Hpvd Hpvdlen HW HWlen Hchain Hoff Hlen Hnz.
  destruct (detect_ps1_game_sub_window fp game_id buffer scm errno pvd W)
    as (fp3 & errno1 & k & E & _); try assumption.
  rewrite E.
  destruct (dir_scan_chain W 0 off Hchain HWlen (S WINDOW)) as (f & Hf & ->);
    [lia|].
  assert (Hlt : (off < WINDOW)%nat).
  { rewrite <- HWlen. eapply lookup_lt_Some. exact Hlen. }
  destruct f as [|f]; [lia|]. cbn [dir_scan].
  destruct (Nat.ltb_spec off WINDOW); [|lia].
  rewrite (load_lookup _ _ _ Hlen). cbn [obind].
  destruct (Z.eqb_spec len 0); [contradiction|].
  rewrite drop_ge by lia. reflexivity.
Qed.

(** The resolver when the chain of directory records ends before a
    record named SYSTEM.CNF;1. *)
Lemma detect_ps1_game_sub_chain_ends (fp : intfstream)
    (game_id buffer : list Z) (scm : bool) (errno : Z) (pvd W : list Z)
    (off : nat) :
  length buffer = WINDOW ->
  st_read_at fp (root_record_offset fp scm) 6 = RdData pvd ->
  (6 <= length pvd)%nat ->
  st_read_at fp (sector_offset fp scm (record_sector pvd 0)) WINDOW
    = RdData W ->
  length W = WINDOW ->
  dir_chain W 0 off ->
  W !! off = Some 0 \/ (WINDOW <= off)%nat ->
  exists fp' errno',
    detect_ps1_game_sub fp game_id scm buffer errno
      = Ret (0, fp', game_id, errno') /\
    st_read_at fp' = st_read_at fp.
Proof.
  intros Hbuf Hpvd Hpvdlen HW HWlen Hchain Hend.
  destruct (detect_ps1_game_sub_window fp game_id buffer scm errno pvd W)
    as (fp3 & errno1 & k & E & Hrd & _ & Hnone & Hout); try assumption.
  rewrite E.
  destruct (dir_scan_chain W 0 off Hchain HWlen (S WINDOW)) as (f & Hf & ->);
    [lia|].
  exists fp3, errno1. split; [|exact Hrd].
  destruct f as [|f]; [lia|]. cbn [dir_scan].
  destruct Hend as [H0 | Hge].
  - assert (Hlt : (off < WINDOW)%nat).
    { rewrite <- HWlen. eapply lookup_lt_Some. exact H0. }
    destruct (Nat.ltb_spec off WINDOW); [|lia].
    rewrite (load_lookup _ _ _ H0). cbn [obind Z.eqb]. exact Hnone.
  - destruct (Nat.ltb_spec off WINDOW); [lia|].
    cbn [obind]. apply Hout. exact Hge.
Qed.

(** X18: when the chain of directory records ends at a record of length
    0, or leaves the window, before a record named SYSTEM.CNF;1, the
    resolver returns 0 and does not write to game_id. *)
Theorem detect_ps1_game_sub_no_system_cnf (fp : intfstream)
    (game_id buffer : list Z) (scm : bool) (errno : Z) (pvd W : list Z)
    (off : nat) :
  length buffer = WINDOW ->
  st_read_at fp (root_record_offset fp scm) 6 = RdData pvd ->
  (6 <= length pvd)%nat ->
  st_read_at fp (sector_offset fp scm (record_sector pvd 0)) WINDOW
    = RdData W ->
  length W = WINDOW ->
  dir_chain W 0 off ->
  W !! off = Some 0 \/ (WINDOW <= off)%nat ->
  exists fp' errno',
    detect_ps1_game_sub fp game_id scm buffer errno
    = Ret (0, fp', game_id, errno').
Proof.
  intros Hbuf Hpvd Hpvdlen HW HWlen Hchain Hend.
  destruct (detect_ps1_game_sub_chain_ends fp game_id buffer scm errno pvd W
              off) as (fp' & errno' & E & _); try assumption.
  eauto.
Qed.

Lemma detect_ps1_game_sub_reads_past_window_witness :
  detect_ps1_game_sub (file_stream (image_with_root_dir example_long_dir))
    (replicate 11 0) false (replicate WINDOW 0) 0 = Fault.
Proof.
  apply (detect_ps1_game_sub_reads_past_window
           (file_stream (image_with_root_dir example_long_dir))
           (replicate 11 0) (replicate WINDOW 0) false 0
           (take 6 (bytes_at (image_with_root_dir example_long_dir) 32924))
           (take WINDOW (bytes_at (image_with_root_dir example_long_dir) 36864))
           4080%nat 255).
  - vm_compute. reflexivity.
  - vm_compute. reflexivity.
  - vm_compute. lia.
  - vm_compute. reflexivity.
  - vm_compute. reflexivity.
  - do 16 (eapply dir_chain_next;
           [ vm_compute; reflexivity | lia | vm_compute; reflexivity
           | vm_compute; discriminate | ]).
    apply dir_chain_here.
  - vm_compute. lia.
  - vm_compute. reflexivity.
  - discriminate.
Defined.

Lemma detect_ps1_game_sub_no_system_cnf_witness :
  exists fp' errno',
    detect_ps1_game_sub (file_stream (image_with_root_dir example_bare_dir))
      (replicate 11 7) false (replicate WINDOW 0) 0
    = Ret (0, fp', replicate 11 7, errno').
Proof.
  apply (detect_ps1_game_sub_no_system_cnf
           (file_stream (image_with_root_dir example_bare_dir))
           (replicate 11 7) (replicate WINDOW 0) false 0
           (take 6 (bytes_at (image_with_root_dir example_bare_dir) 32924))
           (take WINDOW (bytes_at (image_with_root_dir example_bare_dir) 36864))
           68%nat).
  - vm_compute. reflexivity.
  - vm_compute. reflexivity.
  - vm_compute. lia.
  - vm_compute. reflexivity.
  - vm_compute. reflexivity.
  - do 2 (eapply dir_chain_next;
          [ vm_compute; reflexivity | lia | vm_compute; reflexivity
          | vm_compute; discriminate | ]).
    apply dir_chain_here.
  - left. vm_compute. reflexivity.
Defined.

Lemma probe_mode1_size (fp : intfstream) (scm : bool) (errno : Z)
    (m : bool) (fp1 : intfstream) (errno1 : Z) :
  probe_mode1 fp scm errno = Ret (m, fp1, errno1) ->
  st_size fp1 = st_size fp.
Proof.
  unfold probe_mode1.
  destruct scm; [intros E; inversion E; reflexivity|].
  destruct (Z.land _ _ =? 0); [|intros E; inversion E; reflexivity].
  intros E. step_in E. destruct a as [[[r f] mt] e].
  apply intfstream_read_inv in E0. destruct E0 as (_ & Hsz & _).
  inversion E; subst. exact Hsz.
Qed.

(** The stream after a read that returned. *)
Ltac read_kept Hrd Hsz :=
  match goal with
  | E : intfstream_read _ _ _ _ = Ret _ |- _ =>
      apply intfstream_read_inv in E; destruct E as (Hrd & Hsz & _);
      cbn [intfstream_seek st_read_at st_size] in Hrd, Hsz
  end.

(** What the resolver has done when it returns: it returns 0 or 1, it
    has written to game_id only if it returns 1, and the stream holds
    what it held. *)
Lemma detect_ps1_game_sub_inv (fp : intfstream) (game_id buffer : list Z)
    (scm : bool) (errno rv : Z) (fp' : intfstream) (game_id' : list Z)
    (errno' : Z) :
  detect_ps1_game_sub fp game_id scm buffer errno
    = Ret (rv, fp', game_id', errno') ->
  (rv = 0 /\ game_id' = game_id \/ rv = 1) /\
  st_read_at fp' = st_read_at fp /\
  st_size fp' = st_size fp.
Proof.
  unfold detect_ps1_game_sub. intros H.
  step_in H. rename a into buf0.
  destruct (probe_mode1_spec fp scm errno) as (fp1 & errno1 & Eprobe & Hrd1).
  pose proof (probe_mode1_size _ _ _ _ _ _ Eprobe) as Hsz1.
  rewrite Eprobe in H. cbn [obind] in H.
  step_in H. destruct a as [[[r2 fp2] buf2] e2]. read_kept Hrd2 Hsz2.
  step_in H. rename a into sec1.
  step_in H. destruct a as [[[r3 fp3] buf3] e3]. read_kept Hrd3 Hsz3.
  assert (Hrd : st_read_at fp3 = st_read_at fp) by congruence.
  assert (Hsz : st_size fp3 = st_size fp) by congruence.
  step_in H. destruct a as [tmp|].
  2:{ inversion H; subst. auto. }
  step_in H.
  { inversion H; subst. auto. }
  step_in H. rename a into sec2.
  step_in H. destruct a as [[[r4 fp4] buf4] e4]. read_kept Hrd4 Hsz4.
  assert (Hrd' : st_read_at fp4 = st_read_at fp) by congruence.
  assert (Hsz' : st_size fp4 = st_size fp) by congruence.
  step_in H. step_in H. step_in H. step_in H.
  { inversion H; subst. auto. }
  step_in H. step_in H. inversion H; subst. auto.
Qed.

(** X19: detect_ps1_game returns 0 or 1, and when it returns 0 neither
    attempt has written to game_id. *)
Theorem detect_ps1_game_failure_keeps_game_id (fd : intfstream)
    (game_id buffer1 buffer2 : list Z) (errno rv : Z) (fd' : intfstream)
    (game_id' : list Z) (errno' : Z) :
  detect_ps1_game fd game_id buffer1 buffer2 errno
    = Ret (rv, fd', game_id', errno') ->
  (rv = 0 \/ rv = 1) /\ (rv = 0 -> game_id' = game_id).
Proof.
  unfold detect_ps1_game. intros H.
  step_in H. destruct a as [[[rv1 fd1] g1] e1].
  apply detect_ps1_game_sub_inv in E. destruct E as (Hrv1 & _ & _).
  destruct (Z.eqb_spec rv1 0) as [-> | Hne]; cbn [negb] in H.
  - destruct Hrv1 as [[_ ->] | Hrv1]; [|discriminate].
    apply detect_ps1_game_sub_inv in H. destruct H as (Hrv & _ & _).
    destruct Hrv as [[-> ->] | ->]; split; auto. discriminate.
  - inversion H; subst. split; [auto | discriminate].
Qed.

Lemma blank_file (content : list Z) :
  Forall (fun c => c = 0) content -> blank_stream (file_stream content).
Proof.
  intros H p n. cbn [file_stream st_read_at].
  destruct (p <? 0); [exact I|].
  apply Forall_take, Forall_drop, H.
Qed.

(** A read from a blank stream leaves a NUL at the head of the buffer. *)
Lemma read_blank_head (fp : intfstream) (buf : list Z) (n : nat)
    (errno r : Z) (fp' : intfstream) (buf' : list Z) (errno' : Z) :
  blank_stream fp ->
  buf !! 0%nat = Some 0 ->
  intfstream_read fp buf n errno = Ret (r, fp', buf', errno') ->
  buf' !! 0%nat = Some 0.
Proof.
  intros Hblank H0 H.
  apply intfstream_read_inv in H.
  destruct H as (_ & _ & _ & _ & [(e & _ & _ & -> & _) | (bs & Hrd & _ & -> & _)]);
    [exact H0|].
  specialize (Hblank (st_pos fp) n). rewrite Hrd in Hblank.
  destruct (take n bs) as [|b t] eqn:Et.
  - simpl. rewrite drop_0. exact H0.
  - assert (Hb : Forall (fun c => c = 0) (b :: t))
      by (rewrite <- Et; apply Forall_take, Hblank).
    inversion Hb; subst. reflexivity.
Qed.

(** A record of length 0 ends the walk. *)
Lemma dir_scan_end (fuel : nat) (buffer : list Z) (tmp : nat) :
  (tmp < WINDOW)%nat ->
  buffer !! tmp = Some 0 ->
  dir_scan (S fuel) buffer tmp = Ret None.
Proof.
  intros Hlt H0. cbn [dir_scan].
  destruct (Nat.ltb_spec tmp WINDOW); [|lia].
  rewrite (load_lookup _ _ _ H0). reflexivity.
Qed.

Lemma detect_ps1_game_sub_blank (fp : intfstream) (game_id buffer : list Z)
    (scm : bool) (errno : Z) :
  blank_stream fp ->
  length buffer = WINDOW ->
  exists fp' errno',
    detect_ps1_game_sub fp game_id scm buffer errno
      = Ret (0, fp', game_id, errno') /\
    st_read_at fp' = st_read_at fp.
Proof.
  intros Hblank Hbuf.
  assert (HWIN : WINDOW = 4096%nat) by reflexivity.
  unfold detect_ps1_game_sub.
  rewrite store_lt by lia. cbn [obind].
  destruct (probe_mode1_spec fp scm errno) as (fp1 & errno1 & Eprobe & Hrd1).
  rewrite Eprobe. cbn [obind].
  set (buf0 := <[0%nat:=0]> buffer).
  assert (Hbuf0 : length buf0 = WINDOW)
    by (unfold buf0; rewrite length_insert; exact Hbuf).
  assert (H00 : buf0 !! 0%nat = Some 0).
  { unfold buf0. apply list_lookup_insert_eq. lia. }
  match goal with |- context [intfstream_read ?f buf0 6 errno1] =>
    destruct (intfstream_read_returns f buf0 6 errno1)
      as (r2 & fp2 & buf2 & e2 & E2 & Hl2); [lia|];
    pose proof (intfstream_read_inv _ _ _ _ _ _ _ _ E2) as (Hrd2 & _);
    assert (H20 : buf2 !! 0%nat = Some 0)
      by (apply (read_blank_head f buf0 6 errno1 r2 fp2 buf2 e2);
          [intros p n; cbn [intfstream_seek st_read_at]; rewrite Hrd1;
           apply Hblank | exact H00 | exact E2])
  end.
  cbn [intfstream_seek st_read_at] in Hrd2.
  rewrite E2. cbn [obind].
  rewrite read_cd_sector_spec by lia. cbn [obind].
  match goal with |- context [intfstream_read ?f buf2 WINDOW e2] =>
    destruct (intfstream_read_returns f buf2 WINDOW e2)
      as (r3 & fp3 & buf3 & e3 & E3 & Hl3); [lia|];
    pose proof (intfstream_read_inv _ _ _ _ _ _ _ _ E3) as (Hrd3 & _);
    assert (H30 : buf3 !! 0%nat = Some 0)
      by (apply (read_blank_head f buf2 WINDOW e2 r3 fp3 buf3 e3);
          [intros p n; cbn [intfstream_seek st_read_at]; rewrite Hrd2, Hrd1;
           apply Hblank | exact H20 | exact E3])
  end.
  cbn [intfstream_seek st_read_at] in Hrd3.
  rewrite E3. cbn [obind].
  rewrite (dir_scan_end WINDOW buf3 0) by (assumption || lia).
  cbn [obind].
  eexists _, _. split; [reflexivity | congruence].
Qed.

(** X20: on a stream whose reads fail, deliver nothing or deliver NUL
    bytes only -- an empty file, a blank image -- detect_ps1_game returns
    0 after both attempts and does not write to game_id. *)
Theorem detect_ps1_game_blank_stream (fd : intfstream)
    (game_id buffer1 buffer2 : list Z) (errno : Z) :
  blank_stream fd ->
  length buffer1 = WINDOW ->
  length buffer2 = WINDOW ->
  exists fd' errno',
    detect_ps1_game fd game_id buffer1 buffer2 errno
    = Ret (0, fd', game_id, errno').
Proof.
  intros Hblank Hb1 Hb2. unfold detect_ps1_game.
  destruct (detect_ps1_game_sub_blank fd game_id buffer1 false errno Hblank Hb1)
    as (fd1 & e1 & E1 & Hrd1).
  rewrite E1. cbn [obind Z.eqb negb].
  destruct (detect_ps1_game_sub_blank fd1 game_id buffer2 true e1)
    as (fd2 & e2 & E2 & _); [|exact Hb2|].
  { intros p n. rewrite Hrd1. apply Hblank. }
  rewrite E2. eauto.
Qed.

Lemma detect_ps1_game_blank_stream_witness :
  exists fd' errno',
    detect_ps1_game (file_stream (replicate 4096 0)) (replicate 11 7)
      (replicate WINDOW 1) (replicate WINDOW 2) 0
    = Ret (0, fd', replicate 11 7, errno').
Proof.
  apply (detect_ps1_game_blank_stream (file_stream (replicate 4096 0))
           (replicate 11 7) (replicate WINDOW 1) (replicate WINDOW 2) 0).
  - apply blank_file. apply Forall_replicate. reflexivity.
  - reflexivity.
  - reflexivity.
Defined.

Lemma detect_ps1_game_failure_keeps_game_id_witness :
  (0 = 0 \/ 0 = 1) /\ (0 = 0 -> replicate 11 7 = replicate 11 7).
Proof.
  apply (detect_ps1_game_failure_keeps_game_id
           (file_stream (image_with_root_dir example_bare_dir))
           (replicate 11 7) (replicate WINDOW 0) (replicate WINDOW 0) 0 0
           {| st_read_at :=
                st_read_at (file_stream (image_with_root_dir example_bare_dir));
              st_size := 40960; st_pos := 4120;
              st_seeks := [40960; 0; 32924; 36864; 40960; 39348; 24] |}
           (replicate 11 7) 0).
  reflexivity.
Defined.

(** *** From the boot file name to the identifier *)

Lemma write_at_nil (game_id : list Z) (g : nat) :
  (g <= length game_id)%nat -> write_at game_id g [] = Ret game_id.
Proof.
  intros H. unfold write_at. simpl. rewrite Nat.add_0_r.
  destruct (Nat.leb_spec g (length game_id)); [|lia].
  rewrite take_drop. reflexivity.
Qed.

Lemma store_write_at (game_id : list Z) (g : nat) (c : Z) :
  (g <= length game_id)%nat -> store game_id g c = write_at game_id g [c].
Proof.
  intros H. unfold store, write_at. simpl.
  destruct (Nat.ltb_spec g (length game_id)),
           (Nat.leb_spec (g + 1) (length game_id)); try lia; [|reflexivity].
  f_equal. rewrite insert_take_drop by lia.
  replace (g + 1)%nat with (S g) by lia. reflexivity.
Qed.

Lemma write_at_length (game_id : list Z) (g : nat) (x a : list Z) :
  write_at game_id g x = Ret a -> length a = length game_id.
Proof.
  unfold write_at.
  destruct (Nat.leb_spec (g + length x) (length game_id)); [|discriminate].
  intros E. inversion E. rewrite !length_app, length_take, length_drop. lia.
Qed.

(** Two runs of stores, one after the other, make one run. *)
Lemma write_at_app (game_id : list Z) (g : nat) (x y : list Z) :
  (do a <- write_at game_id g x ;; write_at a (g + length x) y)
  = write_at game_id g (x ++ y).
Proof.
  unfold write_at at 1 3. rewrite length_app.
  destruct (Nat.leb_spec (g + length x) (length game_id)) as [Hx | Hx].
  - cbn [obind]. unfold write_at.
    rewrite !length_app, length_take, length_drop.
    replace (g `min` length game_id + (length x
             + (length game_id - (g + length x))))%nat
      with (length game_id) by lia.
    replace (g + (length x + length y))%nat
      with (g + length x + length y)%nat by lia.
    destruct (Nat.leb_spec (g + length x + length y) (length game_id));
      [|reflexivity].
    f_equal.
    rewrite (app_assoc (take g game_id) x).
    rewrite take_app_length'
      by (rewrite length_app, length_take; lia).
    rewrite drop_app_ge by (rewrite length_app, length_take; lia).
    rewrite length_app, length_take, drop_drop, <- !app_assoc.
    repeat f_equal. lia.
  - cbn [obind].
    destruct (Nat.leb_spec (g + (length x + length y)) (length game_id));
      [lia | reflexivity].
Qed.

(** The four characters stored in upper case. *)
Lemma copy_upper_write (l : list Z) :
  forall (rest game_id : list Z) (g : nat),
    (g <= length game_id)%nat ->
    copy_upper (length l) (l ++ rest) game_id g
    = do a <- write_at game_id g (map toupper l) ;;
      Ret (rest, a, (g + length l)%nat).
Proof.
  induction l as [|c l IH]; intros rest game_id g Hg.
  - cbn [length copy_upper app map]. rewrite write_at_nil by exact Hg.
    cbn [obind]. rewrite Nat.add_0_r. reflexivity.
  - cbn [length copy_upper app map].
    change (toupper c :: map toupper l) with ([toupper c] ++ map toupper l).
    rewrite <- write_at_app. rewrite <- store_write_at by exact Hg.
    destruct (store game_id g (toupper c)) as [a| |] eqn:E; cbn [obind];
      [|reflexivity|reflexivity].
    apply store_inv in E. destruct E as [Hlt ->].
    rewrite IH by (rewrite length_insert; lia).
    cbn [length]. replace (g + 1)%nat with (S g) by lia.
    destruct (write_at (<[g:=toupper c]> game_id) (S g) (map toupper l));
      cbn [obind]; [|reflexivity|reflexivity].
    replace (S g + length l)%nat with (g + S (length l))%nat by lia.
    reflexivity.
Qed.

Lemma isalnum_not_dot (c : Z) : isalnum c = true -> (c =? 46) = false.
Proof.
  intros H. destruct (Z.eqb_spec c 46) as [-> | _]; [discriminate H|].
  reflexivity.
Qed.

(** The loop over alphanumeric characters up to a dot: the dot is
    skipped and the loop goes on behind it. *)
Lemma copy_alnum_to_dot (d : list Z) :
  forall (rest game_id : list Z) (g : nat),
    d <> [] ->
    Forall (fun c => isalnum c = true) d ->
    (g <= length game_id)%nat ->
    copy_alnum (d ++ 46 :: rest) game_id g
    = do a <- write_at game_id g d ;; copy_alnum rest a (g + length d).
Proof.
  induction d as [|c d IH]; intros rest game_id g Hne Hd Hg; [congruence|].
  inversion Hd as [|? ? Hc Hd']; subst.
  cbn [app copy_alnum length]. rewrite Hc.
  change (c :: d) with ([c] ++ d). rewrite <- write_at_app.
  rewrite <- store_write_at by exact Hg.
  destruct (store game_id g c) as [a| |] eqn:E; cbn [obind];
    [|reflexivity|reflexivity].
  apply store_inv in E. destruct E as [Hlt ->].
  cbn [length]. replace (g + 1)%nat with (S g) by lia.
  destruct d as [|c' d].
  - cbn [app]. change (46 =? 46) with true. cbv iota.
    rewrite write_at_nil by (rewrite length_insert; lia).
    cbn [obind length]. f_equal. lia.
  - inversion Hd' as [|? ? Hc' _]; subst.
    cbn [app]. rewrite (isalnum_not_dot c' Hc').
    change (c' :: d ++ 46 :: rest) with ((c' :: d) ++ 46 :: rest).
    rewrite IH by (try discriminate; try assumption; rewrite length_insert; lia).
    destruct (write_at (<[g:=c]> game_id) (S g) (c' :: d)); cbn [obind];
      [|reflexivity|reflexivity].
    f_equal. cbn [length]. lia.
Qed.

(** The loop over alphanumeric characters up to a character that is
    neither alphanumeric nor a dot: the loop ends there. *)
Lemma copy_alnum_to_end (d : list Z) :
  forall (e : Z) (rest game_id : list Z) (g : nat),
    Forall (fun c => isalnum c = true) d ->
    isalnum e = false ->
    e <> 46 ->
    (g <= length game_id)%nat ->
    copy_alnum (d ++ e :: rest) game_id g
    = do a <- write_at game_id g d ;; Ret (a, (g + length d)%nat).
Proof.
  induction d as [|c d IH]; intros e rest game_id g Hd He Hdot Hg.
  - cbn [app copy_alnum length]. rewrite He.
    rewrite write_at_nil by exact Hg. cbn [obind].
    rewrite Nat.add_0_r. reflexivity.
  - inversion Hd as [|? ? Hc Hd']; subst.
    cbn [app copy_alnum length]. rewrite Hc.
    change (c :: d) with ([c] ++ d). rewrite <- write_at_app.
    rewrite <- store_write_at by exact Hg.
    destruct (store game_id g c) as [a| |] eqn:E; cbn [obind];
      [|reflexivity|reflexivity].
    apply store_inv in E. destruct E as [Hlt ->].
    cbn [length]. replace (g + 1)%nat with (S g) by lia.
    assert (Hgo : copy_alnum (d ++ e :: rest) (<[g:=c]> game_id) (S g)
                  = do a <- write_at (<[g:=c]> game_id) (S g) d ;;
                    Ret (a, (g + S (length d))%nat)).
    { rewrite IH by (try assumption; rewrite length_insert; lia).
      destruct (write_at (<[g:=c]> game_id) (S g) d); cbn [obind];
        [|reflexivity|reflexivity].
      replace (S g + length d)%nat with (g + S (length d))%nat by lia.
      reflexivity. }
    destruct d as [|c' d].
    + cbn [app] in *. destruct (Z.eqb_spec e 46); [contradiction|].
      exact Hgo.
    + inversion Hd' as [|? ? Hc' _]; subst.
      cbn [app] in *. rewrite (isalnum_not_dot c' Hc'). exact Hgo.
Qed.

(** The identifier of a serial name: the stores of its bytes and of the
    terminator, in a row from index 0. *)
Lemma build_game_id_serial (file l4 : list Z) (s : Z) (d1 d2 : list Z)
    (e : Z) (t rest game_id : list Z) :
  serial_name file l4 s d1 d2 e t ->
  build_game_id (file ++ rest) game_id
  = write_at game_id 0 (serial_id l4 d1 d2 ++ [0]).
Proof.
  intros [Hsplit Hl4 Hs Hd1 Hne Hd2 He Hdot]. subst file.
  unfold build_game_id, serial_id.
  rewrite <- (app_assoc l4). rewrite <- Hl4 at 1.
  rewrite copy_upper_write by lia.
  rewrite <- !app_assoc.
  rewrite <- (write_at_app game_id 0 (map toupper l4)).
  destruct (write_at game_id 0 (map toupper l4)) as [a1| |] eqn:E1;
    cbn [obind]; [|reflexivity|reflexivity].
  pose proof (write_at_length _ _ _ _ E1) as Hl1.
  assert (Hcap : (4 <= length game_id)%nat).
  { unfold write_at in E1. rewrite length_map, Hl4 in E1.
    destruct (Nat.leb_spec (0 + 4) (length game_id)); [lia | discriminate]. }
  rewrite length_map, Hl4. cbn [Nat.add].
  replace ((45 :: d1 ++ d2) ++ [0]) with ([45] ++ d1 ++ d2 ++ [0])
    by (cbn [app]; rewrite <- app_assoc; reflexivity).
  rewrite <- (write_at_app a1 4 [45]).
  rewrite <- store_write_at by lia.
  destruct (store a1 4 45) as [a2| |] eqn:E2; cbn [obind];
    [|reflexivity|reflexivity].
  apply store_inv in E2. destruct E2 as [Hlt ->].
  cbn [app load lookup list_lookup obind]. rewrite Hs.
  cbn [drop length Nat.add]. rewrite ?drop_0.
  rewrite <- ?(app_assoc d1). cbn [app].
  rewrite copy_alnum_to_dot
    by (try assumption; rewrite length_insert; lia).
  rewrite <- (write_at_app _ 5 d1).
  destruct (write_at (<[4%nat:=45]> a1) 5 d1) as [a3| |] eqn:E3;
    cbn [obind]; [|reflexivity|reflexivity].
  pose proof (write_at_length _ _ _ _ E3) as Hl3.
  rewrite length_insert in Hl3.
  assert (Hcap3 : (5 + length d1 <= length a3)%nat).
  { unfold write_at in E3. rewrite length_insert in E3.
    destruct (Nat.leb_spec (5 + length d1) (length a1));
      [lia | discriminate]. }
  rewrite <- ?(app_assoc d2). cbn [app].
  rewrite copy_alnum_to_end by (try assumption; lia).
  rewrite <- (write_at_app a3 (5 + length d1) d2).
  destruct (write_at a3 (5 + length d1) d2) as [a4| |] eqn:E4;
    cbn [obind]; [|reflexivity|reflexivity].
  pose proof (write_at_length _ _ _ _ E4) as Hl4'.
  assert (Hcap4 : (5 + length d1 + length d2 <= length a4)%nat).
  { unfold write_at in E4.
    destruct (Nat.leb_spec (5 + length d1 + length d2) (length a3));
      [lia | discriminate]. }
  apply store_write_at. lia.
Qed.

(** Up to a backslash or a colon, the line scan forgets where boot_file
    was. *)
Lemma scan_line_to_sep (a : list Z) :
  forall (sep : Z) (rest bf : list Z),
    Forall (fun c => c <> 0 /\ c <> 10) a ->
    sep = 92 \/ sep = 58 ->
    scan_line (a ++ sep :: rest) bf = scan_line rest rest.
Proof.
  induction a as [|c a IH]; intros sep rest bf Ha Hsep.
  - destruct Hsep as [-> | ->]; reflexivity.
  - inversion Ha as [|? ? [H0 H10] Ha']; subst.
    cbn [app scan_line].
    destruct (Z.eqb_spec c 0); [contradiction|].
    destruct (Z.eqb_spec c 10); [contradiction|].
    cbn [orb]. apply IH; assumption.
Qed.

(** The resolver up to the making of the identifier, when the walk over
    the records reaches SYSTEM.CNF;1 and its contents hold a boot line:
    the identifier is made of the file name, and the call returns 1. *)
Lemma detect_ps1_game_sub_boot (fp : intfstream) (game_id buffer : list Z)
    (scm : bool) (errno : Z) (pvd W cnf pre kw mid : list Z) (sep : Z)
    (file : list Z) (off : nat) :
  length buffer = WINDOW ->
  st_read_at fp (root_record_offset fp scm) 6 = RdData pvd ->
  (6 <= length pvd)%nat ->
  st_read_at fp (sector_offset fp scm (record_sector pvd 0)) WINDOW
    = RdData W ->
  length W = WINDOW ->
  dir_walk W 0 off ->
  st_read_at fp (sector_offset fp scm (record_sector W off)) 256
    = RdData cnf ->
  length cnf = 256%nat ->
  boot_line cnf pre kw mid sep file ->
  exists (fp' : intfstream) (errno' : Z) (rest : list Z),
    detect_ps1_game_sub fp game_id scm buffer errno
    = (do g <- build_game_id (file ++ 0 :: rest) game_id ;;
       Ret (1, fp', g, errno')) /\
    st_read_at fp' = st_read_at fp.
Proof.
  intros Hbuf Hpvd Hpvdlen HW HWlen Hwalk Hcnf Hcnflen
    [Hsplit Hprenz Hnoboot Hkw Hmid Hsep Hfile].
  assert (HWIN : WINDOW = 4096%nat) by reflexivity.
  unfold detect_ps1_game_sub.
  rewrite store_lt by lia. cbn [obind].
  destruct (probe_mode1_spec fp scm errno) as (fp1 & errno1 & Eprobe & Hrd1).
  rewrite Eprobe. cbn [obind].
  set (buf0 := <[0%nat:=0]> buffer).
  assert (Hbuf0 : length buf0 = WINDOW)
    by (unfold buf0; rewrite length_insert; exact Hbuf).
  fold (root_record_offset fp scm).
  destruct (seek_read_data fp1 (root_record_offset fp scm) 6 pvd buf0 errno1)
    as (fp2 & E2 & Hrd2 & _ & _).
  { rewrite Hrd1. exact Hpvd. }
  { rewrite length_take. lia. }
  rewrite E2. cbn [obind].
  assert (Hl6 : length (take 6 pvd) = 6%nat) by (rewrite length_take; lia).
  rewrite read_cd_sector_spec by (rewrite length_app, Hl6; lia).
  cbn [obind]. rewrite record_sector_app by lia.
  replace (record_sector (take 6 pvd) 0) with (record_sector pvd 0).
  2:{ unfold record_sector. rewrite !(nth_lookup _ _ 0).
      rewrite !lookup_take_lt by lia. reflexivity. }
  fold (sector_offset fp scm (record_sector pvd 0)).
  set (buf1 := take 6 pvd ++ drop (length (take 6 pvd)) buf0).
  assert (Hbuf1 : length buf1 = WINDOW).
  { unfold buf1. rewrite length_app, length_drop. lia. }
  destruct (seek_read_data fp2 (sector_offset fp scm (record_sector pvd 0))
              WINDOW W buf1 errno1) as (fp3 & E3 & Hrd3 & _ & _).
  { rewrite Hrd2, Hrd1. exact HW. }
  { rewrite length_take. lia. }
  rewrite E3. cbn [obind].
  rewrite (take_ge W WINDOW) by lia.
  rewrite (drop_ge buf1) by lia. rewrite app_nil_r.
  destruct (dir_scan_walk W 0 off Hwalk HWlen (S WINDOW))
    as (Escan & Hoff & Hfield); [lia|].
  rewrite Escan. cbn [obind].
  destruct (Nat.leb_spec WINDOW off); [lia|].
  assert (Hoff45 : (off + 45 <= length W)%nat).
  { unfold name_field in Hfield. rewrite length_take, length_drop in Hfield.
    lia. }
  rewrite read_cd_sector_spec by lia. cbn [obind].
  fold (sector_offset fp scm (record_sector W off)).
  destruct (seek_read_data fp3 (sector_offset fp scm (record_sector W off))
              256 cnf W errno1) as (fp4 & E4 & Hrd4 & _ & _).
  { rewrite Hrd3, Hrd2, Hrd1. exact Hcnf. }
  { rewrite length_take. lia. }
  rewrite E4. cbn [obind].
  rewrite (take_ge cnf 256) by lia. rewrite Hcnflen.
  destruct (drop 256 W) as [|w256 rest] eqn:Hdrop.
  { apply (f_equal length) in Hdrop. rewrite length_drop in Hdrop.
    simpl in Hdrop. lia. }
  rewrite store_app_at by (assumption || discriminate). cbn [obind].
  change (drop 1 (w256 :: rest)) with rest.
  destruct (boot_kw_chars kw Hkw) as [Hkwlen Hkwchars].
  set (filez := file ++ 0 :: rest).
  set (line := kw ++ mid ++ sep :: filez).
  assert (Hline : cnf ++ 0 :: rest = pre ++ line).
  { rewrite Hsplit. unfold line, filez.
    rewrite <- !app_assoc. reflexivity. }
  rewrite Hline.
  assert (Hboot : boot_at line).
  { unfold boot_at, line. rewrite take_app_length' by (symmetry; exact Hkwlen).
    exact Hkw. }
  assert (Hlinelen : (4 <= length line)%nat).
  { unfold line. rewrite length_app. lia. }
  rewrite find_boot_spec; try assumption.
  2:{ intros i Hi Hb. apply (Hnoboot i Hi).
      unfold boot_at in *. rewrite <- Hline in Hb.
      rewrite drop_app_le in Hb by (rewrite Hsplit, length_app; lia).
      rewrite take_app_le in Hb; [exact Hb|].
      rewrite length_drop, Hsplit, !length_app, Hkwlen. lia. }
  cbn [obind].
  destruct (boot_at_nz line Hboot) as (c0 & r0 & Hc0 & Hnz0).
  rewrite Hc0. cbn [load lookup list_lookup obind].
  destruct (Z.eqb_spec c0 0); [contradiction|].
  rewrite <- Hc0. unfold line at 1 2.
  rewrite (app_assoc kw).
  rewrite scan_line_to_sep; [| |exact Hsep].
  2:{ apply Forall_app. split; [exact Hkwchars | exact Hmid]. }
  unfold filez at 1. rewrite scan_line_to_eol by exact Hfile.
  cbn [obind].
  exists fp4, errno1, rest. split; [reflexivity|]. congruence.
Qed.

(** The resolver on a boot file name of the shape of a serial: with
    room in game_id it returns 1 with the identifier, without it stores
    outside game_id. *)
Lemma detect_ps1_game_sub_serial_outcome (fp : intfstream)
    (game_id buffer : list Z) (scm : bool) (errno : Z)
    (pvd W cnf pre kw mid : list Z) (sep : Z) (file l4 : list Z) (s : Z)
    (d1 d2 : list Z) (e : Z) (t : list Z) (off : nat) :
  length buffer = WINDOW ->
  st_read_at fp (root_record_offset fp scm) 6 = RdData pvd ->
  (6 <= length pvd)%nat ->
  st_read_at fp (sector_offset fp scm (record_sector pvd 0)) WINDOW
    = RdData W ->
  length W = WINDOW ->
  dir_walk W 0 off ->
  st_read_at fp (sector_offset fp scm (record_sector W off)) 256
    = RdData cnf ->
  length cnf = 256%nat ->
  boot_line cnf pre kw mid sep file ->
  serial_name file l4 s d1 d2 e t ->
  ((length (serial_id l4 d1 d2) < length game_id)%nat ->
   exists fp' errno',
     detect_ps1_game_sub fp game_id scm buffer errno
     = Ret (1, fp',
            serial_id l4 d1 d2
            ++ 0 :: drop (S (length (serial_id l4 d1 d2))) game_id,
            errno')) /\
  ((length game_id <= length (serial_id l4 d1 d2))%nat ->
   detect_ps1_game_sub fp game_id scm buffer errno = Fault).
Proof.
  intros Hbuf Hpvd Hpvdlen HW HWlen Hwalk Hcnf Hcnflen Hboot Hname.
  destruct (detect_ps1_game_sub_boot fp game_id buffer scm errno pvd W cnf pre
              kw mid sep file off) as (fp' & errno' & rest & E & _);
    try assumption.
  rewrite E.
  rewrite <- (app_nil_r (file ++ 0 :: rest)), <- app_assoc.
  rewrite (build_game_id_serial file l4 s d1 d2 e t _ game_id Hname).
  unfold write_at. rewrite length_app. cbn [length Nat.add].
  split.
  - intros Hcap.
    destruct (Nat.leb_spec (length (serial_id l4 d1 d2) + 1) (length game_id));
      [|lia].
    cbn [obind take app]. exists fp', errno'.
    rewrite <- app_assoc. cbn [app].
    replace (length (serial_id l4 d1 d2) + 1)%nat
      with (S (length (serial_id l4 d1 d2))) by lia.
    reflexivity.
  - intros Hcap.
    destruct (Nat.leb_spec (length (serial_id l4 d1 d2) + 1) (length game_id));
      [lia | reflexivity].
Qed.

(** X21: for a boot file name of the shape of a serial -- four
    characters, a separator, alphanumeric characters with a dot among
    them -- after the last backslash or colon of the boot line,
    detect_ps1_game_sub returns 1 with the identifier made of the four
    characters in upper case, a dash and the alphanumeric characters,
    and its terminator. *)
Theorem detect_ps1_game_sub_serial (fp : intfstream)
    (game_id buffer : list Z) (scm : bool) (errno : Z)
    (pvd W cnf pre kw mid : list Z) (sep : Z) (file l4 : list Z) (s : Z)
    (d1 d2 : list Z) (e : Z) (t : list Z) (off : nat) :
  length buffer = WINDOW ->
  st_read_at fp (root_record_offset fp scm) 6 = RdData pvd ->
  (6 <= length pvd)%nat ->
  st_read_at fp (sector_offset fp scm (record_sector pvd 0)) WINDOW
    = RdData W ->
  length W = WINDOW ->
  dir_walk W 0 off ->
  st_read_at fp (sector_offset fp scm (record_sector W off)) 256
    = RdData cnf ->
  length cnf = 256%nat ->
  boot_line cnf pre kw mid sep file ->
  serial_name file l4 s d1 d2 e t ->
  (length (serial_id l4 d1 d2) < length game_id)%nat ->
  exists fp' errno',
    detect_ps1_game_sub fp game_id scm buffer errno
    = Ret (1, fp',
           serial_id l4 d1 d2
           ++ 0 :: drop (S (length (serial_id l4 d1 d2))) game_id,
           errno').
Proof.
  intros Hbuf Hpvd Hpvdlen HW HWlen Hwalk Hcnf Hcnflen Hboot Hname Hcap.
  destruct (detect_ps1_game_sub_serial_outcome fp game_id buffer scm errno
              pvd W cnf pre kw mid sep file l4 s d1 d2 e t off) as [Hok _];
    try assumption.
  exact (Hok Hcap).
Qed.

(** X22: the resolver stores the identifier and its terminator without
    knowing the size of game_id: for a serial name whose identifier has
    as many characters as game_id has bytes, or more, it stores outside
    game_id. *)
Theorem detect_ps1_game_sub_overruns_game_id (fp : intfstream)
    (game_id buffer : list Z) (scm : bool) (errno : Z)
    (pvd W cnf pre kw mid : list Z) (sep : Z) (file l4 : list Z) (s : Z)
    (d1 d2 : list Z) (e : Z) (t : list Z) (off : nat) :
  length buffer = WINDOW ->
  st_read_at fp (root_record_offset fp scm) 6 = RdData pvd ->
  (6 <= length pvd)%nat ->
  st_read_at fp (sector_offset fp scm (record_sector pvd 0)) WINDOW
    = RdData W ->
  length W = WINDOW ->
  dir_walk W 0 off ->
  st_read_at fp (sector_offset fp scm (record_sector W off)) 256
    = RdData cnf ->
  length cnf = 256%nat ->
  boot_line cnf pre kw mid sep file ->
  serial_name file l4 s d1 d2 e t ->
  (length game_id <= length (serial_id l4 d1 d2))%nat ->
  detect_ps1_game_sub fp game_id scm buffer errno = Fault.
Proof.
  intros Hbuf Hpvd Hpvdlen HW HWlen Hwalk Hcnf Hcnflen Hboot Hname Hcap.
  destruct (detect_ps1_game_sub_serial_outcome fp game_id buffer scm errno
              pvd W cnf pre kw mid sep file l4 s d1 d2 e t off) as [_ Hbad];
    try assumption.
  exact (Hbad Hcap).
Qed.

(** X23: when the first attempt of detect_ps1_game, on sectors of 2352
    or 2048 bytes, ends at a directory without SYSTEM.CNF;1, the second
    attempt reads the same stream in sectors of 2448 bytes; when that
    finds the boot file, the call returns 1 with its identifier. *)
Theorem detect_ps1_game_second_attempt (fd : intfstream)
    (game_id buffer1 buffer2 : list Z) (errno : Z)
    (pvd0 W0 : list Z) (off0 : nat)
    (pvd W cnf pre kw mid : list Z) (sep : Z) (file l4 : list Z) (s : Z)
    (d1 d2 : list Z) (e : Z) (t : list Z) (off : nat) :
  length buffer1 = WINDOW ->
  st_read_at fd (root_record_offset fd false) 6 = RdData pvd0 ->
  (6 <= length pvd0)%nat ->
  st_read_at fd (sector_offset fd false (record_sector pvd0 0)) WINDOW
    = RdData W0 ->
  length W0 = WINDOW ->
  dir_chain W0 0 off0 ->
  W0 !! off0 = Some 0 \/ (WINDOW <= off0)%nat ->
  length buffer2 = WINDOW ->
  st_read_at fd (root_record_offset fd true) 6 = RdData pvd ->
  (6 <= length pvd)%nat ->
  st_read_at fd (sector_offset fd true (record_sector pvd 0)) WINDOW
    = RdData W ->
  length W = WINDOW ->
  dir_walk W 0 off ->
  st_read_at fd (sector_offset fd true (record_sector W off)) 256
    = RdData cnf ->
  length cnf = 256%nat ->
  boot_line cnf pre kw mid sep file ->
  serial_name file l4 s d1 d2 e t ->
  (length (serial_id l4 d1 d2) < length game_id)%nat ->
  exists fd' errno',
    detect_ps1_game fd game_id buffer1 buffer2 errno
    = Ret (1, fd',
           serial_id l4 d1 d2
           ++ 0 :: drop (S (length (serial_id l4 d1 d2))) game_id,
           errno').
Proof.
  intros Hb1 Hpvd0 Hpvd0len HW0 HW0len Hchain Hend
    Hb2 Hpvd Hpvdlen HW HWlen Hwalk Hcnf Hcnflen Hboot Hname Hcap.
  unfold detect_ps1_game.
  destruct (detect_ps1_game_sub_chain_ends fd game_id buffer1 false errno
              pvd0 W0 off0) as (fd1 & e1 & E1 & Hrd1); try assumption.
  rewrite E1. cbn [obind Z.eqb negb].
  destruct (detect_ps1_game_sub_serial_outcome fd1 game_id buffer2 true e1
              pvd W cnf pre kw mid sep file l4 s d1 d2 e t off) as [Hok _];
    try assumption; try (rewrite Hrd1; assumption).
  destruct (Hok Hcap) as (fd2 & e2 & E2). rewrite E2. eauto.
Qed.

(** *** Images with a BOOT2 line *)

Ltac walk_to_system_cnf :=
  apply (dir_walk_next _ 0 34 68);
  [ vm_compute; reflexivity | lia | vm_compute; reflexivity
  | vm_compute; discriminate
  | apply (dir_walk_next _ 34 34 68);
    [ vm_compute; reflexivity | lia | vm_compute; reflexivity
    | vm_compute; discriminate
    | apply (dir_walk_found _ 68 45);
      [ vm_compute; reflexivity | discriminate | vm_compute; reflexivity ] ] ].

Ltac boot2_line :=
  constructor;
  [ vm_compute; reflexivity
  | constructor
  | intros i Hi; simpl in Hi; lia
  | vm_compute; reflexivity
  | repeat (apply List.Forall_cons; [split; discriminate|]);
    apply List.Forall_nil
  | left; reflexivity
  | vm_compute; reflexivity ].

Ltac slus_name :=
  constructor;
  [ vm_compute; reflexivity
  | reflexivity
  | reflexivity
  | repeat (apply List.Forall_cons; [reflexivity|]); apply List.Forall_nil
  | discriminate
  | repeat (apply List.Forall_cons; [reflexivity|]); apply List.Forall_nil
  | reflexivity
  | discriminate ].

Lemma detect_ps1_game_sub_serial_witness :
  exists fp' errno',
    detect_ps1_game_sub (file_stream example_boot2_iso) (replicate 16 7)
      false (replicate WINDOW 0) 0
    = Ret (1, fp',
           serial_id (bytes "SLUS") (bytes "200") (bytes "62")
           ++ 0 :: drop (S (length (serial_id (bytes "SLUS") (bytes "200")
                                      (bytes "62"))))
                     (replicate 16 7),
           errno').
Proof.
  apply (detect_ps1_game_sub_serial (file_stream example_boot2_iso)
           (replicate 16 7) (replicate WINDOW 0) false 0
           (take 6 (bytes_at example_boot2_iso 32924))
           (take WINDOW (bytes_at example_boot2_iso 36864))
           (take 256 (bytes_at example_boot2_iso 40960))
           [] (bytes "BOOT") (bytes "2 = cdrom0:") 92
           (drop 16 (take 256 (bytes_at example_boot2_iso 40960)))
           (bytes "SLUS") 95 (bytes "200") (bytes "62") 59
           (drop 28 (take 256 (bytes_at example_boot2_iso 40960)))
           68%nat).
  - vm_compute. reflexivity.
  - vm_compute. reflexivity.
  - vm_compute. lia.
  - vm_compute. reflexivity.
  - vm_compute. reflexivity.
  - walk_to_system_cnf.
  - vm_compute. reflexivity.
  - vm_compute. reflexivity.
  - boot2_line.
  - slus_name.
  - vm_compute. lia.
Defined.

Lemma detect_ps1_game_sub_overruns_game_id_witness :
  detect_ps1_game_sub (file_stream example_boot2_iso) (replicate 10 7)
    false (replicate WINDOW 0) 0 = Fault.
Proof.
  apply (detect_ps1_game_sub_overruns_game_id (file_stream example_boot2_iso)
           (replicate 10 7) (replicate WINDOW 0) false 0
           (take 6 (bytes_at example_boot2_iso 32924))
           (take WINDOW (bytes_at example_boot2_iso 36864))
           (take 256 (bytes_at example_boot2_iso 40960))
           [] (bytes "BOOT") (bytes "2 = cdrom0:") 92
           (drop 16 (take 256 (bytes_at example_boot2_iso 40960)))
           (bytes "SLUS") 95 (bytes "200") (bytes "62") 59
           (drop 28 (take 256 (bytes_at example_boot2_iso 40960)))
           68%nat).
  - vm_compute. reflexivity.
  - vm_compute. reflexivity.
  - vm_compute. lia.
  - vm_compute. reflexivity.
  - vm_compute. reflexivity.
  - walk_to_system_cnf.
  - vm_compute. reflexivity.
  - vm_compute. reflexivity.
  - boot2_line.
  - slus_name.
  - vm_compute. lia.
Defined.

Lemma detect_ps1_game_second_attempt_witness :
  exists fd' errno',
    detect_ps1_game (file_stream example_subchannel_image) (replicate 16 7)
      (replicate WINDOW 0) (replicate WINDOW 0) 0
    = Ret (1, fd',
           serial_id (bytes "SLUS") (bytes "200") (bytes "62")
           ++ 0 :: drop (S (length (serial_id (bytes "SLUS") (bytes "200")
                                      (bytes "62"))))
                     (replicate 16 7),
           errno').
Proof.
  apply (detect_ps1_game_second_attempt (file_stream example_subchannel_image)
           (replicate 16 7) (replicate WINDOW 0) (replicate WINDOW 0) 0
           (take 6 (bytes_at example_subchannel_image 37812))
           (take WINDOW (bytes_at example_subchannel_image 24))
           0%nat
           (take 6 (bytes_at example_subchannel_image 39348))
           (take WINDOW (bytes_at example_subchannel_image 44088))
           (take 256 (bytes_at example_subchannel_image 48984))
           [] (bytes "BOOT") (bytes "2 = cdrom0:") 92
           (drop 16 (take 256 (bytes_at example_subchannel_image 48984)))
           (bytes "SLUS") 95 (bytes "200") (bytes "62") 59
           (drop 28 (take 256 (bytes_at example_subchannel_image 48984)))
           68%nat).
  - vm_compute. reflexivity.
  - vm_compute. reflexivity.
  - vm_compute. lia.
  - vm_compute. reflexivity.
  - vm_compute. reflexivity.
  - apply dir_chain_here.
  - left. vm_compute. reflexivity.
  - vm_compute. reflexivity.
  - vm_compute. reflexivity.
  - vm_compute. lia.
  - vm_compute. reflexivity.
  - vm_compute. reflexivity.
  - walk_to_system_cnf.
  - vm_compute. reflexivity.
  - vm_compute. reflexivity.
  - boot2_line.
  - slus_name.
  - vm_compute. lia.
Defined.

(** *** The room the PSP scanner needs in game_id *)

(** With room for 11 bytes every probe of the scan returns. *)
Lemma psp_loop_returns (n : nat) :
  forall (pos : Z) (fd : intfstream) (game_id : list Z) (errno : Z),
    (11 <= length game_id)%nat ->
    exists r, psp_loop n pos fd game_id errno = Ret r.
Proof.
  induction n as [|n IH]; intros pos fd game_id errno Hcap; [simpl; eauto|].
  cbn [psp_loop].
  destruct (intfstream_read_returns (intfstream_seek fd pos SEEK_SET) game_id 5
              errno) as (r & fd1 & g1 & e1 & E1 & Hl1); [lia|].
  rewrite E1. cbn [obind].
  destruct (0 <? r); [|eauto].
  rewrite store_lt by lia. cbn [obind].
  destruct (cstr_head (<[5%nat:=0]> g1) 5) as (s & Hs & _).
  { apply list_lookup_insert_eq. lia. }
  unfold psp_prefix_test. rewrite Hs. cbn [obind].
  destruct (existsb (bytes_eqb s) PSP_PREFIXES).
  - destruct (intfstream_read_returns (intfstream_seek fd1 pos SEEK_SET)
                (<[5%nat:=0]> g1) 10 e1) as (r2 & fd2 & g2 & e2 & E2 & Hl2).
    { rewrite length_insert. lia. }
    rewrite E2. cbn [obind].
    rewrite length_insert in Hl2.
    destruct (0 <? r2); [|eauto].
    rewrite store_lt by lia. cbn [obind]. eauto.
  - apply IH. rewrite length_insert. lia.
Qed.

(** A read that delivers more bytes than the buffer holds. *)
Lemma seek_read_overflow (fd : intfstream) (off : Z) (n : nat)
    (bs buf : list Z) (errno : Z) :
  st_read_at fd off n = RdData bs ->
  (length buf < length (take n bs))%nat ->
  intfstream_read (intfstream_seek fd off SEEK_SET) buf n errno = Fault.
Proof.
  intros Hrd Hlt. unfold intfstream_read, intfstream_seek.
  cbn [st_read_at st_pos]. rewrite Hrd. unfold store_bytes.
  destruct (Nat.leb_spec (length (take n bs)) (length buf)); [lia|].
  reflexivity.
Qed.

(** X24: detect_psp_game stores at index 5 of game_id after every read
    that delivers a byte, and at index 10 when it finds a prefix: with
    11 bytes or more in game_id it returns on every stream; with 10
    bytes or fewer a file that begins with a listed prefix makes it
    store outside game_id. *)
Theorem detect_psp_game_room :
  (forall (fd : intfstream) (game_id : list Z) (errno : Z),
     (11 <= length game_id)%nat ->
     exists r, detect_psp_game fd game_id errno = Ret r) /\
  (forall (content game_id : list Z) (errno : Z),
     psp_prefix_at content 0 ->
     (length game_id <= 10)%nat ->
     detect_psp_game (file_stream content) game_id errno = Fault).
Proof.
  split.
  - intros fd game_id errno Hcap. apply psp_loop_returns. exact Hcap.
  - intros content game_id errno Hpre Hcap. unfold detect_psp_game.
    pose proof (psp_prefix_at_full content 0 ltac:(lia) Hpre) as Hfull.
    simpl in Hfull.
    rewrite (to_nat_split 100000 0) by lia. cbn [Nat.add].
    set (n := Z.to_nat (100000 - Z.of_nat 0 - 1)).
    set (fd := file_stream content).
    assert (Hrd5 : st_read_at fd 0 5 = RdData (take 5 (bytes_at content 0)))
      by (apply file_stream_read_at; lia).
    assert (Hrd10 : st_read_at fd 0 10 = RdData (take 10 (bytes_at content 0)))
      by (apply file_stream_read_at; lia).
    assert (Hl5 : length (take 5 (bytes_at content 0)) = 5%nat).
    { rewrite length_take, bytes_at_length by lia.
      change (Z.to_nat 0) with 0%nat. lia. }
    assert (Hl10 : (5 <= length (take 10 (bytes_at content 0)) <= 10)%nat).
    { rewrite length_take, bytes_at_length by lia.
      change (Z.to_nat 0) with 0%nat. lia. }
    destruct (Nat.lt_ge_cases (length game_id) 5) as [Hlt5 | Hge5].
    { cbn [psp_loop].
      rewrite (seek_read_overflow fd 0 5 _ game_id errno Hrd5);
        [reflexivity|].
      rewrite take_take, Nat.min_id. lia. }
    destruct (seek_read_data fd 0 5 _ game_id errno Hrd5)
      as (fd1 & E1 & Hrd1 & _ & _).
    { rewrite take_take, Nat.min_id. lia. }
    rewrite take_take, Nat.min_id, Hl5 in E1.
    cbn [psp_loop]. rewrite E1. cbn [obind].
    change (0 <? Z.of_nat 5) with true. cbv iota.
    destruct (Nat.le_gt_cases (length game_id) 5) as [Hsmall | H6].
    { rewrite store_ge by (rewrite length_app, Hl5, length_drop; lia).
      reflexivity. }
    destruct (drop 5 game_id) as [|x t] eqn:Ed.
    { apply (f_equal length) in Ed. rewrite length_drop in Ed.
      simpl in Ed. lia. }
    assert (Ht : length t = (length game_id - 6)%nat).
    { apply (f_equal length) in Ed. rewrite length_drop in Ed.
      simpl in Ed. lia. }
    rewrite store_app_at by (assumption || discriminate). cbn [obind].
    change (drop 1 (x :: t)) with t.
    rewrite psp_prefix_test_full by exact Hl5. cbn [obind].
    rewrite bool_decide_eq_true_2 by exact Hpre.
    set (g1 := take 5 (bytes_at content 0) ++ 0 :: t).
    assert (Hg1 : length g1 = length game_id).
    { unfold g1. rewrite length_app, Hl5. simpl. lia. }
    assert (Hrd10' : st_read_at fd1 0 10
                     = RdData (take 10 (bytes_at content 0)))
      by (rewrite Hrd1; exact Hrd10).
    destruct (Nat.lt_ge_cases (length g1)
                (length (take 10 (bytes_at content 0)))) as [Hover | Hfit].
    { rewrite (seek_read_overflow fd1 0 10 _ g1 errno Hrd10');
        [reflexivity|].
      rewrite take_take, Nat.min_id. exact Hover. }
    destruct (seek_read_data fd1 0 10 _ g1 errno Hrd10')
      as (fd2 & E2 & _).
    { rewrite take_take, Nat.min_id. exact Hfit. }
    rewrite take_take, Nat.min_id in E2. rewrite E2. cbn [obind].
    destruct (Z.ltb_spec 0 (Z.of_nat (length (take 10 (bytes_at content 0)))));
      [|lia].
    rewrite store_ge; [reflexivity|].
    rewrite length_app, length_drop. lia.
Qed.

Lemma detect_psp_game_room_witness :
  (exists r,
     detect_psp_game (file_stream (bytes "ULUS-10041")) (replicate 11 0) 0
     = Ret r) /\
  detect_psp_game (file_stream (bytes "ULUS-10041")) (replicate 10 0) 0
  = Fault.
Proof.
  destruct detect_psp_game_room as [A B]. split.
  - apply A. vm_compute. lia.
  - apply B.
    + unfold psp_prefix_at. decide_true.
    + vm_compute. lia.
Defined.

(** X25: get_token is safe with a destination of more than max_len
    bytes: on every stream it returns, the value is at most max_len, the
    size of the destination stays, what is left of the stream is an end
    of the stream, and a positive value is the index of a terminator
    that it stored. *)
Theorem get_token_safe_with_room (fd : list read1) (token : list Z)
    (max_len : nat) (errno : Z) :
  (0 < max_len)%nat ->
  (max_len < length token)%nat ->
  exists rv fd' token' errno',
    get_token fd token max_len errno = Ret (rv, fd', token', errno') /\
    rv <= Z.of_nat max_len /\
    length token' = length token /\
    (exists pre, fd = pre ++ fd') /\
    (0 < rv -> token' !! Z.to_nat rv = Some 0 /\
               (length fd' < length fd)%nat).
Proof. apply get_token_safe. Qed.

Lemma get_token_safe_with_room_witness :
  exists rv fd' token' errno',
    get_token (of_bytes (bytes "TRACK 01 AUDIO")) (replicate 6 7) 5 0
      = Ret (rv, fd', token', errno') /\
    rv <= Z.of_nat 5 /\
    length token' = length (replicate 6 7) /\
    (exists pre, of_bytes (bytes "TRACK 01 AUDIO") = pre ++ fd') /\
    (0 < rv -> token' !! Z.to_nat rv = Some 0 /\
               (length fd' < length (of_bytes (bytes "TRACK 01 AUDIO")))%nat).
Proof.
  apply (get_token_safe_with_room
           (of_bytes (bytes "TRACK 01 AUDIO")) (replicate 6 7) 5 0).
  - lia.
  - vm_compute. lia.
Defined.

(** *** Words longer than the capacity *)

(** The calls of get_token with capacity [n] over one word. *)
Lemma token_seq_loop_word (n : nat) (d : Z) (e : Z) :
  (0 < n)%nat ->
  is_ws d = true ->
  forall (k : nat) (l sp token : list Z) (fuel : nat),
    (length l <= k)%nat ->
    (k < fuel)%nat ->
    Forall plain l ->
    Forall (fun c => c <> 0) l ->
    Forall (fun c => is_ws c = true) sp ->
    length token = S n ->
    token_seq_loop fuel (of_bytes (sp ++ l ++ [d])) token n e
    = Ret (chunks k n l).
Proof.
  intros Hn Hd.
  assert (Hend : forall (sp token : list Z) (fuel : nat),
            Forall (fun c => is_ws c = true) sp ->
            length token = S n ->
            token_seq_loop (S fuel) (of_bytes sp) token n e = Ret []).
  { intros sp token fuel Hsp Hlen. cbn [token_seq_loop]. unfold get_token.
    destruct token as [|t0 tk]; [simpl in Hlen; lia|].
    destruct (get_token_loop_skip sp [] t0 tk n false e Hsp) as [t0' E].
    rewrite app_nil_r in E. rewrite E. reflexivity. }
  induction k as [|k IH]; intros l sp token fuel Hk Hfuel Hl Hnz Hsp Hlen.
  { destruct l; [|simpl in Hk; lia].
    destruct fuel as [|fuel]; [lia|]. cbn [app chunks].
    apply Hend; [|exact Hlen].
    apply Forall_app. split; [exact Hsp|]. constructor; [exact Hd|constructor]. }
  destruct fuel as [|fuel]; [lia|].
  destruct l as [|c l'].
  { cbn [app chunks]. apply Hend; [|exact Hlen].
    apply Forall_app. split; [exact Hsp|]. constructor; [exact Hd|constructor]. }
  cbn [chunks]. remember (c :: l') as l eqn:El.
  assert (Hlne : l <> []) by (subst l; discriminate).
  assert (Hlpos : (0 < length l)%nat) by (subst l; simpl; lia).
  clear El c l'.
  cbn [token_seq_loop].
  destruct (Nat.lt_ge_cases (length l) n) as [Hshort | Hlong].
  - rewrite (get_token_plain sp l [] token d n e) by (assumption || lia).
    cbn [obind]. destruct (Z.leb_spec (Z.of_nat (length l)) 0); [lia|].
    rewrite cstr_app_nul by exact Hnz. cbn [obind].
    destruct fuel as [|fuel]; [lia|].
    rewrite (Hend [] _ fuel); [|constructor|].
    2:{ rewrite length_app. simpl. rewrite length_drop. lia. }
    cbn [obind].
    rewrite take_ge by lia. rewrite drop_ge by lia.
    destruct k; reflexivity.
  - assert (Hwl : length (take n l) = n) by (rewrite length_take; lia).
    pose proof (get_token_cut sp (take n l) (drop n l ++ [d]) token e Hsp)
      as Hcut.
    rewrite Hwl in Hcut.
    rewrite (app_assoc (take n l)), take_drop in Hcut.
    rewrite Hcut.
    2:{ intros E. rewrite E in Hwl. simpl in Hwl. lia. }
    2:{ apply Forall_take. exact Hl. }
    destruct (Nat.ltb_spec n (length token)); [|lia].
    cbn [obind]. destruct (Z.leb_spec (Z.of_nat n) 0); [lia|].
    rewrite cstr_app_nul by (apply Forall_take; exact Hnz). cbn [obind].
    rewrite (IH (drop n l) [] _ fuel).
    + reflexivity.
    + rewrite length_drop. lia.
    + lia.
    + apply Forall_drop. exact Hl.
    + apply Forall_drop. exact Hnz.
    + constructor.
    + rewrite length_app. simpl. rewrite length_drop. lia.
Qed.

(** X26: a word longer than the capacity is not rejected and not cut
    short: the calls of get_token with capacity n return it in pieces of
    n bytes, the last piece shorter when the length is no multiple of
    n. *)
Theorem token_seq_long_word (sp w token : list Z) (d : Z) (n : nat)
    (errno : Z) :
  (0 < n)%nat ->
  Forall (fun c => is_ws c = true) sp ->
  Forall plain w ->
  Forall (fun c => c <> 0) w ->
  is_ws d = true ->
  length token = S n ->
  token_seq (of_bytes (sp ++ w ++ [d])) token n errno = Ret (cut_tokens n w).
Proof.
  intros Hn Hsp Hw Hnz Hd Hlen. unfold token_seq, cut_tokens.
  apply token_seq_loop_word; try assumption; [lia|].
  unfold of_bytes. rewrite length_map, !length_app. simpl. lia.
Qed.

Lemma token_seq_long_word_witness :
  token_seq (of_bytes ([32] ++ bytes "MODE2/2352" ++ [10])) (replicate 5 0)
    4 0
  = Ret (cut_tokens 4 (bytes "MODE2/2352")).
Proof.
  apply (token_seq_long_word [32] (bytes "MODE2/2352") (replicate 5 0) 10
           4 0).
  - lia.
  - all_bytes.
  - all_bytes.
  - all_bytes.
  - reflexivity.
  - reflexivity.
Defined.

(** *** The rule that is found *)

(** The loop over rules that are read in full and differ, up to a rule
    that matches. *)
Lemma detect_system_loop_finds (pre : list magic_entry) :
  forall (e : magic_entry) (post : list magic_entry) (fd : intfstream)
         (magic : list Z) (errno : Z),
    length magic = MAGIC_LEN ->
    Forall (fun x => named x /\
              exists rs, st_read_at fd (me_offset x) MAGIC_LEN = RdData rs /\
                         length (take MAGIC_LEN rs) = MAGIC_LEN /\
                         take MAGIC_LEN rs <> me_magic x) pre ->
    length (me_magic e) = MAGIC_LEN ->
    rule_matches fd e ->
    exists name fd',
      me_system_name e = Some name /\
      detect_system_loop (pre ++ e :: post) fd magic errno
        = Ret (0, Some name, fd', errno) /\
      st_seeks fd' = st_seeks fd ++ map me_offset (pre ++ [e]).
Proof.
  induction pre as [|x pre IH]; intros e post fd magic errno Hmagic Hpre Hlen
    Hmatch.
  - cbn [app map]. apply detect_system_loop_hit; assumption.
  - inversion Hpre as [|? ? [Hnamed (rs & Hrd & Hl & Hne)] Hpre']; subst.
    destruct (detect_system_loop_pass x (pre ++ e :: post) fd magic errno rs
                Hmagic Hnamed Hrd Hl Hne)
      as (fd1 & m1 & E1 & Hm1 & Hrd1 & Hs1).
    destruct (IH e post fd1 m1 errno Hm1) as (name & fd' & Hname & E & Hs).
    + eapply Forall_impl; [exact Hpre'|].
      intros y [Hy (ry & Hry & Hly & Hney)]. split; [exact Hy|].
      exists ry. rewrite Hrd1. auto.
    + exact Hlen.
    + apply (rule_matches_ext fd fd1); assumption.
    + exists name, fd'. split; [exact Hname|]. split.
      * cbn [app]. rewrite E1. exact E.
      * rewrite Hs, Hs1, <- app_assoc. reflexivity.
Qed.

(** X27: a rule of the table is found when the stream carries its
    pattern at its offset and the reads for the rules before it deliver
    17 bytes that differ from their patterns: detect_system returns 0
    with the name of the rule, errno as it was, after one seek for each
    rule up to that one. *)
Theorem detect_system_finds_rule (fd : intfstream) (magic : list Z)
    (errno : Z) (pre : list magic_entry) (e : magic_entry)
    (post : list magic_entry) :
  length magic = MAGIC_LEN ->
  MAGIC_NUMBERS = pre ++ e :: post ->
  Forall (fun x =>
            exists rs, st_read_at fd (me_offset x) MAGIC_LEN = RdData rs /\
                       length (take MAGIC_LEN rs) = MAGIC_LEN /\
                       take MAGIC_LEN rs <> me_magic x) pre ->
  rule_matches fd e ->
  exists name fd',
    me_system_name e = Some name /\
    detect_system fd magic errno = Ret (0, Some name, fd', errno) /\
    st_seeks fd' = st_seeks fd ++ map me_offset (pre ++ [e]).
Proof.
  intros Hmagic Htbl Hpre Hmatch.
  unfold detect_system, detect_system_with. rewrite Htbl.
  assert (Hall : Forall (fun x => me_system_name x = None \/ named x)
                   MAGIC_NUMBERS).
  { unfold MAGIC_NUMBERS.
    repeat (apply List.Forall_cons;
            [first [left; reflexivity
                   | right; split; [discriminate | reflexivity]]|]).
    apply List.Forall_nil. }
  rewrite Htbl in Hall. apply Forall_app in Hall. destruct Hall as [Hp He].
  inversion He as [|? ? He' _]; subst.
  assert (Hlen : length (me_magic e) = MAGIC_LEN).
  { destruct He' as [Hnone | [_ Hl]]; [|exact Hl].
    destruct Hmatch as [Hname _]. contradiction. }
  apply detect_system_loop_finds; try assumption.
  assert (Hnamed : Forall named pre).
  { clear -Htbl Hmatch. unfold MAGIC_NUMBERS in Htbl.
    destruct Hmatch as [Hname _].
    destruct pre as [|a [|b [|c [|d pre]]]]; cbn [app] in Htbl;
      inversion Htbl; subst;
      try (exfalso; apply Hname; reflexivity);
      try (destruct pre; discriminate);
      repeat (apply List.Forall_cons; [split; [discriminate | reflexivity]|]);
      apply List.Forall_nil. }
  clear -Hnamed Hpre.
  induction Hpre as [|x pre Hx Hpre IH]; [constructor|].
  inversion Hnamed; subst. constructor; [split; assumption | apply IH].
  assumption.
Qed.

Lemma detect_system_finds_rule_witness :
  exists name fd',
    me_system_name rule_pcecd = Some name /\
    detect_system example_pcecd_stream (replicate 17 0) 0
      = Ret (0, Some name, fd', 0) /\
    st_seeks fd'
    = st_seeks example_pcecd_stream
      ++ map me_offset ([rule_ps1] ++ [rule_pcecd]).
Proof.
  apply (detect_system_finds_rule example_pcecd_stream
           (replicate 17 0) 0 [rule_ps1] rule_pcecd [rule_scd; rule_end]).
  - reflexivity.
  - reflexivity.
  - apply List.Forall_cons; [|apply List.Forall_nil].
    exists (replicate 17 0). split; [reflexivity|].
    split; [reflexivity | vm_compute; discriminate].
  - split; [discriminate|]. eexists. split; reflexivity.
Defined.
(** *** The locator on a sheet with FILE entries, an AUDIO track and a
    data track *)



Section CueSheetOffset.

Variable PATH_MAX_LENGTH : nat.
Variable fill_pathname_basedir : list Z -> nat -> list Z.
Variable fill_pathname_join : list Z -> list Z -> nat -> list Z.
Variable cue_path : list Z.
Variable max_len : nat.


End CueSheetOffset.


(** *** How the scan of detect_psp_game ends, on every stream *)











